(** * Include / snippet expansion of vitepress-plugin-llms

    A shallow embedding of [src/markdown/remark-plugins/snippets.ts]:
    the region locator [findRegion], [dedent], the path token parser
    [rawPathToToken], the include resolver [processIncludes], the snippet
    resolver [processSnippets] and the visitor of [remarkInclude].

    Strings are sequences of code units; the development works on the
    code units U+0000..U+00FF, so a JavaScript string is a [string] of
    the Standard Library.  The regular expressions of the source are kept
    as syntax trees and run by a backtracking matcher that follows the
    priorities of the JavaScript matcher (greedy and lazy quantifiers,
    captures, [^], [$], [\b]). *)

From Stdlib Require Import String Ascii List ZArith Lia Bool Arith.
Import ListNotations.

Local Open Scope string_scope.
Local Open Scope list_scope.
Local Open Scope nat_scope.

(** ** Code units and character classes *)

Definition LF : ascii := "010"%char.
Definition CR : ascii := "013"%char.
Definition TAB : ascii := "009"%char.
Definition SP : ascii := " "%char.

Definition nl : string := String LF "".

Definition code (c : ascii) : nat := nat_of_ascii c.

Definition in_range (lo hi : nat) (c : ascii) : bool :=
  (lo <=? code c) && (code c <=? hi).

(** [\d] *)
Definition is_digit (c : ascii) : bool := in_range 48 57 c.

(** [[a-z0-9]] *)
Definition is_lower_alnum (c : ascii) : bool := in_range 97 122 c || is_digit c.

(** [\w] *)
Definition is_word (c : ascii) : bool :=
  in_range 97 122 c || in_range 65 90 c || is_digit c || Ascii.eqb c "_".

(** Line terminators among the code units modelled: LF and CR. *)
Definition is_line_terminator (c : ascii) : bool :=
  Ascii.eqb c LF || Ascii.eqb c CR.

(** [\s], also the set [String.prototype.trim] strips: TAB, LF, VT, FF, CR,
    space and U+00A0. *)
Definition is_space (c : ascii) : bool :=
  in_range 9 13 c || Ascii.eqb c SP || (code c =? 160).

(** [.] (without the [s] flag) *)
Definition is_dot (c : ascii) : bool := negb (is_line_terminator c).

(** [\S] *)
Definition is_nonspace (c : ascii) : bool := negb (is_space c).

(** [[^\s{]] of [regionRE] *)
Definition is_region_char (c : ascii) : bool :=
  negb (is_space c || Ascii.eqb c "{").

(** [[\w-]] of [rawPathRegexp] *)
Definition is_word_or_dash (c : ascii) : bool := is_word c || Ascii.eqb c "-".

(** [[,-]] of [rawPathRegexp] *)
Definition is_comma_or_dash (c : ascii) : bool :=
  Ascii.eqb c "," || Ascii.eqb c "-".

(** ** Strings and arrays the JavaScript way *)

Definition str_take (n : nat) (s : string) : string := substring 0 n s.

Fixpoint str_drop (n : nat) (s : string) : string :=
  match n, s with
  | 0, _ => s
  | S n', String _ t => str_drop n' t
  | S _, EmptyString => EmptyString
  end.

(** The index a relative argument of [slice] denotes in a sequence of
    length [len]: negative values count from the end, and the result is
    clamped to [0..len]. *)
Definition clamp_index (len : nat) (i : Z) : nat :=
  if (i <? 0)%Z then Z.to_nat (Z.max (Z.of_nat len + i) 0)
  else Nat.min (Z.to_nat i) len.

Definition slice_from (len : nat) (a : option Z) : nat :=
  match a with None => 0 | Some i => clamp_index len i end.

Definition slice_to (len : nat) (b : option Z) : nat :=
  match b with None => len | Some i => clamp_index len i end.

(** [s.slice(a, b)]; [None] is an argument left [undefined]. *)
Definition str_slice (s : string) (a b : option Z) : string :=
  let len := String.length s in
  let from := slice_from len a in
  str_take (slice_to len b - from) (str_drop from s).

(** [l.slice(a, b)] *)
Definition arr_slice {A : Type} (l : list A) (a b : option Z) : list A :=
  let len := List.length l in
  let from := slice_from len a in
  firstn (slice_to len b - from) (skipn from l).

(** [l.join(sep)] *)
Definition join (sep : string) (l : list string) : string := String.concat sep l.

(** [s.split('\n')] *)
Fixpoint split_nl (s : string) : list string :=
  match s with
  | EmptyString => [EmptyString]
  | String c t =>
      if Ascii.eqb c LF then EmptyString :: split_nl t
      else match split_nl t with
           | h :: r => String c h :: r
           | [] => [String c EmptyString]
           end
  end.

Definition starts_with_lf (s : string) : bool :=
  match s with String c _ => Ascii.eqb c LF | EmptyString => false end.

(** [s.split(/\r?\n/)]: a CR directly before a LF belongs to the separator. *)
Fixpoint split_lines (s : string) : list string :=
  match s with
  | EmptyString => [EmptyString]
  | String c t =>
      if Ascii.eqb c LF then EmptyString :: split_lines t
      else if Ascii.eqb c CR && starts_with_lf t then split_lines t
      else match split_lines t with
           | h :: r => String c h :: r
           | [] => [String c EmptyString]
           end
  end.

(** [s.replace(/\r\n/g, '\n')] *)
Fixpoint crlf_to_lf (s : string) : string :=
  match s with
  | EmptyString => EmptyString
  | String c t =>
      if Ascii.eqb c CR && starts_with_lf t then crlf_to_lf t
      else String c (crlf_to_lf t)
  end.

Fixpoint trim_start (s : string) : string :=
  match s with
  | String c t => if is_space c then trim_start t else s
  | EmptyString => EmptyString
  end.

Fixpoint trim_end (s : string) : string :=
  match s with
  | EmptyString => EmptyString
  | String c t =>
      match trim_end t with
      | EmptyString => if is_space c then EmptyString else String c EmptyString
      | t' => String c t'
      end
  end.

(** [s.trim()] *)
Definition trim (s : string) : string := trim_end (trim_start s).

(** [parseInt(s)] on a string of decimal digits, as the groups of
    [rangeRE] are. *)
Definition parseInt (s : string) : Z :=
  fold_left (fun acc c => (10 * acc + Z.of_nat (code c - 48))%Z)
            (list_ascii_of_string s) 0%Z.

(** JavaScript truthiness of a string and the operators built on it. *)
Definition truthy (s : string) : bool := negb (String.eqb s "").
Definition js_or (a b : string) : string := if truthy a then a else b.
Definition js_and (a b : string) : string := if truthy a then b else a.

(** ** Regular expressions *)

Inductive regex : Type :=
| Eps
| Chr (c : ascii)
| Cls (p : ascii -> bool)
| Seq (a b : regex)
| Alt (a b : regex)
| Star (greedy : bool) (a : regex)
| Opt (greedy : bool) (a : regex)
| Grp (n : nat) (a : regex)
| Bol
| Eol
| Wb.

(** A literal run of characters. *)
Fixpoint Str (s : string) : regex :=
  match s with
  | EmptyString => Eps
  | String c EmptyString => Chr c
  | String c t => Seq (Chr c) (Str t)
  end.

Definition Plus (greedy : bool) (a : regex) : regex := Seq a (Star greedy a).

Fixpoint Seqs (l : list regex) : regex :=
  match l with
  | [] => Eps
  | [a] => a
  | a :: t => Seq a (Seqs t)
  end.

(** The matcher state: the code unit before the position, the input from
    the position on, and the captures (group [n] at index [n - 1]). *)
Record mstate : Type := MState {
  prev : option ascii;
  rest : string;
  caps : list (option string)
}.

Fixpoint set_cap (n : nat) (v : string) (l : list (option string))
  : list (option string) :=
  match n, l with
  | _, [] => []
  | 0, _ :: t => Some v :: t
  | S n', x :: t => x :: set_cap n' v t
  end.

Definition step_char (c : ascii) (t : string) (s : mstate) : mstate :=
  {| prev := Some c; rest := t; caps := caps s |}.

Definition next_char (s : mstate) : option ascii :=
  match rest s with String c _ => Some c | EmptyString => None end.

Definition opt_test (p : ascii -> bool) (o : option ascii) : bool :=
  match o with Some c => p c | None => false end.

Definition at_bol (ml : bool) (s : mstate) : bool :=
  match prev s with
  | None => true
  | Some c => ml && is_line_terminator c
  end.

Definition at_eol (ml : bool) (s : mstate) : bool :=
  match rest s with
  | EmptyString => true
  | String c _ => ml && is_line_terminator c
  end.

Definition at_wb (s : mstate) : bool :=
  xorb (opt_test is_word (prev s)) (opt_test is_word (next_char s)).

Definition progressed (s s' : mstate) : bool :=
  String.length (rest s') <? String.length (rest s).

(** The loop of a starred pattern whose body is matched by [body]: a greedy
    loop tries one more iteration before it goes on, a lazy one goes on
    first.  An iteration that consumes nothing is rejected, as the
    language prescribes, so [n] iterations suffice for [n] code units. *)
Fixpoint star_loop (body : (mstate -> option mstate) -> mstate -> option mstate)
         (g : bool) (k : mstate -> option mstate) (n : nat) (s : mstate)
         {struct n} : option mstate :=
  match n with
  | 0 => k s
  | S n' =>
      if g then
        match body (fun s' => if progressed s s' then star_loop body g k n' s'
                              else None) s with
        | Some x => Some x
        | None => k s
        end
      else
        match k s with
        | Some x => Some x
        | None =>
            body (fun s' => if progressed s s' then star_loop body g k n' s'
                            else None) s
        end
  end.

(** The backtracking matcher in continuation-passing style: [rmatch ml r k s]
    is the first way, in the matcher's priority order, of matching [r] at
    [s] such that the continuation [k] succeeds.  [ml] is the [m] flag. *)
Fixpoint rmatch (ml : bool) (r : regex) (k : mstate -> option mstate)
         (s : mstate) {struct r} : option mstate :=
  match r with
  | Eps => k s
  | Chr c =>
      match rest s with
      | String d t => if Ascii.eqb c d then k (step_char d t s) else None
      | EmptyString => None
      end
  | Cls p =>
      match rest s with
      | String d t => if p d then k (step_char d t s) else None
      | EmptyString => None
      end
  | Seq a b => rmatch ml a (rmatch ml b k) s
  | Alt a b =>
      match rmatch ml a k s with
      | Some x => Some x
      | None => rmatch ml b k s
      end
  | Star g a => star_loop (rmatch ml a) g k (S (String.length (rest s))) s
  | Opt g a =>
      if g then
        match rmatch ml a (fun s' => if progressed s s' then k s' else None) s with
        | Some x => Some x
        | None => k s
        end
      else
        match k s with
        | Some x => Some x
        | None => rmatch ml a (fun s' => if progressed s s' then k s' else None) s
        end
  | Grp n a =>
      rmatch ml a
        (fun s' =>
           k {| prev := prev s'; rest := rest s';
                caps := set_cap (n - 1)
                          (str_take (String.length (rest s) - String.length (rest s'))
                                    (rest s))
                          (caps s') |}) s
  | Bol => if at_bol ml s then k s else None
  | Eol => if at_eol ml s then k s else None
  | Wb => if at_wb s then k s else None
  end.

(** A regular expression object: its pattern, the [m] flag and the number
    of capture groups. *)
Record RegExp : Type := mkRegExp {
  pattern : regex;
  multiline : bool;
  ngroups : nat
}.

(** What [exec] returns on success: the index of the match, the matched
    text and the groups 1, 2, ... ([None] for a group that did not
    participate). *)
Record MatchResult : Type := mkMatch {
  index : nat;
  matched : string;
  groups : list (option string)
}.

(** A match that starts exactly at the position: its length and groups. *)
Definition match_at (R : RegExp) (p : option ascii) (s : string)
  : option (nat * list (option string)) :=
  match rmatch (multiline R) (pattern R) Some
          {| prev := p; rest := s; caps := repeat None (ngroups R) |} with
  | Some s' => Some (String.length s - String.length (rest s'), caps s')
  | None => None
  end.

Fixpoint search (R : RegExp) (p : option ascii) (s : string) (i : nat)
  : option MatchResult :=
  match match_at R p s with
  | Some (l, g) => Some {| index := i; matched := str_take l s; groups := g |}
  | None =>
      match s with
      | EmptyString => None
      | String c t => search R (Some c) t (S i)
      end
  end.

(** [R.exec(s)] with [lastIndex] 0, and [s.match(R)] for a pattern
    without the [g] flag. *)
Definition exec (R : RegExp) (s : string) : option MatchResult :=
  search R None s 0.

(** [R.test(s)] with [lastIndex] 0. *)
Definition test (R : RegExp) (s : string) : bool :=
  match exec R s with Some _ => true | None => false end.

(** [R.exec(s)?.[n]] for a group [n >= 1]: [None] is [undefined]. *)
Definition group (n : nat) (r : option MatchResult) : option string :=
  match r with
  | Some m => nth (n - 1) (groups m) None
  | None => None
  end.

(** The pieces [s.replace(R, f)] cuts [s] into for a pattern with the [g]
    flag: the matches, left to right and not overlapping, and the code
    units between them. *)
Inductive piece : Type :=
| PChar (c : ascii)
| PMatch (m : string) (g : list (option string)).

Fixpoint scan (R : RegExp) (p : option ascii) (s : string) (skip : nat)
  : list piece :=
  match skip with
  | S k =>
      match s with
      | String c t => scan R (Some c) t k
      | EmptyString => []
      end
  | 0 =>
      match match_at R p s with
      | Some (l, g) =>
          PMatch (str_take l s) g ::
          match s with
          | EmptyString => []
          | String c t =>
              match l with
              | 0 => PChar c :: scan R (Some c) t 0
              | S l' => scan R (Some c) t l'
              end
          end
      | None =>
          match s with
          | EmptyString => []
          | String c t => PChar c :: scan R (Some c) t 0
          end
      end
  end.

Definition pieces (R : RegExp) (s : string) : list piece := scan R None s 0.

Definition piece_text (x : piece) : string :=
  match x with
  | PChar c => String c EmptyString
  | PMatch m _ => m
  end.

(** ** The patterns of the source *)

Definition ws : regex := Star true (Cls is_space).

(** [(.*?)] as group [n] *)
Definition lazy_any (n : nat) : regex := Grp n (Star false (Cls is_dot)).

(** [/<!--\s*@include:\s*(.*?)\s*-->/g] *)
Definition includesRE : RegExp :=
  mkRegExp
    (Seqs [Str "<!--"; ws; Str "@include:"; ws; lazy_any 1; ws; Str "-->"])
    false 1.

(** [/^<<<\s*(.*?)$/gm] *)
Definition snippetRE : RegExp :=
  mkRegExp (Seqs [Bol; Str "<<<"; ws; lazy_any 1; Eol]) true 1.

(** [/(#[^\s{]+)/] *)
Definition regionRE : RegExp :=
  mkRegExp (Grp 1 (Seq (Chr "#") (Plus true (Cls is_region_char)))) false 1.

(** [rangeRE]: a brace, group 1 [\d*], a comma, group 2 [\d*], a closing
    brace, [$]. *)
Definition rangeRE : RegExp :=
  mkRegExp
    (Seqs [Chr "{"; Grp 1 (Star true (Cls is_digit)); Chr ",";
           Grp 2 (Star true (Cls is_digit)); Chr "}"; Eol])
    false 2.

(** [rawPathRegexp], part by part:
    [^], group 1 [.+?] with an optional [\.] and group 2 [[a-z0-9]+] inside,
    an optional group 3 [#[\w-]+],
    an optional meta block: an optional space, a brace, an optional
    group 4 (digits, then any number of [[,-]] and digits), an optional
    space, an optional group 5 [\S+], an optional space, an optional
    group 6 [\S+], a closing brace,
    an optional space, an optional title [\[(.+)\]] with group 7, [$]. *)
Definition rawPathRegexp : RegExp :=
  mkRegExp
    (Seqs
       [Bol;
        Grp 1 (Seq (Plus false (Cls is_dot))
                   (Opt true (Seq (Chr ".") (Grp 2 (Plus true (Cls is_lower_alnum))))));
        Opt true (Grp 3 (Seq (Chr "#") (Plus true (Cls is_word_or_dash))));
        Opt true
          (Seqs [Opt true (Chr " "); Chr "{";
                 Opt true (Grp 4 (Seq (Plus true (Cls is_digit))
                                      (Star true (Seq (Cls is_comma_or_dash)
                                                      (Plus true (Cls is_digit))))));
                 Opt true (Chr " ");
                 Opt true (Grp 5 (Plus true (Cls is_nonspace)));
                 Opt true (Chr " ");
                 Opt true (Grp 6 (Plus true (Cls is_nonspace)));
                 Chr "}"]);
        Opt true (Chr " ");
        Opt true (Seqs [Chr "["; Grp 7 (Plus true (Cls is_dot)); Chr "]"]);
        Eol])
    false 7.

(** A pair of region markers of one comment dialect. *)
Record Marker : Type := mkMarker {
  m_start : RegExp;
  m_end : RegExp
}.

Definition is_rR (c : ascii) : bool := Ascii.eqb c "r" || Ascii.eqb c "R".
Definition is_eE (c : ascii) : bool := Ascii.eqb c "e" || Ascii.eqb c "E".

(** The tail every marker shares after its keyword: [\b\s*(.*?)\s*]. *)
Definition name_tail : list regex := [Wb; ws; lazy_any 1; ws].

Definition line_marker (head : list regex) : RegExp :=
  mkRegExp (Seqs ([Bol; ws] ++ head ++ name_tail ++ [Eol])) false 1.

Definition block_marker (head : list regex) (close : string) : RegExp :=
  mkRegExp (Seqs ([Bol; ws] ++ head ++ name_tail ++ [Str close])) false 1.

(** [markers], in the order of the source. *)
Definition markers : list Marker :=
  [ (* // #region name *)
    mkMarker (line_marker [Str "//"; ws; Opt true (Chr "#"); Str "region"])
             (line_marker [Str "//"; ws; Opt true (Chr "#"); Str "endregion"]);
    (* <!-- #region name --> *)
    mkMarker (block_marker [Str "<!--"; ws; Opt true (Chr "#"); Str "region"] "-->")
             (block_marker [Str "<!--"; ws; Opt true (Chr "#"); Str "endregion"] "-->");
    (* /* #region name */ *)
    mkMarker (block_marker [Str "/*"; ws; Str "#region"] "*/")
             (block_marker [Str "/*"; ws; Str "#endregion"] "*/");
    (* #Region name *)
    mkMarker (line_marker [Chr "#"; Cls is_rR; Str "egion"])
             (line_marker [Chr "#"; Cls is_eE; Str "nd"; Opt true (Chr " ");
                           Cls is_rR; Str "egion"]);
    (* # region name *)
    mkMarker (line_marker [Chr "#"; ws; Opt true (Chr "#"); Str "region"])
             (line_marker [Chr "#"; ws; Opt true (Chr "#"); Str "endregion"]);
    (* -- #region name, :: #region name, REM #region name *)
    mkMarker (line_marker [Alt (Str "--") (Alt (Str "::") (Seq (Opt true (Chr "@")) (Str "REM")));
                           ws; Str "#region"])
             (line_marker [Alt (Str "--") (Alt (Str "::") (Seq (Opt true (Chr "@")) (Str "REM")));
                           ws; Str "#endregion"]);
    (* #pragma region name *)
    mkMarker (line_marker [Str "#pragma"; Plus true (Cls is_space); Str "region"])
             (line_marker [Str "#pragma"; Plus true (Cls is_space); Str "endregion"]);
    (* ( * #region name * ) *)
    mkMarker (block_marker [Str "(*"; ws; Str "#region"] "*)")
             (block_marker [Str "(*"; ws; Str "#endregion"] "*)") ].

(** ** The path token parser *)

Record Token : Type := mkToken {
  filepath : string;
  extension : string;
  region : string;
  lines : string;
  lang : string;
  attrs : string;
  title : string
}.

(** An element of a destructured array, the empty string by default. *)
Definition elem_or_empty (g : list (option string)) (n : nat) : string :=
  match nth n g None with Some v => v | None => EmptyString end.

(** [rawPathToToken] (snippets.ts, lines 89-95). *)
Definition rawPathToToken (rawPath : string) : Token :=
  let g := match exec rawPathRegexp rawPath with
           | Some m => groups m
           | None => []
           end in
  {| filepath := elem_or_empty g 0;
     extension := elem_or_empty g 1;
     region := elem_or_empty g 2;
     lines := elem_or_empty g 3;
     lang := elem_or_empty g 4;
     attrs := elem_or_empty g 5;
     title := elem_or_empty g 6 |}.

(** ** The region locator *)

Record RegionData : Type := mkRegionData {
  re : Marker;
  start : nat;
  end_ : nat
}.

(** [R.exec(line)?.[1] === name] *)
Definition captures (R : RegExp) (line name : string) : bool :=
  match group 1 (exec R line) with
  | Some v => String.eqb v name
  | None => false
  end.

(** The first loop of [findRegion]: the first line, and for it the first
    dialect, whose start marker captures the region name. *)
Fixpoint find_start (ls : list string) (regionName : string) (i : nat)
  : option (Marker * nat) :=
  match ls with
  | [] => None
  | l :: t =>
      match find (fun r => captures (m_start r) l regionName) markers with
      | Some r => Some (r, i + 1)
      | None => find_start t regionName (i + 1)
      end
  end.

(** The second loop of [findRegion], over the lines from [chosen.start] on. *)
Fixpoint find_end (r : Marker) (regionName : string) (ls : list string)
         (i : nat) (counter : Z) : option nat :=
  match ls with
  | [] => None
  | l :: t =>
      if captures (m_start r) l regionName then
        find_end r regionName t (i + 1) (counter + 1)%Z
      else if captures (m_end r) l regionName || captures (m_end r) l "" then
        if (counter - 1 =? 0)%Z then Some i
        else find_end r regionName t (i + 1) (counter - 1)%Z
      else find_end r regionName t (i + 1) counter
  end.

(** [findRegion] (snippets.ts, lines 100-133). *)
Definition findRegion (ls : list string) (regionName : string)
  : option RegionData :=
  match find_start ls regionName 0 with
  | None => None
  | Some (r, s) =>
      match find_end r regionName (skipn s ls) s 1%Z with
      | Some e => Some {| re := r; start := s; end_ := e |}
      | None => None
      end
  end.

(** ** Dedent *)

(** The accumulator of the [reduce] in [dedent] starts at [Infinity]. *)
Inductive ext_nat : Type :=
| Fin (n : nat)
| Infinity.

Definition ext_min (i : nat) (acc : ext_nat) : ext_nat :=
  match acc with
  | Fin a => Fin (Nat.min i a)
  | Infinity => Fin i
  end.

(** The inner loop of the reducer: the index of the first code unit of
    the line that is neither a space nor a tab, if there is one. *)
Fixpoint first_non_blank (line : string) (i : nat) : option nat :=
  match line with
  | EmptyString => None
  | String c t =>
      if negb (Ascii.eqb c SP) && negb (Ascii.eqb c TAB) then Some i
      else first_non_blank t (S i)
  end.

Definition indent_step (acc : ext_nat) (line : string) : ext_nat :=
  match first_non_blank line 0 with
  | Some i => ext_min i acc
  | None => acc
  end.

(** [dedent] (snippets.ts, lines 135-150). *)
Definition dedent (text : string) : string :=
  let ls := split_nl text in
  let minIndentLength := fold_left indent_step ls Infinity in
  match minIndentLength with
  | Fin n => join nl (map (fun x => str_slice x (Some (Z.of_nat n)) None) ls)
  | Infinity => text
  end.

(** ** The world around the resolvers *)

(** The nodes of the document tree the visitor tells apart. *)
Inductive Node : Type :=
| html (value : string)
| text (value : string)
| other.

(** The collaborators: [node:path], [node:fs], gray-matter and the
    Markdown parser.  A call that throws returns [None]. *)
Record Env : Type := mkEnv {
  path_join : string -> string -> string;
  path_resolve : string -> string -> string;
  path_dirname : string -> string;
  path_extname : string -> string;
  existsSync : string -> bool;
  readFileSync : string -> option string;
  matter_content : string -> option string;
  fromMarkdown : string -> list Node
}.

Inductive LogEntry : Type :=
| LogWarn (msg : string)
| ConsoleWarn (msg : string).

(** What the resolvers mutate: the shared [includes] array and the
    warnings printed so far. *)
Record State : Type := mkState {
  includes : list string;
  warnings : list LogEntry
}.

Definition push (p : string) (st : State) : State :=
  {| includes := includes st ++ [p]; warnings := warnings st |}.

Definition warn (e : LogEntry) (st : State) : State :=
  {| includes := includes st; warnings := warnings st ++ [e] |}.

(** [s.replace(R, f)] for a replacer [f] that always returns. *)
Fixpoint replace_pieces (cb : string -> list (option string) -> State -> string * State)
         (ps : list piece) (st : State) : string * State :=
  match ps with
  | [] => (EmptyString, st)
  | PChar c :: t =>
      let '(out, st') := replace_pieces cb t st in (String c out, st')
  | PMatch m g :: t =>
      let '(r, st1) := cb m g st in
      let '(out, st2) := replace_pieces cb t st1 in
      ((r ++ out)%string, st2)
  end.

(** [s.replace(R, f)] for a replacer that may not return ([None]). *)
Fixpoint replace_pieces_opt
         (cb : string -> list (option string) -> State -> option (string * State))
         (ps : list piece) (st : State) : option (string * State) :=
  match ps with
  | [] => Some (EmptyString, st)
  | PChar c :: t =>
      match replace_pieces_opt cb t st with
      | Some (out, st') => Some (String c out, st')
      | None => None
      end
  | PMatch m g :: t =>
      match cb m g st with
      | Some (r, st1) =>
          match replace_pieces_opt cb t st1 with
          | Some (out, st2) => Some ((r ++ out)%string, st2)
          | None => None
          end
      | None => None
      end
  end.

Definition is_some {A : Type} (o : option A) : bool :=
  match o with Some _ => true | None => false end.

(** [r?.[0].length || 0] *)
Definition match_length (r : option MatchResult) : nat :=
  match r with Some m => String.length (matched m) | None => 0 end.

Definition char_is (n : nat) (s : string) (c : ascii) : bool :=
  match String.get n s with Some d => Ascii.eqb d c | None => false end.

Section Resolvers.

Variable E : Env.
Variable srcDir : string.
(** [file.path]; [None] when the document was given without a path. *)
Variable filePath : option string.
Variable stripFrontmatter : bool.

(** *** The include resolver *)

(** The path of the directive once the meta suffix is cut off its tail
    (lines 165-172). *)
Definition include_target (m1 : string) : string :=
  let range := exec rangeRE m1 in
  let region := exec regionRE m1 in
  let hasMeta := is_some region || is_some range in
  if hasMeta then
    let len := match_length region + match_length range in
    str_slice m1 (Some 0%Z) (Some (- Z.of_nat len)%Z)
  else m1.

(** [includePath] (lines 174-179); [path.dirname] throws on a missing
    [filePath]. *)
Definition includePath_of (m1 : string) : option string :=
  if char_is 0 m1 "@" then
    Some (path_join E srcDir
            (str_slice m1 (Some (if char_is 1 m1 "/" then 2%Z else 1%Z)) None))
  else
    match filePath with
    | Some fp => Some (path_join E (path_dirname E fp) m1)
    | None => None
    end.

(** Region selection of an include (lines 187-198). *)
Definition select_region (includePath : string) (region : option MatchResult)
           (content : string) (st : State) : string * State :=
  match region with
  | Some r =>
      let regionName := matched r in
      let ls := split_lines content in
      match findRegion ls (str_slice regionName (Some 1%Z) None) with
      | Some regionData =>
          (join nl (arr_slice ls (Some (Z.of_nat (start regionData)))
                                 (Some (Z.of_nat (end_ regionData)))), st)
      | None =>
          (content,
           warn (ConsoleWarn ("[remark-include] Region '" ++ regionName
                              ++ "' not found in " ++ includePath)) st)
      end
  | None => (content, st)
  end.

(** Line range selection of an include (lines 200-207). *)
Definition select_range (range : option MatchResult) (content : string) : string :=
  match range with
  | Some r =>
      let startLine := elem_or_empty (groups r) 0 in
      let endLine := elem_or_empty (groups r) 1 in
      let ls := split_lines content in
      join nl (arr_slice ls
                 (if truthy startLine then Some (parseInt startLine - 1)%Z else None)
                 (if truthy endLine then Some (parseInt endLine) else None))
  | None => content
  end.

(** How far the [try] block of the include replacer gets before it
    recurses: it has loaded and cut the content, or it has thrown. *)
Inductive Attempt : Type :=
| Loaded (includePath content : string) (st : State)
| Failed (st : State).

Definition load_include (m1 : string) (region range : option MatchResult)
           (st : State) : Attempt :=
  let hasMeta := is_some region || is_some range in
  match includePath_of m1 with
  | None => Failed st
  | Some includePath =>
      if negb (existsSync E includePath) then Failed st
      else
        match readFileSync E includePath with
        | None => Failed st
        | Some content =>
            let '(content, st) := select_region includePath region content st in
            let content := select_range range content in
            if negb hasMeta && String.eqb (path_extname E includePath) ".md"
               && stripFrontmatter
            then
              match matter_content E content with
              | Some c => Loaded includePath c st
              | None => Failed st
              end
            else Loaded includePath content st
        end
  end.

(** The replacer of [processIncludes] (lines 162-223); [self] is the
    recursive call of line 217. *)
Definition include_replacer (self : string -> State -> option (string * State))
           (m : string) (g : list (option string)) (st : State)
  : option (string * State) :=
  let m1 := elem_or_empty g 0 in
  if String.length m1 =? 0 then Some (m, st)
  else
    let range := exec rangeRE m1 in
    let region := exec regionRE m1 in
    let m1 := include_target m1 in
    match load_include m1 region range st with
    | Loaded includePath content st => self content (push includePath st)
    | Failed st =>
        Some (m, warn (LogWarn ("[remark-include] Include file not found: " ++ m1)) st)
    end.

(** [processIncludes] (lines 155-224).  The recursion of the source is not
    bounded (an include cycle never returns); [fuel] bounds its depth here
    and [None] stands for a run that needs more. *)
Fixpoint processIncludes (fuel : nat) (content : string) (st : State)
  : option (string * State) :=
  match fuel with
  | 0 => None
  | S fuel' =>
      replace_pieces_opt (include_replacer (processIncludes fuel'))
                         (pieces includesRE content) st
  end.

(** *** The snippet resolver *)

Definition snippetPath_of (atPresent : bool) (tok : Token) : option string :=
  if atPresent then Some (path_join E srcDir (filepath tok))
  else
    match filePath with
    | Some fp => Some (path_resolve E (path_dirname E fp) (filepath tok))
    | None => None
    end.

(** Region selection of a snippet (lines 256-270): marker lines are dropped
    and the rest is dedented; without a region, or when it is not found,
    the content stays. *)
Definition snippet_region (tok : Token) (content : string) : string :=
  if truthy (region tok) then
    let regionName := str_slice (region tok) (Some 1%Z) None in
    let contentLines := split_nl content in
    match findRegion contentLines regionName with
    | Some regionData =>
        dedent
          (join nl
             (filter (fun l => negb (test (m_start (re regionData)) l
                                     || test (m_end (re regionData)) l))
                     (arr_slice contentLines
                                (Some (Z.of_nat (start regionData)))
                                (Some (Z.of_nat (end_ regionData))))))
    | None => content
    end
  else content.

(** The info string of the code block (lines 275-276). *)
Definition snippet_info (tok : Token) : string :=
  trim (js_or (lang tok) (extension tok)
        ++ js_and (lines tok) ("{" ++ lines tok ++ "}")
        ++ js_and (title tok) ("[" ++ title tok ++ "]")
        ++ js_and (attrs tok) (" " ++ attrs tok)).

Definition fenced (info content : string) : string :=
  "```" ++ info ++ nl ++ content ++ nl ++ "```".

(** The [try] block of the snippet replacer; [None] when it throws, which
    it can only do before it touches the state. *)
Definition load_snippet (atPresent : bool) (tok : Token) (st : State)
  : option (string * State) :=
  match snippetPath_of atPresent tok with
  | None => None
  | Some snippetPath =>
      if negb (existsSync E snippetPath) then None
      else
        match readFileSync E snippetPath with
        | None => None
        | Some raw =>
            let content := snippet_region tok (crlf_to_lf raw) in
            Some (fenced (snippet_info tok) content, push snippetPath st)
        end
  end.

Definition snippet_atPresent (rawPath : string) : bool := prefix "@" (trim rawPath).

Definition snippet_token (rawPath : string) : Token :=
  let cleanPath := trim rawPath in
  let pathToParse :=
    if snippet_atPresent rawPath then str_slice cleanPath (Some 1%Z) None
    else cleanPath in
  rawPathToToken pathToParse.

(** The replacer of [processSnippets] (lines 235-286). *)
Definition snippet_replacer (m : string) (g : list (option string)) (st : State)
  : string * State :=
  let rawPath := elem_or_empty g 0 in
  if String.length rawPath =? 0 then (m, st)
  else
    match load_snippet (snippet_atPresent rawPath) (snippet_token rawPath) st with
    | Some r => r
    | None =>
        (m, warn (LogWarn ("[remark-include] Snippet file not found: " ++ rawPath)) st)
    end.

Definition processSnippets (content : string) (st : State) : string * State :=
  replace_pieces snippet_replacer (pieces snippetRE content) st.

(** *** The visitor of [remarkInclude] *)

(** What the visitor does to the node it is called on (lines 297-336):
    [Some l] replaces the node by the nodes [l] in its parent. *)
Definition visitor (fuel : nat) (node : Node) (st : State)
  : option (option (list Node) * State) :=
  match node with
  | html value =>
      if test includesRE value then
        match processIncludes fuel value st with
        | Some (processedValue, st') =>
            Some (if negb (String.eqb processedValue value)
                  then Some (fromMarkdown E processedValue) else None, st')
        | None => None
        end
      else Some (None, st)
  | text value =>
      if test snippetRE value then
        let '(processedValue, st') := processSnippets value st in
        Some (if negb (String.eqb processedValue value)
              then Some [html processedValue] else None, st')
      else Some (None, st)
  | other => Some (None, st)
  end.

(** The calls [visit] makes, in order, on the nodes it reaches; they share
    one [includes] array.  Which nodes it reaches, also among those a
    replacement has just put into the tree, is decided by
    unist-util-visit and is an input here. *)
Fixpoint visit_all (fuel : nat) (visited : list Node) (st : State) : option State :=
  match visited with
  | [] => Some st
  | n :: t =>
      match visitor fuel n st with
      | Some (_, st') => visit_all fuel t st'
      | None => None
      end
  end.

(** [file.data.includes] after the plugin ran over a document whose
    traversal reached the nodes [visited]. *)
Definition remarkInclude (fuel : nat) (visited : list Node) : option (list string) :=
  match visit_all fuel visited {| includes := []; warnings := [] |} with
  | Some st => Some (includes st)
  | None => None
  end.

End Resolvers.

(** ** A small world for examples *)

Fixpoint lookup_file (files : list (string * string)) (p : string) : option string :=
  match files with
  | [] => None
  | (q, c) :: t => if String.eqb q p then Some c else lookup_file t p
  end.

Definition strip_dot_slash (p : string) : string :=
  if prefix "./" p then str_drop 2 p
  else if prefix "/" p then str_drop 1 p
  else p.

(** The text up to the last slash, as [path.dirname] gives for a plain
    absolute path. *)
Fixpoint dirname_simple (p : string) : string :=
  match p with
  | EmptyString => EmptyString
  | String c t =>
      match String.index 0 "/" t with
      | Some _ => String c (dirname_simple t)
      | None => EmptyString
      end
  end.

Fixpoint extname_simple (p : string) : string :=
  match p with
  | EmptyString => EmptyString
  | String c t =>
      match String.index 0 "." t with
      | Some _ => extname_simple t
      | None => if Ascii.eqb c "." then p else EmptyString
      end
  end.

Definition example_env (files : list (string * string)) : Env :=
  {| path_join := fun a b => (a ++ "/" ++ strip_dot_slash b)%string;
     path_resolve := fun a b => (a ++ "/" ++ strip_dot_slash b)%string;
     path_dirname := dirname_simple;
     path_extname := extname_simple;
     existsSync := fun p => is_some (lookup_file files p);
     readFileSync := lookup_file files;
     matter_content := Some;
     fromMarkdown := fun s => [html s] |}.

Definition empty_state : State := {| includes := []; warnings := [] |}.

(** * Properties *)

(** ** Strings *)

Lemma str_take_all (s : string) (n : nat) :
  String.length s <= n -> str_take n s = s.
Proof.
  unfold str_take. revert n.
  induction s as [|c t IH]; intros [|n] H; simpl in *; try reflexivity; try lia.
  f_equal. apply IH. lia.
Qed.

Lemma str_drop_length (n : nat) (s : string) :
  String.length (str_drop n s) = String.length s - n.
Proof.
  revert s. induction n as [|n IH]; intros [|c t]; simpl; auto.
Qed.

Lemma str_drop_all (s : string) (n : nat) :
  String.length s <= n -> str_drop n s = EmptyString.
Proof.
  revert n. induction s as [|c t IH]; intros [|n] H; simpl in *; auto; try lia.
  apply IH. lia.
Qed.

Lemma str_take_drop (n : nat) (s : string) :
  (str_take n s ++ str_drop n s)%string = s.
Proof.
  unfold str_take. revert s.
  induction n as [|n IH]; intros [|c t]; simpl; auto.
  f_equal. apply IH.
Qed.

Lemma clamp_index_nat (len n : nat) :
  clamp_index len (Z.of_nat n) = Nat.min n len.
Proof.
  unfold clamp_index.
  destruct (Z.ltb_spec (Z.of_nat n) 0); [lia|].
  now rewrite Nat2Z.id.
Qed.

(** [x.slice(n)] drops the first [n] code units. *)
Lemma str_slice_from (x : string) (n : nat) :
  str_slice x (Some (Z.of_nat n)) None = str_drop n x.
Proof.
  unfold str_slice, slice_from, slice_to. rewrite clamp_index_nat.
  destruct (Nat.le_gt_cases (String.length x) n) as [H|H].
  - rewrite Nat.min_r by lia. rewrite Nat.sub_diag.
    rewrite (str_drop_all x n H). rewrite str_drop_all by lia. reflexivity.
  - rewrite Nat.min_l by lia. apply str_take_all.
    rewrite str_drop_length. lia.
Qed.

(** ** Dedent *)

Definition is_blank (c : ascii) : bool := Ascii.eqb c SP || Ascii.eqb c TAB.

(** The number of spaces and tabs a line starts with. *)
Fixpoint leading_blanks (line : string) : nat :=
  match line with
  | String c t => if is_blank c then S (leading_blanks t) else 0
  | EmptyString => 0
  end.

(** A line without any code unit other than space and tab. *)
Fixpoint blank_line (line : string) : bool :=
  match line with
  | String c t => is_blank c && blank_line t
  | EmptyString => true
  end.

Lemma first_non_blank_spec (line : string) (k : nat) :
  first_non_blank line k =
  if blank_line line then None else Some (k + leading_blanks line).
Proof.
  revert k. induction line as [|c t IH]; intros k; simpl; auto.
  unfold is_blank.
  destruct (Ascii.eqb c SP); simpl.
  - rewrite IH. destruct (blank_line t); [reflexivity|f_equal; lia].
  - destruct (Ascii.eqb c TAB); simpl.
    + rewrite IH. destruct (blank_line t); [reflexivity|f_equal; lia].
    + f_equal. lia.
Qed.

Lemma indent_step_blank (acc : ext_nat) (l : string) :
  blank_line l = true -> indent_step acc l = acc.
Proof.
  intros H. unfold indent_step. now rewrite first_non_blank_spec, H.
Qed.

Lemma indent_step_non_blank (acc : ext_nat) (l : string) :
  blank_line l = false -> indent_step acc l = ext_min (leading_blanks l) acc.
Proof.
  intros H. unfold indent_step. now rewrite first_non_blank_spec, H.
Qed.

(** From a finite accumulator the fold stays finite, below the accumulator
    and below the indent of every line that is not blank, and it is
    either the accumulator or the indent of one of those lines. *)
Lemma fold_indent_fin (ls : list string) (a : nat) :
  exists n, fold_left indent_step ls (Fin a) = Fin n /\ n <= a /\
    Forall (fun l => blank_line l = false -> n <= leading_blanks l) ls /\
    (n = a \/ Exists (fun l => blank_line l = false /\ leading_blanks l = n) ls).
Proof.
  revert a. induction ls as [|l t IH]; intros a; simpl.
  - exists a. split; [reflexivity|]. split; [lia|]. split; [constructor|now left].
  - destruct (blank_line l) eqn:B.
    + rewrite indent_step_blank by assumption.
      destruct (IH a) as (n & Hf & Hle & Hall & Hex).
      exists n. split; [assumption|]. split; [assumption|]. split.
      * constructor; [congruence|assumption].
      * destruct Hex as [Hex|Hex]; [now left|right; now apply Exists_cons_tl].
    + rewrite indent_step_non_blank by assumption. simpl.
      destruct (IH (Nat.min (leading_blanks l) a)) as (n & Hf & Hle & Hall & Hex).
      exists n. split; [assumption|]. split; [lia|]. split.
      * constructor; [intros _; lia|assumption].
      * destruct Hex as [Hex|Hex]; [|right; now apply Exists_cons_tl].
        destruct (Nat.le_gt_cases (leading_blanks l) a).
        -- right. apply Exists_cons_hd. split; [assumption|lia].
        -- left. lia.
Qed.

Lemma fold_indent_inf (ls : list string) :
  (Forall (fun l => blank_line l = true) ls /\
   fold_left indent_step ls Infinity = Infinity) \/
  (exists n, fold_left indent_step ls Infinity = Fin n /\
     Forall (fun l => blank_line l = false -> n <= leading_blanks l) ls /\
     Exists (fun l => blank_line l = false /\ leading_blanks l = n) ls).
Proof.
  induction ls as [|l t IH]; simpl.
  - left. split; [constructor|reflexivity].
  - destruct (blank_line l) eqn:B.
    + rewrite indent_step_blank by assumption.
      destruct IH as [[Hall Hf]|(n & Hf & Hall & Hex)].
      * left. split; [constructor; assumption|assumption].
      * right. exists n. split; [assumption|]. split.
        -- constructor; [congruence|assumption].
        -- now apply Exists_cons_tl.
    + rewrite indent_step_non_blank by assumption. simpl.
      destruct (fold_indent_fin t (leading_blanks l)) as (n & Hf & Hle & Hall & Hex).
      right. exists n. split; [assumption|]. split.
      * constructor; [intros _; assumption|assumption].
      * destruct Hex as [->|Hex]; [apply Exists_cons_hd; now split|now apply Exists_cons_tl].
Qed.

(** The reading of the claim: every line takes part in the minimum, a
    line of blanks through its own length. *)
Definition dedent_every_line (text : string) : string :=
  let ls := split_nl text in
  if forallb blank_line ls then text
  else
    let n := fold_left (fun acc l => Nat.min acc (leading_blanks l))
                       ls (leading_blanks (hd EmptyString ls)) in
    join nl (map (str_drop n) ls).

Definition dedent_example : string :=
  "    a" ++ nl ++ "  " ++ nl ++ "    b".

(** C9, counterexample: the middle line holds two spaces only; the source
    skips it, so four columns are removed, where a minimum over every
    line removes two. *)
Lemma dedent_blank_line_counterexample :
  dedent dedent_example = ("a" ++ nl ++ nl ++ "b")%string /\
  dedent_every_line dedent_example = ("  a" ++ nl ++ nl ++ "  b")%string /\
  dedent dedent_example <> dedent_every_line dedent_example.
Proof.
  split; [reflexivity|]. split; [reflexivity|]. discriminate.
Qed.

(** C9, amended: the lines that hold nothing but spaces and tabs are
    skipped.  If every line is such a line the text is returned unchanged;
    otherwise the number [n] removed from the front of every line is the
    least count of leading spaces and tabs among the other lines. *)
Theorem dedent_min_over_non_blank_lines (text : string) :
  let ls := split_nl text in
  (Forall (fun l => blank_line l = true) ls /\ dedent text = text) \/
  (exists n,
     Exists (fun l => blank_line l = false /\ leading_blanks l = n) ls /\
     Forall (fun l => blank_line l = false -> n <= leading_blanks l) ls /\
     dedent text = join nl (map (str_drop n) ls)).
Proof.
  intros ls. unfold dedent. fold ls.
  destruct (fold_indent_inf ls) as [[Hall Hf]|(n & Hf & Hall & Hex)].
  - left. rewrite Hf. split; [assumption|reflexivity].
  - right. exists n. rewrite Hf. split; [assumption|]. split; [assumption|].
    f_equal. apply map_ext. intros x. apply str_slice_from.
Qed.

(** ** The region locator *)

Module RegionSpec.

(** The wording of the contract, line by line. *)

(** A start marker of dialect [r] that names the region. *)
Definition opens (r : Marker) (name line : string) : bool :=
  captures (m_start r) line name.

(** An end marker of dialect [r] with the region's name or with no name. *)
Definition closes (r : Marker) (name line : string) : bool :=
  captures (m_end r) line name || captures (m_end r) line EmptyString.

(** What a line after the opening marker does to the nesting counter. *)
Definition delta (r : Marker) (name line : string) : Z :=
  if opens r name line then 1%Z
  else if closes r name line then (-1)%Z
  else 0%Z.

Definition delta_sum (r : Marker) (name : string) (ls : list string) : Z :=
  fold_right (fun l acc => (delta r name l + acc)%Z) 0%Z ls.

(** The counter once the lines [s], ..., [j] have been read; it is 1 after
    the opening marker. *)
Definition counter_at (r : Marker) (name : string) (ls : list string)
           (s j : nat) : Z :=
  (1 + delta_sum r name (firstn (j + 1 - s) (skipn s ls)))%Z.

(** [r] is the first dialect of [markers] whose start marker names the
    region on [line]. *)
Definition first_dialect (name line : string) (r : Marker) : Prop :=
  exists before after,
    markers = before ++ r :: after /\
    opens r name line = true /\
    Forall (fun r' => opens r' name line = false) before.

Definition no_dialect (name line : string) : Prop :=
  Forall (fun r' => opens r' name line = false) markers.

(** Line [i] is the first line with a start marker naming the region, and
    [r] the first dialect that reads it so. *)
Definition first_opening (ls : list string) (name : string) (i : nat)
           (r : Marker) : Prop :=
  (exists l, nth_error ls i = Some l /\ first_dialect name l r) /\
  forall j l, j < i -> nth_error ls j = Some l -> no_dialect name l.

(** Line [e] is the first line from [s] on at which the counter is zero. *)
Definition closes_at (ls : list string) (name : string) (r : Marker)
           (s e : nat) : Prop :=
  s <= e < List.length ls /\
  counter_at r name ls s e = 0%Z /\
  forall j, s <= j < e -> counter_at r name ls s j <> 0%Z.

Definition located (ls : list string) (name : string) (d : RegionData) : Prop :=
  exists i,
    first_opening ls name i (re d) /\
    start d = i + 1 /\
    closes_at ls name (re d) (start d) (end_ d).

End RegionSpec.

Import RegionSpec.

Lemma find_first_dialect (f : Marker -> bool) (l : list Marker) (r : Marker) :
  find f l = Some r <->
  exists before after,
    l = before ++ r :: after /\ f r = true /\
    Forall (fun r' => f r' = false) before.
Proof.
  induction l as [|x t IH]; simpl.
  - split; [discriminate|]. intros (b & a & H & _). now destruct b.
  - destruct (f x) eqn:Fx.
    + split.
      * intros [= <-]. exists [], t. repeat split; auto.
      * intros (b & a & H & Hr & Hb). destruct b as [|y b]; simpl in H.
        -- now injection H as ->.
        -- injection H as -> _. inversion Hb; congruence.
    + rewrite IH. split.
      * intros (b & a & -> & Hr & Hb). exists (x :: b), a. repeat split; auto.
      * intros (b & a & H & Hr & Hb). destruct b as [|y b]; simpl in H.
        -- injection H as -> _. congruence.
        -- injection H as -> ->. exists b, a. inversion Hb. repeat split; auto.
Qed.

Lemma find_no_dialect (f : Marker -> bool) (l : list Marker) :
  find f l = None <-> Forall (fun r' => f r' = false) l.
Proof.
  induction l as [|x t IH]; simpl.
  - split; auto.
  - destruct (f x) eqn:Fx.
    + split; [discriminate|]. intros H. inversion H; congruence.
    + rewrite IH. split; intros H; [constructor; auto|now inversion H].
Qed.

Lemma find_start_spec (ls : list string) (name : string) (k : nat)
      (r : Marker) (s : nat) :
  find_start ls name k = Some (r, s) <->
  exists i, s = k + i + 1 /\ first_opening ls name i r.
Proof.
  revert k. induction ls as [|l t IH]; intros k; cbn [find_start].
  - split; [discriminate|].
    intros (i & _ & (x & Hx & _) & _). now destruct i.
  - destruct (find (fun r0 => captures (m_start r0) l name) markers) as [r0|] eqn:F.
    + split.
      * intros [= <- <-]. exists 0. split; [lia|]. split.
        -- exists l. split; [reflexivity|].
           now apply (find_first_dialect (fun r0 => captures (m_start r0) l name)).
        -- intros j x Hj. lia.
      * intros (i & -> & (x & Hx & Hd) & Hno). destruct i as [|i].
        -- simpl in Hx. injection Hx as <-.
           apply (find_first_dialect (fun r0 => captures (m_start r0) l name)) in Hd.
           rewrite F in Hd. injection Hd as ->. f_equal. f_equal. lia.
        -- exfalso. specialize (Hno 0 l (Nat.lt_0_succ i) eq_refl).
           apply (find_no_dialect (fun r0 => captures (m_start r0) l name)) in Hno.
           congruence.
    + rewrite IH. split.
      * intros (i & -> & (x & Hx & Hd) & Hno). exists (S i). split; [lia|]. split.
        -- exists x. split; assumption.
        -- intros [|j] y Hj Hy; simpl in Hy.
           ++ injection Hy as <-.
              now apply (find_no_dialect (fun r0 => captures (m_start r0) l name)).
           ++ apply (Hno j y); [lia|assumption].
      * intros (i & -> & (x & Hx & Hd) & Hno). destruct i as [|i].
        -- simpl in Hx. injection Hx as <-.
           apply (find_first_dialect (fun r0 => captures (m_start r0) l name)) in Hd.
           congruence.
        -- exists i. split; [lia|]. split.
           ++ exists x. split; assumption.
           ++ intros j y Hj Hy. apply (Hno (S j) y); [lia|assumption].
Qed.

Lemma find_start_none (ls : list string) (name : string) (k : nat) :
  find_start ls name k = None <->
  forall i r, ~ first_opening ls name i r.
Proof.
  split.
  - intros H i r Hf.
    assert (find_start ls name k = Some (r, k + i + 1)) as E
        by (apply find_start_spec; eauto).
    congruence.
  - intros H. destruct (find_start ls name k) as [[r s]|] eqn:E; [|reflexivity].
    apply find_start_spec in E. destruct E as (i & _ & Hf). now apply H in Hf.
Qed.

(** One turn of the second loop, for a counter that is at least 1. *)
Lemma find_end_step (r : Marker) (name l : string) (t : list string)
      (k : nat) (c : Z) :
  (1 <= c)%Z ->
  find_end r name (l :: t) k c =
  if (c + delta r name l =? 0)%Z then Some k
  else find_end r name t (k + 1) (c + delta r name l)%Z.
Proof.
  intros Hc. simpl. unfold delta, opens, closes.
  destruct (captures (m_start r) l name).
  - destruct (Z.eqb_spec (c + 1) 0); [lia|reflexivity].
  - destruct (captures (m_end r) l name || captures (m_end r) l "").
    + reflexivity.
    + rewrite Z.add_0_r. destruct (Z.eqb_spec c 0); [lia|reflexivity].
Qed.

Lemma delta_bounds (r : Marker) (name l : string) :
  (-1 <= delta r name l <= 1)%Z.
Proof.
  unfold delta. destruct (opens r name l); [lia|].
  destruct (closes r name l); lia.
Qed.

Lemma delta_sum_cons (r : Marker) (name l : string) (t : list string) :
  delta_sum r name (l :: t) = (delta r name l + delta_sum r name t)%Z.
Proof. reflexivity. Qed.

Lemma firstn_SS (l : string) (t : list string) (j : nat) :
  firstn (S j) (l :: t) = l :: firstn j t.
Proof. reflexivity. Qed.

Lemma find_end_spec (r : Marker) (name : string) (ls : list string) :
  forall (k : nat) (c : Z) (e : nat),
    (1 <= c)%Z ->
    (find_end r name ls k c = Some e <->
     exists j, e = k + j /\ j < List.length ls /\
       (c + delta_sum r name (firstn (S j) ls) = 0)%Z /\
       forall j', j' < j -> (c + delta_sum r name (firstn (S j') ls) <> 0)%Z).
Proof.
  induction ls as [|l t IH]; intros k c e Hc.
  - simpl. split; [discriminate|]. intros (j & _ & Hj & _). lia.
  - rewrite find_end_step by assumption.
    pose proof (delta_bounds r name l) as Hd.
    destruct (Z.eqb_spec (c + delta r name l) 0) as [Hz|Hz].
    + split.
      * intros [= <-]. exists 0. split; [lia|]. split; [simpl; lia|]. split.
        -- rewrite firstn_SS, delta_sum_cons. simpl. lia.
        -- intros j' Hj'. lia.
      * intros (j & -> & Hj & Hs & Hmin). destruct j as [|j]; [f_equal; lia|].
        exfalso. apply (Hmin 0); [lia|].
        rewrite firstn_SS, delta_sum_cons. simpl. lia.
    + rewrite IH by lia. split.
      * intros (j & -> & Hj & Hs & Hmin). exists (S j).
        split; [lia|]. split; [simpl; lia|]. split.
        -- rewrite firstn_SS, delta_sum_cons. lia.
        -- intros [|j'] Hj'.
           ++ rewrite firstn_SS, delta_sum_cons. simpl. lia.
           ++ rewrite firstn_SS, delta_sum_cons.
              assert (j' < j) as Hlt by lia. specialize (Hmin j' Hlt). lia.
      * intros (j & -> & Hj & Hs & Hmin). destruct j as [|j].
        -- exfalso. rewrite firstn_SS, delta_sum_cons in Hs. simpl in Hs. lia.
        -- exists j. split; [lia|]. split; [simpl in Hj; lia|]. split.
           ++ rewrite firstn_SS, delta_sum_cons in Hs. lia.
           ++ intros j' Hj'. assert (S j' < S j) as Hlt by lia.
              specialize (Hmin (S j') Hlt).
              rewrite firstn_SS, delta_sum_cons in Hmin. lia.
Qed.

Lemma find_end_closes_at (r : Marker) (name : string) (ls : list string)
      (s e : nat) :
  find_end r name (skipn s ls) s 1%Z = Some e <-> closes_at ls name r s e.
Proof.
  rewrite find_end_spec by lia. unfold closes_at, counter_at.
  rewrite length_skipn. split.
  - intros (j & -> & Hj & Hs & Hmin). split; [lia|]. split.
    + replace (s + j + 1 - s) with (S j) by lia. assumption.
    + intros j' Hj'. replace (j' + 1 - s) with (S (j' - s)) by lia.
      apply Hmin. lia.
  - intros (Hb & Hs & Hmin). exists (e - s). split; [lia|]. split; [lia|]. split.
    + replace (S (e - s)) with (e + 1 - s) by lia. assumption.
    + intros j' Hj'. specialize (Hmin (s + j')).
      replace (s + j' + 1 - s) with (S j') in Hmin by lia. apply Hmin. lia.
Qed.

Lemma first_opening_unique (ls : list string) (name : string)
      (i i' : nat) (r r' : Marker) :
  first_opening ls name i r -> first_opening ls name i' r' -> i = i' /\ r = r'.
Proof.
  intros H H'.
  assert (find_start ls name 0 = Some (r, 0 + i + 1)) as E
      by (apply find_start_spec; exists i; split; [reflexivity|assumption]).
  assert (find_start ls name 0 = Some (r', 0 + i' + 1)) as E'
      by (apply find_start_spec; exists i'; split; [reflexivity|assumption]).
  rewrite E in E'. injection E' as -> Hi. split; [lia|reflexivity].
Qed.

Lemma findRegion_some (ls : list string) (name : string) (d : RegionData) :
  findRegion ls name = Some d <-> located ls name d.
Proof.
  destruct d as [r s e]. unfold findRegion, located. cbn [re start end_].
  destruct (find_start ls name 0) as [[r0 s0]|] eqn:Fs.
  - apply find_start_spec in Fs. destruct Fs as (i0 & Hs0 & Hop0).
    destruct (find_end r0 name (skipn s0 ls) s0 1%Z) as [e0|] eqn:Fe.
    + apply find_end_closes_at in Fe. split.
      * intros [= <- <- <-]. exists i0.
        split; [assumption|]. split; [lia|assumption].
      * intros (i & Hop & -> & Hcl).
        destruct (first_opening_unique _ _ _ _ _ _ Hop0 Hop) as [<- <-].
        replace s0 with (i0 + 1) in * by lia.
        apply find_end_closes_at in Fe, Hcl. rewrite Fe in Hcl.
        now injection Hcl as ->.
    + split; [discriminate|].
      intros (i & Hop & -> & Hcl).
      destruct (first_opening_unique _ _ _ _ _ _ Hop0 Hop) as [<- <-].
      replace s0 with (i0 + 1) in * by lia.
      apply find_end_closes_at in Hcl. congruence.
  - split; [discriminate|].
    intros (i & Hop & _). apply (find_start_none ls name 0) in Hop; tauto.
Qed.

Lemma findRegion_bounds (ls : list string) (name : string) (d : RegionData) :
  findRegion ls name = Some d -> start d <= end_ d < List.length ls.
Proof.
  intros H. apply findRegion_some in H. destruct H as (i & _ & _ & Hb & _).
  exact Hb.
Qed.

(** C5: [findRegion] returns exactly the region the contract describes:
    the start index is one past the first line on which the start marker
    of some dialect captures the region name (the first such dialect is
    kept); from there a start marker of that dialect with the same name
    adds one to a counter that begins at 1, an end marker of that dialect
    with the same name or with an empty name takes one off, and the end
    index is the first line at which the counter is zero.  The result is
    null exactly when no such pair of indices exists. *)
Theorem findRegion_locates (ls : list string) (name : string) :
  (forall d, findRegion ls name = Some d <-> located ls name d) /\
  (findRegion ls name = None <-> forall d, ~ located ls name d).
Proof.
  split; [intros d; apply findRegion_some|]. split.
  - intros Hn d Hd. apply findRegion_some in Hd. congruence.
  - intros Hn. destruct (findRegion ls name) as [d|] eqn:F; [|reflexivity].
    exfalso. apply (Hn d). apply findRegion_some. exact F.
Qed.

(** The locator on small files: a nested region of the same name, an end
    marker without a name, and a region that is never closed. *)
Example findRegion_nested :
  option_map (fun d => (start d, end_ d))
    (findRegion ["// #region a"; "x"; "// #region a"; "y"; "// #endregion a";
                 "z"; "// #endregion a"; "w"] "a")
  = Some (1, 6).
Proof. vm_compute. reflexivity. Qed.

Example findRegion_unnamed_end :
  option_map (fun d => (start d, end_ d))
    (findRegion ["before"; "# region b"; "x"; "# endregion"; "after"] "b")
  = Some (2, 3).
Proof. vm_compute. reflexivity. Qed.

Example findRegion_unclosed :
  option_map (fun d => (start d, end_ d))
    (findRegion ["/* #region c */"; "x"; "/* #endregion d */"] "c")
  = None.
Proof. vm_compute. reflexivity. Qed.

(** ** Running the patterns of the include meta *)

Fixpoint str_all (p : ascii -> bool) (s : string) : bool :=
  match s with
  | String c t => p c && str_all p t
  | EmptyString => true
  end.

(** The code unit before the position once [s] has been read. *)
Fixpoint last_char (pr : option ascii) (s : string) : option ascii :=
  match s with
  | String c t => last_char (Some c) t
  | EmptyString => pr
  end.

Definition first_char (s : string) : option ascii :=
  match s with String c _ => Some c | EmptyString => None end.

Lemma str_length_app (a b : string) :
  String.length (a ++ b) = String.length a + String.length b.
Proof. induction a as [|c a IH]; simpl; auto. Qed.

Lemma str_app_assoc (a b c : string) : ((a ++ b) ++ c = a ++ (b ++ c))%string.
Proof. induction a as [|x a IH]; simpl; [reflexivity|now rewrite IH]. Qed.

Lemma str_app_empty_r (a : string) : (a ++ "")%string = a.
Proof. induction a as [|x a IH]; simpl; [reflexivity|now rewrite IH]. Qed.

Lemma str_take_app (a b : string) : str_take (String.length a) (a ++ b) = a.
Proof.
  unfold str_take. induction a as [|c a IH]; simpl.
  - now destruct b.
  - now rewrite IH.
Qed.

Lemma str_drop_app (a b : string) : str_drop (String.length a) (a ++ b) = b.
Proof. induction a as [|c a IH]; simpl; auto. Qed.

Section StarRun.

Variable body : (mstate -> option mstate) -> mstate -> option mstate.
Variable p : ascii -> bool.

Hypothesis body_reads : forall kk pr c t cs,
  p c = true ->
  body kk {| prev := pr; rest := String c t; caps := cs |} =
  kk {| prev := Some c; rest := t; caps := cs |}.

Hypothesis body_stops : forall kk pr t cs,
  opt_test p (first_char t) = false ->
  body kk {| prev := pr; rest := t; caps := cs |} = None.

(** A greedy loop whose body reads one code unit of the class [p] reads a
    run of the class to its end when the continuation accepts there. *)
Lemma star_loop_run (k : mstate -> option mstate) (res : mstate) (t : string)
      (cs : list (option string)) :
  opt_test p (first_char t) = false ->
  forall (run : string) (n : nat) (pr : option ascii),
    str_all p run = true ->
    String.length run < n ->
    k {| prev := last_char pr run; rest := t; caps := cs |} = Some res ->
    star_loop body true k n {| prev := pr; rest := run ++ t; caps := cs |}
    = Some res.
Proof.
  intros Ht run. induction run as [|c run IH]; intros n pr Hall Hn Hk.
  - destruct n as [|n]; [simpl in Hn; lia|].
    cbn [star_loop append]. rewrite body_stops by assumption. exact Hk.
  - destruct n as [|n]; [simpl in Hn; lia|].
    simpl in Hall. apply andb_prop in Hall as [Hc Hall].
    cbn [star_loop append]. rewrite body_reads by assumption.
    unfold progressed. cbn [rest String.length].
    rewrite (proj2 (Nat.ltb_lt _ _)) by lia.
    rewrite (IH n (Some c)); auto. simpl in Hn. lia.
Qed.

End StarRun.

Lemma star_class_run (ml : bool) (p : ascii -> bool)
      (k : mstate -> option mstate) (res : mstate) (run t : string)
      (pr : option ascii) (cs : list (option string)) :
  opt_test p (first_char t) = false ->
  str_all p run = true ->
  k {| prev := last_char pr run; rest := t; caps := cs |} = Some res ->
  rmatch ml (Star true (Cls p)) k {| prev := pr; rest := run ++ t; caps := cs |}
  = Some res.
Proof.
  intros Ht Hall Hk. cbn [rmatch].
  apply (star_loop_run (rmatch ml (Cls p)) p); auto.
  - intros kk pr' c t' cs' Hc. simpl. now rewrite Hc.
  - intros kk pr' t' cs' Hs. destruct t' as [|d t']; simpl in *; [reflexivity|].
    now rewrite Hs.
  - cbn [rest]. rewrite str_length_app. lia.
Qed.

(** A search moves over code units at which no match can start. *)
Lemma search_skip (R : RegExp) (c0 : ascii)
      (Hfirst : forall pr d t, Ascii.eqb c0 d = false ->
                               match_at R pr (String d t) = None) :
  forall (p : string) (pr : option ascii) (t : string) (i : nat),
    str_all (fun d => negb (Ascii.eqb c0 d)) p = true ->
    search R pr (p ++ t) i = search R (last_char pr p) t (i + String.length p).
Proof.
  induction p as [|d p IH]; intros pr t i Hall.
  - simpl. f_equal. lia.
  - simpl in Hall. apply andb_prop in Hall as [Hd Hall].
    apply negb_true_iff in Hd.
    cbn [append search]. rewrite (Hfirst pr d (p ++ t)%string Hd).
    rewrite IH by assumption. simpl. f_equal. lia.
Qed.

Lemma search_none (R : RegExp) (c0 : ascii)
      (Hfirst : forall pr d t, Ascii.eqb c0 d = false ->
                               match_at R pr (String d t) = None)
      (Hempty : forall pr, match_at R pr EmptyString = None) :
  forall (p : string),
    str_all (fun d => negb (Ascii.eqb c0 d)) p = true ->
    exec R p = None.
Proof.
  intros p Hall. unfold exec.
  rewrite <- (str_app_empty_r p).
  rewrite (search_skip R c0 Hfirst p None EmptyString 0 Hall).
  simpl. now rewrite Hempty.
Qed.

#[local] Arguments Ascii.eqb : simpl never.

Lemma regionRE_first (pr : option ascii) (d : ascii) (t : string) :
  Ascii.eqb "#" d = false -> match_at regionRE pr (String d t) = None.
Proof. intros H. unfold match_at. simpl. now rewrite H. Qed.

Lemma rangeRE_first (pr : option ascii) (d : ascii) (t : string) :
  Ascii.eqb "{" d = false -> match_at rangeRE pr (String d t) = None.
Proof. intros H. unfold match_at. simpl. now rewrite H. Qed.

Definition not_hash (d : ascii) : bool := negb (Ascii.eqb "#" d).
Definition not_brace (d : ascii) : bool := negb (Ascii.eqb "{" d).

(** [regionRE] finds nothing in a text without a hash. *)
Lemma regionRE_none (s : string) :
  str_all not_hash s = true -> exec regionRE s = None.
Proof.
  apply (search_none regionRE "#" regionRE_first). intros pr. reflexivity.
Qed.

(** [rangeRE] finds nothing in a text without an opening brace. *)
Lemma rangeRE_none (s : string) :
  str_all not_brace s = true -> exec rangeRE s = None.
Proof.
  apply (search_none rangeRE "{" rangeRE_first). intros pr. reflexivity.
Qed.

Lemma str_all_app (p : ascii -> bool) (a b : string) :
  str_all p (a ++ b) = str_all p a && str_all p b.
Proof.
  induction a as [|c a IH]; simpl; [reflexivity|].
  now rewrite IH, andb_assoc.
Qed.

Lemma length_app_sub (a b : string) :
  String.length (a ++ b) - String.length b = String.length a.
Proof. rewrite str_length_app. lia. Qed.

(** *** What a capture can hold *)

(** The code units a pattern can consume. *)
Fixpoint chars_of (r : regex) (c : ascii) : bool :=
  match r with
  | Eps | Bol | Eol | Wb => false
  | Chr d => Ascii.eqb d c
  | Cls p => p c
  | Seq a b | Alt a b => chars_of a c || chars_of b c
  | Star _ a | Opt _ a | Grp _ a => chars_of a c
  end.

(** [P i] bounds the code units group [i + 1] can consume. *)
Fixpoint groups_ok (P : nat -> ascii -> bool) (r : regex) : Prop :=
  match r with
  | Seq a b | Alt a b => groups_ok P a /\ groups_ok P b
  | Star _ a | Opt _ a => groups_ok P a
  | Grp n a => (forall c, chars_of a c = true -> P (n - 1) c = true) /\ groups_ok P a
  | _ => True
  end.

Definition caps_ok (P : nat -> ascii -> bool) (cs : list (option string)) : Prop :=
  forall i v, nth_error cs i = Some (Some v) -> str_all (P i) v = true.

Lemma set_cap_ok (cs : list (option string)) :
  forall (P : nat -> ascii -> bool) (n : nat) (v : string),
    caps_ok P cs -> str_all (P n) v = true -> caps_ok P (set_cap n v cs).
Proof.
  induction cs as [|x t IH]; intros P n v Hcs Hv i w H.
  - destruct n; simpl in H; now destruct i.
  - destruct n as [|n]; simpl in H.
    + destruct i as [|i]; simpl in H.
      * now injection H as <-.
      * apply (Hcs (S i) w). exact H.
    + destruct i as [|i]; simpl in H.
      * apply (Hcs 0 w). exact H.
      * apply (IH (fun j => P (S j)) n v); auto.
        intros j u Hj. apply (Hcs (S j) u). exact Hj.
Qed.

Lemma caps_ok_repeat (P : nat -> ascii -> bool) (n : nat) :
  caps_ok P (repeat None n).
Proof.
  intros i v H. apply nth_error_In in H. apply repeat_spec in H. discriminate.
Qed.

(** The least number of code units a pattern consumes. *)
Fixpoint min_len (r : regex) : nat :=
  match r with
  | Eps | Bol | Eol | Wb => 0
  | Chr _ | Cls _ => 1
  | Seq a b => min_len a + min_len b
  | Alt a b => Nat.min (min_len a) (min_len b)
  | Star _ _ | Opt _ _ => 0
  | Grp _ a => min_len a
  end.

(** What a successful run of the matcher tells: the pattern consumed a
    word [w] of at least [n] code units it can consume, the continuation
    accepted at the state after [w], and the captures respect the bounds. *)
Definition sound_step (P : nat -> ascii -> bool) (Q : ascii -> bool) (n : nat)
           (step : (mstate -> option mstate) -> mstate -> option mstate) : Prop :=
  forall k s res,
    step k s = Some res -> caps_ok P (caps s) ->
    exists s' w,
      rest s = (w ++ rest s')%string /\ str_all Q w = true /\
      n <= String.length w /\
      caps_ok P (caps s') /\ k s' = Some res.

Lemma sound_here (P : nat -> ascii -> bool) (Q : ascii -> bool)
      (k : mstate -> option mstate) (s res : mstate) :
  k s = Some res -> caps_ok P (caps s) ->
  exists s' w,
    rest s = (w ++ rest s')%string /\ str_all Q w = true /\
    0 <= String.length w /\
    caps_ok P (caps s') /\ k s' = Some res.
Proof.
  intros Hk Hc. exists s, EmptyString.
  split; [reflexivity|]. split; [reflexivity|]. split; [apply Nat.le_0_l|].
  split; assumption.
Qed.

Lemma star_loop_sound (P : nat -> ascii -> bool) (Q : ascii -> bool) (nb : nat)
      body (g : bool) :
  sound_step P Q nb body ->
  forall n, sound_step P Q 0 (fun k => star_loop body g k n).
Proof.
  intros Hbody n. induction n as [|n IH]; intros k s res H Hc.
  - now apply sound_here.
  - cbn [star_loop] in H.
    assert (forall r0,
               body (fun s' => if progressed s s' then star_loop body g k n s'
                               else None) s = Some r0 ->
               exists s' w,
                 rest s = (w ++ rest s')%string /\ str_all Q w = true /\
                 0 <= String.length w /\
                 caps_ok P (caps s') /\ k s' = Some r0) as Hiter.
    { intros r0 Hb.
      destruct (Hbody _ _ _ Hb Hc) as (s1 & w1 & Hr1 & Hw1 & _ & Hc1 & Hk1).
      destruct (progressed s s1); [|discriminate].
      destruct (IH _ _ _ Hk1 Hc1) as (s2 & w2 & Hr2 & Hw2 & _ & Hc2 & Hk2).
      exists s2, (w1 ++ w2)%string.
      split; [now rewrite Hr1, Hr2, str_app_assoc|].
      split; [now rewrite str_all_app, Hw1, Hw2|].
      split; [apply Nat.le_0_l|]. split; assumption. }
    destruct g.
    + destruct (body _ s) as [r0|] eqn:Hb.
      * injection H as <-. now apply Hiter.
      * now apply sound_here.
    + destruct (k s) as [r0|] eqn:Hk.
      * injection H as <-. now apply sound_here.
      * now apply Hiter.
Qed.

Lemma str_all_weaken (p q : ascii -> bool) (s : string) :
  (forall c, p c = true -> q c = true) ->
  str_all p s = true -> str_all q s = true.
Proof.
  intros H. induction s as [|c s IH]; simpl; [reflexivity|].
  intros Hs. apply andb_prop in Hs as [Hc Hs]. now rewrite (H c Hc), IH.
Qed.

Lemma rmatch_sound (P : nat -> ascii -> bool) (ml : bool) (r : regex) :
  groups_ok P r -> sound_step P (chars_of r) (min_len r) (rmatch ml r).
Proof.
  induction r as [|c|p|a IHa b IHb|a IHa b IHb|g a IHa|g a IHa|n a IHa| | |];
    intros Hg k s res H Hc; cbn [rmatch] in H; cbn [min_len].
  - now apply sound_here.
  - destruct s as [pr [|d t] cs]; cbn [rest] in H; [discriminate|].
    destruct (Ascii.eqb c d) eqn:Hcd; [|discriminate].
    exists (step_char d t {| prev := pr; rest := String d t; caps := cs |}),
      (String d EmptyString).
    cbn [rest step_char caps str_all chars_of append String.length]. rewrite Hcd.
    repeat split; auto.
  - destruct s as [pr [|d t] cs]; cbn [rest] in H; [discriminate|].
    destruct (p d) eqn:Hpd; [|discriminate].
    exists (step_char d t {| prev := pr; rest := String d t; caps := cs |}),
      (String d EmptyString).
    cbn [rest step_char caps str_all chars_of append String.length]. rewrite Hpd.
    repeat split; auto.
  - destruct Hg as [Hga Hgb].
    destruct (IHa Hga _ _ _ H Hc) as (s1 & w1 & Hr1 & Hw1 & Hl1 & Hc1 & Hk1).
    destruct (IHb Hgb _ _ _ Hk1 Hc1) as (s2 & w2 & Hr2 & Hw2 & Hl2 & Hc2 & Hk2).
    exists s2, (w1 ++ w2)%string.
    split; [now rewrite Hr1, Hr2, str_app_assoc|].
    split; [|split; [rewrite str_length_app; lia|split; assumption]].
    rewrite str_all_app. cbn [chars_of].
    rewrite (str_all_weaken (chars_of a) _ w1), (str_all_weaken (chars_of b) _ w2);
      auto; intros c ->; auto using orb_true_r.
  - destruct Hg as [Hga Hgb].
    destruct (rmatch ml a k s) as [r0|] eqn:Ha.
    + injection H as <-.
      destruct (IHa Hga _ _ _ Ha Hc) as (s1 & w1 & Hr1 & Hw1 & Hl1 & Hc1 & Hk1).
      exists s1, w1. split; [assumption|].
      split; [|split; [lia|split; assumption]].
      cbn [chars_of]. apply (str_all_weaken (chars_of a)); auto.
      intros c ->. reflexivity.
    + destruct (IHb Hgb _ _ _ H Hc) as (s1 & w1 & Hr1 & Hw1 & Hl1 & Hc1 & Hk1).
      exists s1, w1. split; [assumption|].
      split; [|split; [lia|split; assumption]].
      cbn [chars_of]. apply (str_all_weaken (chars_of b)); auto.
      intros c ->. apply orb_true_r.
  - exact (star_loop_sound P (chars_of a) (min_len a) (rmatch ml a) g (IHa Hg)
             _ _ _ _ H Hc).
  - assert (forall r0,
               rmatch ml a (fun s' => if progressed s s' then k s' else None) s
               = Some r0 ->
               exists s' w,
                 rest s = (w ++ rest s')%string /\ str_all (chars_of a) w = true /\
                 0 <= String.length w /\
                 caps_ok P (caps s') /\ k s' = Some r0) as Hiter.
    { intros r0 Hb.
      destruct (IHa Hg _ _ _ Hb Hc) as (s1 & w1 & Hr1 & Hw1 & _ & Hc1 & Hk1).
      destruct (progressed s s1); [|discriminate].
      exists s1, w1. split; [assumption|]. split; [assumption|].
      split; [apply Nat.le_0_l|]. split; assumption. }
    destruct g.
    + destruct (rmatch ml a _ s) as [r0|] eqn:Hb.
      * injection H as <-. now apply Hiter.
      * now apply sound_here.
    + destruct (k s) as [r0|] eqn:Hk.
      * injection H as <-. now apply sound_here.
      * now apply Hiter.
  - destruct Hg as [Hn Hga].
    destruct (IHa Hga _ _ _ H Hc) as (s1 & w1 & Hr1 & Hw1 & Hl1 & Hc1 & Hk1).
    exists {| prev := prev s1; rest := rest s1;
              caps := set_cap (n - 1)
                        (str_take (String.length (rest s) - String.length (rest s1))
                                  (rest s))
                        (caps s1) |}, w1.
    cbn [rest caps]. split; [exact Hr1|]. split; [exact Hw1|].
    split; [exact Hl1|]. split; [|exact Hk1].
    apply set_cap_ok; [exact Hc1|].
    rewrite Hr1, length_app_sub, str_take_app.
    apply (str_all_weaken (chars_of a)); auto.
  - destruct (at_bol ml s); [|discriminate]. now apply sound_here.
  - destruct (at_eol ml s); [|discriminate]. now apply sound_here.
  - destruct (at_wb s); [|discriminate]. now apply sound_here.
Qed.

(** A match at a position: its text is the word consumed, its groups
    respect the bounds. *)
Lemma match_at_sound (P : nat -> ascii -> bool) (R : RegExp)
      (p : option ascii) (s : string) (l : nat) (g : list (option string)) :
  groups_ok P (pattern R) ->
  match_at R p s = Some (l, g) ->
  caps_ok P g /\ min_len (pattern R) <= String.length (str_take l s).
Proof.
  intros Hg Hm. unfold match_at in Hm.
  destruct (rmatch _ _ _ _) as [s'|] eqn:Hr; [|discriminate].
  injection Hm as <- <-.
  destruct (rmatch_sound P _ _ Hg _ _ _ Hr (caps_ok_repeat P _))
    as (s1 & w & Hw & _ & Hl & Hc & [= <-]).
  cbn [rest] in Hw. split; [exact Hc|].
  rewrite Hw, length_app_sub, str_take_app. exact Hl.
Qed.

Lemma exec_sound (P : nat -> ascii -> bool) (R : RegExp) (s : string)
      (m : MatchResult) :
  groups_ok P (pattern R) -> exec R s = Some m ->
  caps_ok P (groups m) /\ min_len (pattern R) <= String.length (matched m).
Proof.
  intros Hg. unfold exec. generalize 0 at 1. generalize (@None ascii).
  induction s as [|c t IH]; intros p i H; cbn [search] in H.
  - destruct (match_at R p EmptyString) as [[l g]|] eqn:Hm; [|discriminate].
    injection H as <-. cbn [groups matched].
    exact (match_at_sound P R p _ l g Hg Hm).
  - destruct (match_at R p (String c t)) as [[l g]|] eqn:Hm.
    + injection H as <-. cbn [groups matched].
      exact (match_at_sound P R p _ l g Hg Hm).
    + eapply IH. exact H.
Qed.

(** The groups [exec] returns respect the bounds of the pattern. *)
Lemma exec_groups_ok (P : nat -> ascii -> bool) (R : RegExp) (s : string)
      (m : MatchResult) :
  groups_ok P (pattern R) -> exec R s = Some m -> caps_ok P (groups m).
Proof. intros Hg Hm. exact (proj1 (exec_sound P R s m Hg Hm)). Qed.

Lemma groups_ok_top (r : regex) : groups_ok (fun _ _ => true) r.
Proof.
  induction r; cbn [groups_ok]; auto.
Qed.

(** A match is at least as long as the least word of the pattern. *)
Lemma exec_matched_length (R : RegExp) (s : string) (m : MatchResult) :
  exec R s = Some m -> min_len (pattern R) <= String.length (matched m).
Proof.
  intros Hm. exact (proj2 (exec_sound _ R s m (groups_ok_top _) Hm)).
Qed.

(** The equations of the matcher, one per construct. *)
Lemma rmatch_Seq ml a b k s :
  rmatch ml (Seq a b) k s = rmatch ml a (rmatch ml b k) s.
Proof. reflexivity. Qed.

Lemma rmatch_Chr ml c k pr d t cs :
  rmatch ml (Chr c) k {| prev := pr; rest := String d t; caps := cs |} =
  if Ascii.eqb c d then k {| prev := Some d; rest := t; caps := cs |} else None.
Proof. reflexivity. Qed.

Lemma rmatch_Cls ml p k pr d t cs :
  rmatch ml (Cls p) k {| prev := pr; rest := String d t; caps := cs |} =
  if p d then k {| prev := Some d; rest := t; caps := cs |} else None.
Proof. reflexivity. Qed.

Lemma rmatch_Grp ml n a k s :
  rmatch ml (Grp n a) k s =
  rmatch ml a
    (fun s' =>
       k {| prev := prev s'; rest := rest s';
            caps := set_cap (n - 1)
                      (str_take (String.length (rest s) - String.length (rest s'))
                                (rest s))
                      (caps s') |}) s.
Proof. reflexivity. Qed.

Lemma rmatch_Eol_end ml k pr cs :
  rmatch ml Eol k {| prev := pr; rest := EmptyString; caps := cs |} =
  k {| prev := pr; rest := EmptyString; caps := cs |}.
Proof. reflexivity. Qed.

#[local] Arguments rmatch : simpl never.

(** [regionRE] on a payload whose first hash opens a token that runs to
    the end or to a brace or blank. *)
Lemma regionRE_exec (p name t : string) :
  str_all not_hash p = true ->
  name <> EmptyString ->
  str_all is_region_char name = true ->
  opt_test is_region_char (first_char t) = false ->
  exec regionRE (p ++ "#" ++ name ++ t) =
  Some {| index := String.length p;
          matched := "#" ++ name;
          groups := [Some ("#" ++ name)%string] |}.
Proof.
  intros Hp Hne Hname Ht. unfold exec.
  rewrite (search_skip regionRE "#" regionRE_first p None _ 0 Hp).
  destruct name as [|c name]; [congruence|].
  simpl in Hname. apply andb_prop in Hname as [Hc Hname].
  cbn [append search]. unfold match_at, regionRE, Plus.
  cbn [pattern multiline ngroups repeat].
  rewrite rmatch_Grp, rmatch_Seq, rmatch_Chr, Ascii.eqb_refl.
  rewrite rmatch_Seq, rmatch_Cls, Hc.
  erewrite star_class_run; [|exact Ht|exact Hname|reflexivity].
  cbn [rest caps set_cap Nat.sub].
  change (String "#" (String c (name ++ t))) with (("#" ++ String c name) ++ t)%string.
  rewrite length_app_sub, str_take_app. reflexivity.
Qed.

(** [rangeRE] on a payload that ends in a range and has no other brace. *)
Lemma rangeRE_exec (p a b : string) :
  str_all not_brace p = true ->
  str_all is_digit a = true ->
  str_all is_digit b = true ->
  exec rangeRE (p ++ "{" ++ a ++ "," ++ b ++ "}") =
  Some {| index := String.length p;
          matched := "{" ++ a ++ "," ++ b ++ "}";
          groups := [Some a; Some b] |}.
Proof.
  intros Hp Ha Hb. unfold exec.
  rewrite (search_skip rangeRE "{" rangeRE_first p None _ 0 Hp).
  cbn [append search]. unfold match_at, rangeRE.
  cbn [pattern multiline ngroups repeat Seqs].
  rewrite rmatch_Seq, rmatch_Chr, Ascii.eqb_refl.
  rewrite rmatch_Seq, rmatch_Grp.
  erewrite star_class_run; [|reflexivity|exact Ha|].
  2:{ cbn [rest caps prev set_cap Nat.sub].
      rewrite rmatch_Seq.
      change ("," ++ b ++ "}")%string with (String "," (b ++ "}")).
      rewrite rmatch_Chr, Ascii.eqb_refl.
      rewrite rmatch_Seq, rmatch_Grp.
      erewrite star_class_run; [|reflexivity|exact Hb|].
      2:{ cbn [rest caps prev set_cap Nat.sub].
          rewrite rmatch_Seq, rmatch_Chr, Ascii.eqb_refl.
          rewrite rmatch_Eol_end. reflexivity. }
      reflexivity. }
  cbn [rest caps String.length Nat.sub].
  change (String "," (b ++ "}")) with ("," ++ b ++ "}")%string.
  rewrite !length_app_sub, !str_take_app.
  rewrite Nat.add_0_l, str_take_all by (simpl; lia). reflexivity.
Qed.

(** ** The include resolver *)

Lemma str_slice_cut_tail (s : string) (n : nat) :
  0 < n ->
  str_slice s (Some 0%Z) (Some (- Z.of_nat n)%Z) = str_take (String.length s - n) s.
Proof.
  intros Hn. unfold str_slice, slice_from, slice_to, clamp_index.
  destruct (Z.ltb_spec (- Z.of_nat n) 0) as [_|H]; [|lia].
  cbn [Z.ltb Z.compare Z.to_nat Nat.min str_drop].
  rewrite Nat.sub_0_r. f_equal. lia.
Qed.

Lemma cut_tail_app (p x : string) :
  0 < String.length x ->
  str_slice (p ++ x) (Some 0%Z) (Some (- Z.of_nat (String.length x))%Z) = p.
Proof.
  intros H. rewrite str_slice_cut_tail by assumption.
  rewrite length_app_sub. apply str_take_app.
Qed.

Lemma region_char_not_brace (c : ascii) :
  is_region_char c = true -> not_brace c = true.
Proof.
  unfold is_region_char, not_brace. rewrite negb_orb.
  intros H. apply andb_prop in H as [_ H]. now rewrite Ascii.eqb_sym.
Qed.

Lemma digit_not_hash (c : ascii) : is_digit c = true -> not_hash c = true.
Proof.
  unfold not_hash. destruct (Ascii.eqb_spec "#" c) as [<-|]; [discriminate|reflexivity].
Qed.

(** The payload of an include directive: a path without hash or brace,
    then an optional region token, then an optional range. *)
Definition region_token (name : string) : Prop :=
  name <> EmptyString /\ str_all is_region_char name = true.

Definition plain_path (path : string) : Prop :=
  str_all not_hash path = true /\ str_all not_brace path = true.

Definition range_text (a b : string) : string := "{" ++ a ++ "," ++ b ++ "}".

Lemma region_before_range (path name a b : string) :
  plain_path path -> region_token name ->
  str_all is_digit a = true -> str_all is_digit b = true ->
  exec regionRE (path ++ "#" ++ name ++ range_text a b) =
    Some {| index := String.length path; matched := "#" ++ name;
            groups := [Some ("#" ++ name)%string] |} /\
  exec rangeRE (path ++ "#" ++ name ++ range_text a b) =
    Some {| index := String.length (path ++ "#" ++ name);
            matched := range_text a b; groups := [Some a; Some b] |}.
Proof.
  intros [Hh Hb] [Hne Hn] Ha Hbd. split.
  - apply regionRE_exec; auto.
  - replace (path ++ "#" ++ name ++ range_text a b)%string
      with ((path ++ "#" ++ name) ++ range_text a b)%string
      by now rewrite !str_app_assoc.
    apply rangeRE_exec; auto.
    rewrite !str_all_app, Hb. simpl.
    now rewrite (str_all_weaken _ _ name region_char_not_brace Hn).
Qed.

Lemma region_alone (path name : string) :
  plain_path path -> region_token name ->
  exec regionRE (path ++ "#" ++ name) =
    Some {| index := String.length path; matched := "#" ++ name;
            groups := [Some ("#" ++ name)%string] |} /\
  exec rangeRE (path ++ "#" ++ name) = None.
Proof.
  intros [Hh Hb] [Hne Hn]. split.
  - rewrite <- (str_app_empty_r name) at 1. apply regionRE_exec; auto.
  - apply rangeRE_none. rewrite !str_all_app, Hb. simpl.
    now rewrite (str_all_weaken _ _ name region_char_not_brace Hn).
Qed.

Lemma range_alone (path a b : string) :
  plain_path path ->
  str_all is_digit a = true -> str_all is_digit b = true ->
  exec regionRE (path ++ range_text a b) = None /\
  exec rangeRE (path ++ range_text a b) =
    Some {| index := String.length path;
            matched := range_text a b; groups := [Some a; Some b] |}.
Proof.
  intros [Hh Hb] Ha Hbd. split.
  - apply regionRE_none. unfold range_text. rewrite !str_all_app, Hh. simpl.
    rewrite (str_all_weaken _ _ a digit_not_hash Ha).
    now rewrite (str_all_weaken _ _ b digit_not_hash Hbd).
  - apply rangeRE_exec; auto.
Qed.

Lemma no_meta (path : string) :
  plain_path path ->
  exec regionRE path = None /\ exec rangeRE path = None.
Proof.
  intros [Hh Hb]. split; [now apply regionRE_none|now apply rangeRE_none].
Qed.

Lemma include_target_region_range (path name a b : string) :
  plain_path path -> region_token name ->
  str_all is_digit a = true -> str_all is_digit b = true ->
  include_target (path ++ "#" ++ name ++ range_text a b) = path.
Proof.
  intros Hp Hn Ha Hb. unfold include_target.
  destruct (region_before_range path name a b Hp Hn Ha Hb) as [-> ->].
  cbn [is_some orb match_length matched].
  rewrite <- str_length_app. apply cut_tail_app. simpl. lia.
Qed.

Lemma include_target_region (path name : string) :
  plain_path path -> region_token name ->
  include_target (path ++ "#" ++ name) = path.
Proof.
  intros Hp Hn. unfold include_target.
  destruct (region_alone path name Hp Hn) as [-> ->].
  cbn [is_some orb match_length matched]. rewrite Nat.add_0_r.
  apply cut_tail_app. simpl. lia.
Qed.

Lemma include_target_range (path a b : string) :
  plain_path path ->
  str_all is_digit a = true -> str_all is_digit b = true ->
  include_target (path ++ range_text a b) = path.
Proof.
  intros Hp Ha Hb. unfold include_target.
  destruct (range_alone path a b Hp Ha Hb) as [-> ->].
  cbn [is_some orb match_length matched].
  apply cut_tail_app. simpl. lia.
Qed.

Lemma include_target_plain (path : string) :
  plain_path path -> include_target path = path.
Proof.
  intros Hp. unfold include_target.
  destruct (no_meta path Hp) as [-> ->]. reflexivity.
Qed.

(** The number of code units cut off the tail of a payload. *)
Definition meta_length (m1 : string) : nat :=
  match_length (exec regionRE m1) + match_length (exec rangeRE m1).

(** For every payload the path is the payload without its last
    [meta_length] code units. *)
Lemma include_target_cuts_tail (m1 : string) :
  include_target m1 = str_take (String.length m1 - meta_length m1) m1.
Proof.
  unfold include_target, meta_length.
  destruct (exec regionRE m1) as [rg|] eqn:Hrg.
  - apply exec_matched_length in Hrg.
    change (min_len (pattern regionRE)) with 2 in Hrg.
    cbn [is_some orb match_length]. apply str_slice_cut_tail. lia.
  - destruct (exec rangeRE m1) as [rn|] eqn:Hrn.
    + apply exec_matched_length in Hrn.
      change (min_len (pattern rangeRE)) with 3 in Hrn.
      cbn [is_some orb match_length]. apply str_slice_cut_tail. lia.
    + cbn [is_some orb match_length]. rewrite Nat.sub_0_r.
      symmetry. apply str_take_all. lia.
Qed.

(** C8: the path handed to path resolution is the payload without its
    last code units, as many as the matches of the two patterns are long
    together; whichever of the trailing [#region] token and the trailing
    [{start,end}] range a payload carries, that path is the payload
    without them. *)
Theorem include_target_strips_meta (path name a b : string) :
  plain_path path -> region_token name ->
  str_all is_digit a = true -> str_all is_digit b = true ->
  (forall m1,
      include_target m1 = str_take (String.length m1 - meta_length m1) m1) /\
  include_target (path ++ "#" ++ name ++ range_text a b) = path /\
  include_target (path ++ "#" ++ name) = path /\
  include_target (path ++ range_text a b) = path /\
  include_target path = path.
Proof.
  intros Hp Hn Ha Hb. split; [|split; [|split; [|split]]].
  - apply include_target_cuts_tail.
  - now apply include_target_region_range.
  - now apply include_target_region.
  - now apply include_target_range.
  - now apply include_target_plain.
Qed.

Lemma include_target_strips_meta_witness :
  (forall m1,
      include_target m1 = str_take (String.length m1 - meta_length m1) m1) /\
  include_target "./test.md#intro{2,4}" = "./test.md" /\
  include_target "./test.md#intro" = "./test.md" /\
  include_target "./test.md{2,4}" = "./test.md" /\
  include_target "./test.md" = "./test.md".
Proof.
  apply (include_target_strips_meta "./test.md" "intro" "2" "4").
  - split; reflexivity.
  - split; [discriminate|reflexivity].
  - reflexivity.
  - reflexivity.
Defined.

(** *** Line ranges *)

Lemma parseInt_fold_nonneg (l : list ascii) (acc : Z) :
  (0 <= acc)%Z ->
  (0 <= fold_left (fun acc c => 10 * acc + Z.of_nat (code c - 48)) l acc)%Z.
Proof.
  revert acc. induction l as [|c l IH]; intros acc H; cbn [fold_left];
    [assumption|].
  apply IH. lia.
Qed.

Lemma parseInt_nonneg (s : string) : (0 <= parseInt s)%Z.
Proof. apply parseInt_fold_nonneg. lia. Qed.

(** The bounds a range denotes, as 1-based line numbers: an absent start
    is line 1, an absent end is the last line. *)
Definition range_lo (a : string) : nat :=
  if truthy a then Z.to_nat (parseInt a) else 1.

Definition range_hi (b : string) (ls : list string) : nat :=
  if truthy b then Z.to_nat (parseInt b) else List.length ls.

(** [res] holds the lines [lo], ..., [hi] of [ls], counted from 1. *)
Definition lines_from_to (lo hi : nat) (ls res : list string) : Prop :=
  forall i, nth_error res i =
            if lo + i <=? hi then nth_error ls (lo + i - 1) else None.

Lemma arr_slice_lines (ls : list string) (f t : nat) :
  lines_from_to (f + 1) t ls
    (firstn (Nat.min t (List.length ls) - Nat.min f (List.length ls))
            (skipn (Nat.min f (List.length ls)) ls)).
Proof.
  intros i. rewrite nth_error_firstn, nth_error_skipn.
  replace (f + 1 + i - 1) with (f + i) by lia.
  destruct (Nat.ltb_spec i (Nat.min t (List.length ls) - Nat.min f (List.length ls)));
    destruct (Nat.leb_spec (f + 1 + i) t); try reflexivity.
  - f_equal. lia.
  - lia.
  - symmetry. apply nth_error_None. lia.
Qed.

(** The range selection keeps exactly the lines the range names, for a
    start that is a line number (1 or more). *)
Lemma select_range_lines (r : MatchResult) (a b content : string) :
  groups r = [Some a; Some b] ->
  (truthy a = true -> (1 <= parseInt a)%Z) ->
  exists res,
    select_range (Some r) content = join nl res /\
    lines_from_to (range_lo a) (range_hi b (split_lines content))
                  (split_lines content) res.
Proof.
  intros Hg Ha. unfold select_range. rewrite Hg. cbn [elem_or_empty nth].
  set (ls := split_lines content).
  eexists. split; [reflexivity|].
  unfold arr_slice, slice_from, slice_to, range_lo, range_hi.
  destruct (Z_of_nat_complete (parseInt b) (parseInt_nonneg b)) as [B HB].
  rewrite HB, Nat2Z.id.
  destruct (truthy a) eqn:Ta; destruct (truthy b) eqn:Tb.
  - specialize (Ha eq_refl).
    destruct (Z_of_nat_complete (parseInt a - 1)) as [f Hf]; [lia|].
    rewrite Hf, !clamp_index_nat.
    replace (Z.to_nat (parseInt a)) with (f + 1) by lia.
    apply arr_slice_lines.
  - specialize (Ha eq_refl).
    destruct (Z_of_nat_complete (parseInt a - 1)) as [f Hf]; [lia|].
    rewrite Hf, !clamp_index_nat.
    replace (Z.to_nat (parseInt a)) with (f + 1) by lia.
    pose proof (arr_slice_lines ls f (List.length ls)) as H.
    rewrite Nat.min_id in H. exact H.
  - rewrite !clamp_index_nat.
    apply (arr_slice_lines ls 0).
  - pose proof (arr_slice_lines ls 0 (List.length ls)) as H.
    rewrite Nat.min_id in H. exact H.
Qed.

Section IncludeDirective.

Variable E : Env.
Variable srcDir : string.
Variable filePath : option string.
Variable stripFrontmatter : bool.
Variable self : string -> State -> option (string * State).

Let replacer := include_replacer E srcDir filePath stripFrontmatter self.

(** The target of the directive is a file that exists and can be read. *)
Definition target_file (path includePath content : string) : Prop :=
  includePath_of E srcDir filePath path = Some includePath /\
  existsSync E includePath = true /\
  readFileSync E includePath = Some content.

Lemma include_replacer_payload (m m1 : string) (st : State) :
  m1 <> EmptyString ->
  replacer m [Some m1] st =
  match load_include E srcDir filePath stripFrontmatter (include_target m1)
                     (exec regionRE m1) (exec rangeRE m1) st with
  | Loaded includePath content st' => self content (push includePath st')
  | Failed st' =>
      Some (m, warn (LogWarn ("[remark-include] Include file not found: "
                              ++ include_target m1)) st')
  end.
Proof.
  intros Hne. unfold replacer, include_replacer. cbn [elem_or_empty nth].
  destruct m1 as [|c m1]; [congruence|]. reflexivity.
Qed.

Lemma load_include_meta (path includePath content : string)
      (region range : option MatchResult) (st : State) :
  is_some region || is_some range = true ->
  target_file path includePath content ->
  load_include E srcDir filePath stripFrontmatter path region range st =
  Loaded includePath
         (select_range range (fst (select_region includePath region content st)))
         (snd (select_region includePath region content st)).
Proof.
  intros Hmeta (Hp & Hex & Hrd). unfold load_include.
  rewrite Hp, Hex, Hrd, Hmeta. cbn [negb andb].
  now destruct (select_region includePath region content st).
Qed.

Lemma payload_not_empty (path rest : string) (c : ascii) :
  (path ++ String c rest)%string <> EmptyString.
Proof. destruct path; discriminate. Qed.

(** C4: with both a region and a range, the region is cut out first and
    the range then counts the lines of the region text. *)
Theorem include_region_then_range
        (m path name a b includePath content : string) (d : RegionData)
        (st : State) :
  plain_path path -> region_token name ->
  str_all is_digit a = true -> str_all is_digit b = true ->
  (truthy a = true -> (1 <= parseInt a)%Z) ->
  target_file path includePath content ->
  findRegion (split_lines content) name = Some d ->
  let region_text :=
    join nl (firstn (end_ d - start d) (skipn (start d) (split_lines content))) in
  exists res,
    replacer m [Some (path ++ "#" ++ name ++ range_text a b)%string] st =
      self (join nl res) (push includePath st) /\
    lines_from_to (range_lo a) (range_hi b (split_lines region_text))
                  (split_lines region_text) res.
Proof.
  intros Hp Hn Ha Hb Hlo Hfile Hd region_text.
  destruct (region_before_range path name a b Hp Hn Ha Hb) as [Hrg Hrn].
  pose proof (include_target_region_range path name a b Hp Hn Ha Hb) as Ht.
  rewrite include_replacer_payload by apply payload_not_empty.
  rewrite Ht, Hrg, Hrn.
  rewrite (load_include_meta path includePath content) by (auto; reflexivity).
  unfold select_region. cbn [matched].
  change ("#" ++ name)%string with (String "#" name).
  change (Some 1%Z) with (Some (Z.of_nat 1)).
  rewrite (str_slice_from (String "#" name) 1). cbn [str_drop].
  rewrite Hd. cbn [fst snd].
  assert (arr_slice (split_lines content) (Some (Z.of_nat (start d)))
                    (Some (Z.of_nat (end_ d)))
          = firstn (end_ d - start d) (skipn (start d) (split_lines content)))
    as Hslice.
  { apply findRegion_bounds in Hd.
    unfold arr_slice, slice_from, slice_to. rewrite !clamp_index_nat.
    rewrite !Nat.min_l by lia. reflexivity. }
  rewrite Hslice. fold region_text.
  destruct (select_range_lines
              {| index := String.length (path ++ String "#" name);
                 matched := range_text a b;
                 groups := [Some a; Some b] |} a b region_text eq_refl Hlo)
    as (res & Hres & Hlines).
  exists res. rewrite Hres. split; [reflexivity|assumption].
Qed.

End IncludeDirective.

(** *** The range and region scenarios on files *)

Definition five_lines : string :=
  "Line 1
Line 2
Line 3
Line 4
Line 5".

Definition region_file : string :=
  "Before region
<!-- #region test -->
Inside 1
Inside 2
Inside 3
<!-- #endregion test -->
After region".

Definition math_js : string :=
  "// #region utils
  function add(a, b) {
    return a + b;
  }

  function multiply(a, b) {
    return a * b;
  }
// #endregion utils".

Definition docs_env : Env :=
  example_env
    [("/docs/test.md", five_lines);
     ("/docs/r.md", region_file);
     ("/docs/a.md", "A says: <!--@include: ./b.md--> (end of A)");
     ("/docs/b.md", "hello from B");
     ("/src/example.js", five_lines);
     ("/src/math.js", math_js)].

Definition return_content (c : string) (st : State) : option (string * State) :=
  Some (c, st).

Definition html_dialect : Marker :=
  nth 1 markers (mkMarker regionRE regionRE).

Lemma include_region_then_range_witness :
  exists res,
    include_replacer docs_env "/docs" (Some "/docs/main.md") false return_content
      "<!--@include: ./r.md#test{2,3}-->" [Some "./r.md#test{2,3}"] empty_state =
    Some (join nl res, push "/docs/r.md" empty_state) /\
    lines_from_to 2 3 ["Inside 1"; "Inside 2"; "Inside 3"] res.
Proof.
  apply (include_region_then_range docs_env "/docs" (Some "/docs/main.md") false
           return_content "<!--@include: ./r.md#test{2,3}-->" "./r.md" "test"
           "2" "3" "/docs/r.md" region_file
           {| re := html_dialect; start := 2; end_ := 5 |} empty_state).
  - split; reflexivity.
  - split; [discriminate|reflexivity].
  - reflexivity.
  - reflexivity.
  - intros _. vm_compute. discriminate.
  - repeat split; reflexivity.
  - vm_compute. reflexivity.
Defined.

(** The scenarios of the specification, run through [processIncludes]. *)
Example include_range_2_4 :
  processIncludes docs_env "/docs" (Some "/docs/main.md") false 2
                  "<!--@include: ./test.md{2,4}-->" empty_state =
  Some ("Line 2
Line 3
Line 4", push "/docs/test.md" empty_state).
Proof. vm_compute. reflexivity. Qed.

Example include_range_open_end :
  processIncludes docs_env "/docs" (Some "/docs/main.md") false 2
                  "<!--@include: ./test.md{2,}-->" empty_state =
  Some ("Line 2
Line 3
Line 4
Line 5", push "/docs/test.md" empty_state).
Proof. vm_compute. reflexivity. Qed.

Example include_region_and_range :
  processIncludes docs_env "/docs" (Some "/docs/main.md") false 2
                  "<!--@include: ./r.md#test{2,3}-->" empty_state =
  Some ("Inside 2
Inside 3", push "/docs/r.md" empty_state).
Proof. vm_compute. reflexivity. Qed.

(** ** Replacing the matches of a pattern *)

Definition pieces_text (ps : list piece) : string :=
  fold_right (fun x acc => (piece_text x ++ acc)%string) EmptyString ps.

Lemma str_take_empty (n : nat) : str_take n EmptyString = EmptyString.
Proof. now destruct n. Qed.

(** The pieces of a scan, put together again, are the text scanned. *)
Lemma scan_text (R : RegExp) (s : string) :
  forall (p : option ascii) (skip : nat),
    pieces_text (scan R p s skip) = str_drop skip s.
Proof.
  induction s as [|c t IH]; intros p skip.
  - destruct skip as [|k]; [|reflexivity]. cbn [scan].
    destruct (match_at R p EmptyString) as [[l g]|]; [|reflexivity].
    cbn [pieces_text fold_right piece_text]. rewrite str_take_empty. reflexivity.
  - destruct skip as [|k]; cbn [scan].
    + destruct (match_at R p (String c t)) as [[l g]|].
      * destruct l as [|l]; cbn [pieces_text fold_right piece_text].
        -- change (fold_right _ EmptyString (scan R (Some c) t 0))
             with (pieces_text (scan R (Some c) t 0)).
           rewrite IH. reflexivity.
        -- change (fold_right _ EmptyString (scan R (Some c) t l))
             with (pieces_text (scan R (Some c) t l)).
           rewrite IH. unfold str_take. cbn [substring append str_drop].
           f_equal. apply (str_take_drop l t).
      * cbn [pieces_text fold_right piece_text].
        change (fold_right _ EmptyString (scan R (Some c) t 0))
          with (pieces_text (scan R (Some c) t 0)).
        rewrite IH. reflexivity.
    + apply IH.
Qed.

Lemma pieces_text_id (R : RegExp) (s : string) : pieces_text (pieces R s) = s.
Proof. apply (scan_text R s None 0). Qed.

Definition is_match (x : piece) : bool :=
  match x with PMatch _ _ => true | PChar _ => false end.

(** Where [exec] finds nothing, the scan finds no match either. *)
Lemma search_none_scan (R : RegExp) (s : string) :
  forall (p : option ascii) (i : nat),
    search R p s i = None -> forallb (fun x => negb (is_match x)) (scan R p s 0) = true.
Proof.
  induction s as [|c t IH]; intros p i H; cbn [search scan] in *.
  - destruct (match_at R p EmptyString) as [[l g]|]; [discriminate|reflexivity].
  - destruct (match_at R p (String c t)) as [[l g]|]; [discriminate|].
    cbn [forallb is_match negb andb]. now apply (IH (Some c) (S i)).
Qed.

Lemma test_false_no_match (R : RegExp) (s : string) :
  test R s = false -> forallb (fun x => negb (is_match x)) (pieces R s) = true.
Proof.
  unfold test, exec, pieces. destruct (search R None s 0) eqn:H; [discriminate|].
  intros _. now apply (search_none_scan R s None 0).
Qed.

Lemma replace_pieces_opt_plain cb (ps : list piece) (st : State) :
  forallb (fun x => negb (is_match x)) ps = true ->
  replace_pieces_opt cb ps st = Some (pieces_text ps, st).
Proof.
  induction ps as [|[c|m g] t IH]; cbn [forallb is_match negb andb]; intros H.
  - reflexivity.
  - cbn [replace_pieces_opt]. now rewrite IH.
  - discriminate.
Qed.

Lemma replace_pieces_plain cb (ps : list piece) (st : State) :
  forallb (fun x => negb (is_match x)) ps = true ->
  replace_pieces cb ps st = (pieces_text ps, st).
Proof.
  induction ps as [|[c|m g] t IH]; cbn [forallb is_match negb andb]; intros H.
  - reflexivity.
  - cbn [replace_pieces]. now rewrite IH.
  - discriminate.
Qed.

(** The replacement of one match inside a run of pieces. *)
Lemma replace_pieces_opt_split cb (before after : list piece) (m : string)
      (g : list (option string)) (st st' : State) (out : string) :
  replace_pieces_opt cb (before ++ PMatch m g :: after) st = Some (out, st') ->
  exists out1 st1 r st2 out2,
    replace_pieces_opt cb before st = Some (out1, st1) /\
    cb m g st1 = Some (r, st2) /\
    replace_pieces_opt cb after st2 = Some (out2, st') /\
    out = (out1 ++ r ++ out2)%string.
Proof.
  revert st out. induction before as [|[c|m0 g0] t IH]; intros st out H.
  - cbn [app replace_pieces_opt] in H.
    destruct (cb m g st) as [[r st2]|] eqn:Hcb; [|discriminate].
    destruct (replace_pieces_opt cb after st2) as [[out2 st3]|] eqn:Ha; [|discriminate].
    injection H as <- <-.
    exists EmptyString, st, r, st2, out2. repeat split; auto.
  - cbn [app replace_pieces_opt] in H.
    destruct (replace_pieces_opt cb (t ++ PMatch m g :: after) st)
      as [[o s1]|] eqn:Ht; [|discriminate].
    injection H as <- <-.
    destruct (IH _ _ Ht) as (out1 & st1 & r & st2 & out2 & H1 & H2 & H3 & ->).
    exists (String c out1), st1, r, st2, out2.
    cbn [replace_pieces_opt]. rewrite H1. repeat split; auto.
  - cbn [app replace_pieces_opt] in H.
    destruct (cb m0 g0 st) as [[r0 s0]|] eqn:Hcb0; [|discriminate].
    destruct (replace_pieces_opt cb (t ++ PMatch m g :: after) s0)
      as [[o s1]|] eqn:Ht; [|discriminate].
    injection H as <- <-.
    destruct (IH _ _ Ht) as (out1 & st1 & r & st2 & out2 & H1 & H2 & H3 & ->).
    exists (r0 ++ out1)%string, st1, r, st2, out2.
    cbn [replace_pieces_opt]. rewrite Hcb0, H1. repeat split; auto.
    now rewrite str_app_assoc.
Qed.

Lemma replace_pieces_split cb (before after : list piece) (m : string)
      (g : list (option string)) (st : State) :
  replace_pieces cb (before ++ PMatch m g :: after) st =
  let '(out1, st1) := replace_pieces cb before st in
  let '(r, st2) := cb m g st1 in
  let '(out2, st3) := replace_pieces cb after st2 in
  ((out1 ++ r ++ out2)%string, st3).
Proof.
  revert st. induction before as [|[c|m0 g0] t IH]; intros st.
  - cbn [app replace_pieces]. destruct (cb m g st) as [r st2].
    now destruct (replace_pieces cb after st2).
  - cbn [app replace_pieces]. rewrite IH.
    destruct (replace_pieces cb t st) as [out1 st1].
    destruct (cb m g st1) as [r st2].
    now destruct (replace_pieces cb after st2).
  - cbn [app replace_pieces]. destruct (cb m0 g0 st) as [r0 s0]. rewrite IH.
    destruct (replace_pieces cb t s0) as [out1 st1].
    destruct (cb m g st1) as [r st2].
    destruct (replace_pieces cb after st2). now rewrite str_app_assoc.
Qed.

(** *** The state only grows *)

Definition grows (st st' : State) : Prop :=
  (exists l, includes st' = includes st ++ l) /\
  (exists w, warnings st' = warnings st ++ w).

Lemma grows_refl (st : State) : grows st st.
Proof. split; exists []; now rewrite app_nil_r. Qed.

Lemma grows_trans (a b c : State) : grows a b -> grows b c -> grows a c.
Proof.
  intros [[l1 H1] [w1 H2]] [[l2 H3] [w2 H4]]. split.
  - exists (l1 ++ l2). now rewrite H3, H1, app_assoc.
  - exists (w1 ++ w2). now rewrite H4, H2, app_assoc.
Qed.

Lemma grows_push (p : string) (st : State) : grows st (push p st).
Proof. split; [now exists [p]|exists []; simpl; now rewrite app_nil_r]. Qed.

Lemma grows_warn (e : LogEntry) (st : State) : grows st (warn e st).
Proof. split; [exists []; simpl; now rewrite app_nil_r|now exists [e]]. Qed.

Lemma grows_includes (st st' : State) (p : string) :
  grows st st' -> In p (includes st) -> In p (includes st').
Proof. intros [[l ->] _] H. apply in_or_app. now left. Qed.

Lemma grows_warnings (st st' : State) (e : LogEntry) :
  grows st st' -> In e (warnings st) -> In e (warnings st').
Proof. intros [_ [w ->]] H. apply in_or_app. now left. Qed.

Lemma replace_pieces_opt_grows cb :
  (forall m g st r st', cb m g st = Some (r, st') -> grows st st') ->
  forall ps st out st',
    replace_pieces_opt cb ps st = Some (out, st') -> grows st st'.
Proof.
  intros Hcb ps. induction ps as [|[c|m g] t IH]; intros st out st' H;
    cbn [replace_pieces_opt] in H.
  - injection H as _ <-. apply grows_refl.
  - destruct (replace_pieces_opt cb t st) as [[o s1]|] eqn:Ht; [|discriminate].
    injection H as _ <-. eapply IH; eauto.
  - destruct (cb m g st) as [[r s0]|] eqn:H0; [|discriminate].
    destruct (replace_pieces_opt cb t s0) as [[o s1]|] eqn:Ht; [|discriminate].
    injection H as _ <-. eapply grows_trans; [eapply Hcb; eauto|eapply IH; eauto].
Qed.

Lemma replace_pieces_grows cb :
  (forall m g st, grows st (snd (cb m g st))) ->
  forall ps st, grows st (snd (replace_pieces cb ps st)).
Proof.
  intros Hcb ps. induction ps as [|[c|m g] t IH]; intros st; cbn [replace_pieces].
  - apply grows_refl.
  - specialize (IH st). destruct (replace_pieces cb t st). exact IH.
  - specialize (Hcb m g st). destruct (cb m g st) as [r s0].
    specialize (IH s0). destruct (replace_pieces cb t s0).
    eapply grows_trans; eauto.
Qed.

Section ResolverProperties.

Variable E : Env.
Variable srcDir : string.
Variable filePath : option string.
Variable stripFrontmatter : bool.

Let load := load_include E srcDir filePath stripFrontmatter.
Let includeReplacer := include_replacer E srcDir filePath stripFrontmatter.
Let process := processIncludes E srcDir filePath stripFrontmatter.
Let snippetReplacer := snippet_replacer E srcDir filePath.

Definition not_found_warning (path : string) : LogEntry :=
  LogWarn ("[remark-include] Include file not found: " ++ path).

Definition snippet_warning (rawPath : string) : LogEntry :=
  LogWarn ("[remark-include] Snippet file not found: " ++ rawPath).

Definition region_warning (name includePath : string) : LogEntry :=
  ConsoleWarn ("[remark-include] Region '#" ++ name ++ "' not found in "
               ++ includePath).

(** What the [try] block loads does not depend on the state; the state
    only receives the warning of a region that was not found. *)
Lemma load_include_state (t : string) (rg rn : option MatchResult) (st : State) :
  load t rg rn st =
  match load t rg rn empty_state with
  | Loaded ip c st0 =>
      Loaded ip c {| includes := includes st;
                     warnings := warnings st ++ warnings st0 |}
  | Failed _ => Failed st
  end.
Proof.
  unfold load, load_include. destruct st as [inc ws].
  destruct (includePath_of E srcDir filePath t) as [ip|]; [|reflexivity].
  destruct (negb (existsSync E ip)); [reflexivity|].
  destruct (readFileSync E ip) as [content|]; [|reflexivity].
  unfold select_region.
  destruct rg as [r|].
  - cbn [is_some orb negb andb].
    destruct (findRegion (split_lines content) (str_slice (matched r) (Some 1%Z) None));
      cbn [includes warnings empty_state warn]; now rewrite ?app_nil_r.
  - cbn [includes warnings empty_state].
    destruct (negb _ && _ && _);
      [destruct (matter_content E _)|]; now rewrite ?app_nil_r.
Qed.

(** The file and the text a directive payload loads, if it loads one. *)
Definition loaded_by (m1 : string) : option (string * string) :=
  match load (include_target m1) (exec regionRE m1) (exec rangeRE m1) empty_state with
  | Loaded ip c _ => Some (ip, c)
  | Failed _ => None
  end.

Lemma include_replacer_empty self (m : string) (g : list (option string))
      (st : State) :
  elem_or_empty g 0 = EmptyString -> includeReplacer self m g st = Some (m, st).
Proof.
  intros H. unfold includeReplacer, include_replacer. now rewrite H.
Qed.

Lemma include_replacer_failed self (m : string) (g : list (option string))
      (st : State) :
  elem_or_empty g 0 <> EmptyString ->
  loaded_by (elem_or_empty g 0) = None ->
  includeReplacer self m g st =
  Some (m, warn (not_found_warning (include_target (elem_or_empty g 0))) st).
Proof.
  intros Hne Hl. unfold includeReplacer, include_replacer.
  destruct (elem_or_empty g 0) as [|c m1] eqn:Hm1; [congruence|].
  cbn [String.length Nat.eqb]. unfold loaded_by in Hl. fold load.
  rewrite load_include_state.
  destruct (load (include_target (String c m1)) _ _ empty_state); [discriminate|].
  reflexivity.
Qed.

Lemma include_replacer_loaded self (m : string) (g : list (option string))
      (st : State) (ip c : string) :
  elem_or_empty g 0 <> EmptyString ->
  loaded_by (elem_or_empty g 0) = Some (ip, c) ->
  exists st1, grows st st1 /\ includes st1 = includes st /\
              includeReplacer self m g st = self c (push ip st1).
Proof.
  intros Hne Hl. unfold includeReplacer, include_replacer.
  destruct (elem_or_empty g 0) as [|ch m1] eqn:Hm1; [congruence|].
  cbn [String.length Nat.eqb]. unfold loaded_by in Hl. fold load.
  rewrite load_include_state.
  destruct (load (include_target (String ch m1)) _ _ empty_state)
    as [ip0 c0 st0|]; [|discriminate].
  injection Hl as -> ->.
  exists {| includes := includes st; warnings := warnings st ++ warnings st0 |}.
  split; [|split; reflexivity].
  split; [exists []; simpl; now rewrite app_nil_r|now exists (warnings st0)].
Qed.

Lemma include_replacer_grows self :
  (forall c st r st', self c st = Some (r, st') -> grows st st') ->
  forall m g st r st',
    includeReplacer self m g st = Some (r, st') -> grows st st'.
Proof.
  intros Hself m g st r st' H.
  destruct (string_dec (elem_or_empty g 0) EmptyString) as [He|He].
  - rewrite include_replacer_empty in H by assumption.
    injection H as _ <-. apply grows_refl.
  - destruct (loaded_by (elem_or_empty g 0)) as [[ip c]|] eqn:Hl.
    + destruct (include_replacer_loaded self m g st ip c He Hl)
        as (st1 & Hg & _ & Heq).
      rewrite Heq in H. apply Hself in H.
      eapply grows_trans; [exact Hg|]. eapply grows_trans; [apply grows_push|exact H].
    + rewrite include_replacer_failed in H by assumption.
      injection H as _ <-. apply grows_warn.
Qed.

Lemma processIncludes_grows (fuel : nat) :
  forall content st out st',
    process fuel content st = Some (out, st') -> grows st st'.
Proof.
  induction fuel as [|fuel IH]; intros content st out st' H; [discriminate|].
  cbn [process processIncludes] in H.
  eapply replace_pieces_opt_grows; [|exact H].
  apply include_replacer_grows. exact IH.
Qed.

(** More fuel never changes a result. *)
Lemma replace_pieces_opt_mono cb cb' :
  (forall m g st r, cb m g st = Some r -> cb' m g st = Some r) ->
  forall ps st r,
    replace_pieces_opt cb ps st = Some r -> replace_pieces_opt cb' ps st = Some r.
Proof.
  intros H ps. induction ps as [|[c|m g] t IH]; intros st r Hr;
    cbn [replace_pieces_opt] in *.
  - exact Hr.
  - destruct (replace_pieces_opt cb t st) as [[o s1]|] eqn:Ht; [|discriminate].
    now rewrite (IH _ _ Ht).
  - destruct (cb m g st) as [[r0 s0]|] eqn:H0; [|discriminate].
    rewrite (H _ _ _ _ H0).
    destruct (replace_pieces_opt cb t s0) as [[o s1]|] eqn:Ht; [|discriminate].
    now rewrite (IH _ _ Ht).
Qed.

Lemma include_replacer_mono self self' :
  (forall c st r, self c st = Some r -> self' c st = Some r) ->
  forall m g st r,
    includeReplacer self m g st = Some r -> includeReplacer self' m g st = Some r.
Proof.
  intros H m g st r. unfold includeReplacer, include_replacer.
  destruct (String.length (elem_or_empty g 0) =? 0); [auto|].
  destruct (load_include _ _ _ _ _ _ _ _); [apply H|auto].
Qed.

Lemma processIncludes_fuel_mono (fuel : nat) :
  forall content st r,
    process fuel content st = Some r -> process (S fuel) content st = Some r.
Proof.
  induction fuel as [|fuel IH]; intros content st r H; [discriminate|].
  change (process (S (S fuel)) content st)
    with (replace_pieces_opt (includeReplacer (process (S fuel)))
                             (pieces includesRE content) st).
  change (process (S fuel) content st)
    with (replace_pieces_opt (includeReplacer (process fuel))
                             (pieces includesRE content) st) in H.
  revert H. apply replace_pieces_opt_mono.
  apply include_replacer_mono. exact IH.
Qed.

Lemma snippet_replacer_grows (m : string) (g : list (option string)) (st : State) :
  grows st (snd (snippetReplacer m g st)).
Proof.
  unfold snippetReplacer, snippet_replacer.
  destruct (String.length (elem_or_empty g 0) =? 0); [apply grows_refl|].
  unfold load_snippet.
  destruct (snippetPath_of _ _ _ _ _) as [sp|]; [|apply grows_warn].
  destruct (negb (existsSync E sp)); [apply grows_warn|].
  destruct (readFileSync E sp); [apply grows_push|apply grows_warn].
Qed.

Lemma processSnippets_grows (content : string) (st : State) :
  grows st (snd (processSnippets E srcDir filePath content st)).
Proof.
  unfold processSnippets. apply replace_pieces_grows.
  apply snippet_replacer_grows.
Qed.

End ResolverProperties.

(** ** Regions that are not found *)

Section RegionNotFound.

Variable E : Env.
Variable srcDir : string.
Variable filePath : option string.
Variable stripFrontmatter : bool.

Let includeReplacer := include_replacer E srcDir filePath stripFrontmatter.
Let process := processIncludes E srcDir filePath stripFrontmatter.
Let snippetReplacer := snippet_replacer E srcDir filePath.

(** A text without include directive is its own expansion. *)
Lemma processIncludes_plain (fuel : nat) (content : string) (st : State) :
  test includesRE content = false ->
  process (S fuel) content st = Some (content, st).
Proof.
  intros H. cbn [process processIncludes].
  rewrite replace_pieces_opt_plain by now apply test_false_no_match.
  now rewrite pieces_text_id.
Qed.

End RegionNotFound.

(** ** Dependencies *)

Section Dependencies.

Variable E : Env.
Variable srcDir : string.
Variable filePath : option string.
Variable stripFrontmatter : bool.

#[local] Abbreviation loaded := (loaded_by E srcDir filePath stripFrontmatter).
#[local] Abbreviation process := (processIncludes E srcDir filePath stripFrontmatter).

(** A directive of [content] that loads the text [c] of the file [ip]. *)
Definition includes_file (content ip c : string) : Prop :=
  exists m g,
    In (PMatch m g) (pieces includesRE content) /\
    elem_or_empty g 0 <> EmptyString /\
    loaded (elem_or_empty g 0) = Some (ip, c).

(** The files whose text goes into the expansion of [content]: those its
    directives load, and those the loaded texts pull in in turn. *)
Inductive contributes : string -> string -> Prop :=
| contributes_direct content ip c :
    includes_file content ip c -> contributes content ip
| contributes_nested content ip c p :
    includes_file content ip c -> contributes c p -> contributes content p.

(** The include graph under [content] is at most [d] levels deep. *)
Fixpoint bounded (d : nat) (content : string) : bool :=
  match d with
  | 0 => false
  | S d' =>
      forallb
        (fun x =>
           match x with
           | PChar _ => true
           | PMatch _ g =>
               if String.length (elem_or_empty g 0) =? 0 then true
               else match loaded (elem_or_empty g 0) with
                    | Some (_, c) => bounded d' c
                    | None => true
                    end
           end)
        (pieces includesRE content)
  end.

(** With enough fuel for the depth of the include graph the expansion
    returns. *)
Lemma processIncludes_returns (d : nat) :
  forall content st,
    bounded d content = true -> exists out st', process d content st = Some (out, st').
Proof.
  induction d as [|d IH]; intros content st H; [discriminate|].
  cbn [bounded] in H. cbn [processIncludes].
  revert st H. induction (pieces includesRE content) as [|[c|m g] t IHt];
    intros st H; cbn [forallb] in H; cbn [replace_pieces_opt].
  - now exists EmptyString, st.
  - destruct (IHt st H) as (out & st' & ->). now exists (String c out), st'.
  - apply andb_prop in H as [Hm Ht].
    assert (exists r st1,
               include_replacer E srcDir filePath stripFrontmatter
                 (processIncludes E srcDir filePath stripFrontmatter d) m g st
               = Some (r, st1)) as (r & st1 & Hcb).
    { destruct (string_dec (elem_or_empty g 0) EmptyString) as [He|He].
      - rewrite (include_replacer_empty E srcDir filePath stripFrontmatter)
          by assumption. now exists m, st.
      - destruct (Nat.eqb_spec (String.length (elem_or_empty g 0)) 0) as [Hl|_].
        + destruct (elem_or_empty g 0); [congruence|discriminate].
        + destruct (loaded (elem_or_empty g 0)) as [[ip c]|] eqn:Hld.
          * destruct (include_replacer_loaded E srcDir filePath stripFrontmatter
                        (processIncludes E srcDir filePath stripFrontmatter d)
                        m g st ip c He Hld) as (st0 & _ & _ & ->).
            apply IH. exact Hm.
          * rewrite (include_replacer_failed E srcDir filePath stripFrontmatter)
              by assumption. eauto. }
    rewrite Hcb. destruct (IHt st1 Ht) as (out & st' & ->).
    now exists (r ++ out)%string, st'.
Qed.

(** Every file that contributes to the expansion is in [includes] when
    the expansion returns. *)
Lemma processIncludes_records (fuel : nat) :
  forall content st out st' p,
    process fuel content st = Some (out, st') ->
    contributes content p -> In p (includes st').
Proof.
  induction fuel as [|fuel IH]; intros content st out st' p Hrun Hc;
    [discriminate|].
  cbn [processIncludes] in Hrun.
  assert (forall ip c, includes_file content ip c ->
            exists r sa sb, process fuel c (push ip sa) = Some (r, sb) /\ grows sb st')
    as Hfile.
  { intros ip c (m & g & Hin & Hne & Hld).
    apply in_split in Hin. destruct Hin as (before & after & Hps).
    rewrite Hps in Hrun. apply replace_pieces_opt_split in Hrun.
    destruct Hrun as (out1 & st1 & r & st2 & out2 & _ & Hcb & Hafter & _).
    destruct (include_replacer_loaded E srcDir filePath stripFrontmatter
                (processIncludes E srcDir filePath stripFrontmatter fuel)
                m g st1 ip c Hne Hld) as (sa & _ & _ & Heq).
    rewrite Heq in Hcb. exists r, sa, st2. split; [exact Hcb|].
    eapply replace_pieces_opt_grows; [|exact Hafter].
    apply include_replacer_grows. apply processIncludes_grows. }
  destruct Hc as [content ip c Hf|content ip c p Hf Hn].
  - destruct (Hfile ip c Hf) as (r & sa & sb & Hrec & Hg).
    eapply grows_includes; [exact Hg|].
    eapply grows_includes; [eapply processIncludes_grows; exact Hrec|].
    cbn [push includes]. apply in_or_app. right. now left.
  - destruct (Hfile ip c Hf) as (r & sa & sb & Hrec & Hg).
    eapply grows_includes; [exact Hg|].
    eapply IH; [exact Hrec|exact Hn].
Qed.

Lemma visitor_grows (fuel : nat) (n : Node) (st : State) r st' :
  visitor E srcDir filePath stripFrontmatter fuel n st = Some (r, st') ->
  grows st st'.
Proof.
  destruct n as [value|value|]; cbn [visitor]; intros H.
  - destruct (test includesRE value).
    + destruct (processIncludes _ _ _ _ fuel value st) as [[o s1]|] eqn:Hp;
        [|discriminate].
      injection H as _ <-. eapply processIncludes_grows; exact Hp.
    + injection H as _ <-. apply grows_refl.
  - destruct (test snippetRE value).
    + pose proof (processSnippets_grows E srcDir filePath value st) as Hg.
      destruct (processSnippets E srcDir filePath value st) as [o s1].
      injection H as _ <-. exact Hg.
    + injection H as _ <-. apply grows_refl.
  - injection H as _ <-. apply grows_refl.
Qed.

Lemma contributes_has_match (content p : string) :
  contributes content p -> test includesRE content = true.
Proof.
  intros H. destruct (test includesRE content) eqn:T; [reflexivity|].
  apply test_false_no_match in T. rewrite forallb_forall in T.
  destruct H as [content ip c (m & g & Hin & _)|content ip c p (m & g & Hin & _) _];
    apply T in Hin; discriminate.
Qed.

End Dependencies.

Definition visited_example : list Node :=
  [other; html "<!--@include: ./a.md-->"; text "<<< @/example.js"].

Example nested_include_contributes :
  contributes docs_env "/src" (Some "/docs/main.md") false
              "<!--@include: ./a.md-->" "/docs/a.md" /\
  contributes docs_env "/src" (Some "/docs/main.md") false
              "<!--@include: ./a.md-->" "/docs/b.md".
Proof.
  assert (includes_file docs_env "/src" (Some "/docs/main.md") false
            "<!--@include: ./a.md-->" "/docs/a.md"
            "A says: <!--@include: ./b.md--> (end of A)") as Ha.
  { exists "<!--@include: ./a.md-->", [Some "./a.md"].
    split; [vm_compute; now left|]. split; [discriminate|]. vm_compute. reflexivity. }
  split.
  - eapply contributes_direct. exact Ha.
  - eapply contributes_nested; [exact Ha|].
    eapply (contributes_direct _ _ _ _ _ _ "hello from B").
    exists "<!--@include: ./b.md-->", [Some "./b.md"].
    split; [vm_compute; repeat (first [now left|right])|].
    split; [discriminate|]. vm_compute. reflexivity.
Qed.

Example dependencies_of_example :
  remarkInclude docs_env "/src" (Some "/docs/main.md") false 3 visited_example
  = Some ["/docs/a.md"; "/docs/b.md"; "/src/example.js"].
Proof. vm_compute. reflexivity. Qed.

(** ** Directives whose file is missing *)

Section Directives.

Variable E : Env.
Variable srcDir : string.
Variable filePath : option string.
Variable stripFrontmatter : bool.

Let includeReplacer := include_replacer E srcDir filePath stripFrontmatter.
#[local] Abbreviation process := (processIncludes E srcDir filePath stripFrontmatter).
Let snippetReplacer := snippet_replacer E srcDir filePath.
Let snippets := processSnippets E srcDir filePath.

Lemma missing_include_not_loaded (m1 p : string) :
  includePath_of E srcDir filePath (include_target m1) = Some p ->
  existsSync E p = false ->
  loaded_by E srcDir filePath stripFrontmatter m1 = None.
Proof.
  intros Hp Hex. unfold loaded_by, load_include. now rewrite Hp, Hex.
Qed.

Lemma missing_snippet_not_loaded (rawPath p : string) (st : State) :
  snippetPath_of E srcDir filePath (snippet_atPresent rawPath)
                 (snippet_token rawPath) = Some p ->
  existsSync E p = false ->
  load_snippet E srcDir filePath (snippet_atPresent rawPath)
               (snippet_token rawPath) st = None.
Proof.
  intros Hp Hex. unfold load_snippet. now rewrite Hp, Hex.
Qed.

Lemma snippet_replacer_failed (m : string) (g : list (option string)) (st : State) :
  elem_or_empty g 0 <> EmptyString ->
  load_snippet E srcDir filePath (snippet_atPresent (elem_or_empty g 0))
               (snippet_token (elem_or_empty g 0)) st = None ->
  snippetReplacer m g st = (m, warn (snippet_warning (elem_or_empty g 0)) st).
Proof.
  intros Hne Hl. unfold snippetReplacer, snippet_replacer.
  destruct (elem_or_empty g 0) as [|c r] eqn:Hr; [congruence|].
  cbn [String.length Nat.eqb]. now rewrite Hl.
Qed.

(** C1: a directive whose target does not exist is replaced by itself, so
    the output holds it unchanged; the replacer appends one warning that
    names the path of the directive and leaves the [includes] array as it
    was.  Both for [<!--@include: P-->] (the run returns when the fuel
    covers the depth of the include graph) and for [<<< P]. *)
Theorem missing_file_left_verbatim :
  (forall fuel content st before after m g p,
      let m1 := elem_or_empty g 0 in
      bounded E srcDir filePath stripFrontmatter fuel content = true ->
      pieces includesRE content = before ++ PMatch m g :: after ->
      m1 <> EmptyString ->
      includePath_of E srcDir filePath (include_target m1) = Some p ->
      existsSync E p = false ->
      (forall self st1, exists st2,
          includeReplacer self m g st1 = Some (m, st2) /\
          includes st2 = includes st1 /\
          warnings st2 = warnings st1 ++ [not_found_warning (include_target m1)]) /\
      (exists out st',
          process fuel content st = Some (out, st') /\
          (exists out1 out2, out = (out1 ++ m ++ out2)%string) /\
          In (not_found_warning (include_target m1)) (warnings st')))
  /\
  (forall content st before after m g p,
      let rawPath := elem_or_empty g 0 in
      pieces snippetRE content = before ++ PMatch m g :: after ->
      rawPath <> EmptyString ->
      snippetPath_of E srcDir filePath (snippet_atPresent rawPath)
                     (snippet_token rawPath) = Some p ->
      existsSync E p = false ->
      (forall st1, exists st2,
          snippetReplacer m g st1 = (m, st2) /\
          includes st2 = includes st1 /\
          warnings st2 = warnings st1 ++ [snippet_warning rawPath]) /\
      (exists out1 out2, fst (snippets content st) = (out1 ++ m ++ out2)%string) /\
      In (snippet_warning rawPath) (warnings (snd (snippets content st)))).
Proof.
  split.
  - intros fuel content st before after m g p m1 Hb Hps Hne Hp Hex.
    assert (forall self st1,
               includeReplacer self m g st1 =
               Some (m, warn (not_found_warning (include_target m1)) st1)) as Hstep.
    { intros self st1. apply include_replacer_failed; [assumption|].
      now apply (missing_include_not_loaded m1 p). }
    split.
    + intros self st1. eexists. split; [apply Hstep|]. split; reflexivity.
    + destruct (processIncludes_returns E srcDir filePath stripFrontmatter
                  fuel content st Hb) as (out & st' & Hrun).
      exists out, st'. split; [exact Hrun|].
      destruct fuel as [|fuel]; [discriminate|].
      cbn [processIncludes] in Hrun. rewrite Hps in Hrun.
      apply replace_pieces_opt_split in Hrun.
      destruct Hrun as (out1 & st1 & r & st2 & out2 & _ & Hcb & Hafter & ->).
      fold includeReplacer in Hcb. rewrite Hstep in Hcb. injection Hcb as <- <-.
      split; [now exists out1, out2|].
      apply replace_pieces_opt_grows in Hafter.
      * eapply grows_warnings; [exact Hafter|].
        cbn [warn warnings]. apply in_or_app. right. now left.
      * apply include_replacer_grows. apply processIncludes_grows.
  - intros content st before after m g p rawPath Hps Hne Hp Hex.
    assert (forall st1,
               snippetReplacer m g st1 = (m, warn (snippet_warning rawPath) st1))
      as Hstep.
    { intros st1. apply snippet_replacer_failed; [assumption|].
      now apply (missing_snippet_not_loaded rawPath p). }
    split; [|split].
    + intros st1. eexists. split; [apply Hstep|]. split; reflexivity.
    + unfold snippets, processSnippets. rewrite Hps, replace_pieces_split.
      destruct (replace_pieces _ before st) as [out1 st1].
      fold snippetReplacer. rewrite Hstep.
      destruct (replace_pieces _ after _) as [out2 st3].
      now exists out1, out2.
    + unfold snippets, processSnippets. rewrite Hps, replace_pieces_split.
      destruct (replace_pieces _ before st) as [out1 st1].
      fold snippetReplacer. rewrite Hstep.
      pose proof (replace_pieces_grows snippetReplacer
                    (snippet_replacer_grows E srcDir filePath) after
                    (warn (snippet_warning rawPath) st1)) as Hg.
      destruct (replace_pieces _ after _) as [out2 st3]. cbn [snd] in *.
      eapply grows_warnings; [exact Hg|].
      cbn [warn warnings]. apply in_or_app. right. now left.
Qed.

End Directives.

Definition chars (s : string) : list piece := map PChar (list_ascii_of_string s).

Definition missing_include_doc : string :=
  "# Main
<!--@include: ./missing.md-->
# End".

Definition missing_snippet_doc : string :=
  "# Example
<<< @/missing.js
# End".

Lemma missing_file_left_verbatim_witness :
  ((forall self st1, exists st2,
       include_replacer docs_env "/docs" (Some "/docs/main.md") false self
         "<!--@include: ./missing.md-->" [Some "./missing.md"] st1 = Some
         ("<!--@include: ./missing.md-->", st2) /\
       includes st2 = includes st1 /\
       warnings st2 = warnings st1 ++ [not_found_warning "./missing.md"]) /\
   (exists out st',
       processIncludes docs_env "/docs" (Some "/docs/main.md") false 1
                       missing_include_doc empty_state = Some (out, st') /\
       (exists out1 out2,
           out = (out1 ++ "<!--@include: ./missing.md-->" ++ out2)%string) /\
       In (not_found_warning "./missing.md") (warnings st')))
  /\
  ((forall st1, exists st2,
       snippet_replacer docs_env "/src" (Some "/docs/main.md")
         "<<< @/missing.js" [Some "@/missing.js"] st1 = ("<<< @/missing.js", st2) /\
       includes st2 = includes st1 /\
       warnings st2 = warnings st1 ++ [snippet_warning "@/missing.js"]) /\
   (exists out1 out2,
       fst (processSnippets docs_env "/src" (Some "/docs/main.md")
                            missing_snippet_doc empty_state)
       = (out1 ++ "<<< @/missing.js" ++ out2)%string) /\
   In (snippet_warning "@/missing.js")
      (warnings (snd (processSnippets docs_env "/src" (Some "/docs/main.md")
                                      missing_snippet_doc empty_state)))).
Proof.
  split.
  - apply (proj1 (missing_file_left_verbatim docs_env "/docs" (Some "/docs/main.md") false)
             1 missing_include_doc empty_state
             (chars "# Main
")
             (chars "
# End")
             "<!--@include: ./missing.md-->" [Some "./missing.md"]
             "/docs/missing.md").
    + vm_compute. reflexivity.
    + vm_compute. reflexivity.
    + discriminate.
    + vm_compute. reflexivity.
    + vm_compute. reflexivity.
  - apply (proj2 (missing_file_left_verbatim docs_env "/src" (Some "/docs/main.md") false)
             missing_snippet_doc empty_state
             (chars "# Example
")
             (chars "
# End")
             "<<< @/missing.js" [Some "@/missing.js"] "/src/missing.js").
    + vm_compute. reflexivity.
    + discriminate.
    + vm_compute. reflexivity.
    + vm_compute. reflexivity.
Defined.

(** ** Snippets *)

Definition set_lines (tok : Token) (l : string) : Token :=
  {| filepath := filepath tok; extension := extension tok; region := region tok;
     lines := l; lang := lang tok; attrs := attrs tok; title := title tok |}.

(** The body of the code block does not look at the line spec. *)
Lemma snippet_region_ignores_lines (tok : Token) (l content : string) :
  snippet_region (set_lines tok l) content = snippet_region tok content.
Proof. reflexivity. Qed.

Lemma snippet_region_without_region (tok : Token) (content : string) :
  truthy (region tok) = false -> snippet_region tok content = content.
Proof. intros H. unfold snippet_region. now rewrite H. Qed.

(** The replacer on a snippet whose file exists. *)
Lemma snippet_replacer_existing (E : Env) (srcDir : string)
      (filePath : option string) (m : string) (g : list (option string))
      (st : State) (p raw : string) :
  elem_or_empty g 0 <> EmptyString ->
  snippetPath_of E srcDir filePath (snippet_atPresent (elem_or_empty g 0))
                 (snippet_token (elem_or_empty g 0)) = Some p ->
  existsSync E p = true ->
  readFileSync E p = Some raw ->
  snippet_replacer E srcDir filePath m g st =
  (fenced (snippet_info (snippet_token (elem_or_empty g 0)))
          (snippet_region (snippet_token (elem_or_empty g 0)) (crlf_to_lf raw)),
   push p st).
Proof.
  intros Hne Hp Hex Hrd. unfold snippet_replacer.
  destruct (elem_or_empty g 0) as [|c r] eqn:Hr; [congruence|].
  cbn [String.length Nat.eqb].
  unfold load_snippet. rewrite Hp, Hex, Hrd. reflexivity.
Qed.

(** *** The info string *)









Lemma truthy_true (s : string) : s <> EmptyString -> truthy s = true.
Proof. intros H. unfold truthy. now destruct (String.eqb_spec s EmptyString). Qed.




Lemma nth_some_error (g : list (option string)) (n : nat) (v : string) :
  nth n g None = Some v -> nth_error g n = Some (Some v).
Proof.
  revert n. induction g as [|x t IH]; intros [|n] H; simpl in *;
    try discriminate; [now subst|now apply IH].
Qed.

Lemma elem_or_empty_ok (P : nat -> ascii -> bool) (g : list (option string))
      (n : nat) :
  caps_ok P g -> str_all (P n) (elem_or_empty g n) = true.
Proof.
  intros Hg. unfold elem_or_empty.
  destruct (nth n g None) as [v|] eqn:H; [|reflexivity].
  apply (Hg n v). now apply nth_some_error.
Qed.







(** The scenario with every option, through [processSnippets]. *)
Example snippet_with_all_options :
  processSnippets docs_env "/src" (Some "/docs/main.md")
    "<<< @/math.js#utils{1,5 typescript class=highlight}[Math Utils]" empty_state =
  ("```typescript{1,5}[Math Utils] class=highlight
function add(a, b) {
  return a + b;
}

function multiply(a, b) {
  return a * b;
}
```", push "/src/math.js" empty_state).
Proof. vm_compute. reflexivity. Qed.

(** * Further properties of the expansion engine *)

(** ** Lines *)

Definition no_lf (s : string) : bool := str_all (fun c => negb (Ascii.eqb c LF)) s.

Lemma split_nl_nonempty (s : string) : split_nl s <> [].
Proof.
  induction s as [|c t IH]; cbn [split_nl]; [discriminate|].
  destruct (Ascii.eqb c LF); [discriminate|].
  destruct (split_nl t); discriminate.
Qed.

Lemma split_nl_no_lf (s : string) : Forall (fun l => no_lf l = true) (split_nl s).
Proof.
  induction s as [|c t IH]; cbn [split_nl].
  - constructor; [reflexivity|constructor].
  - destruct (Ascii.eqb c LF) eqn:Hc.
    + constructor; [reflexivity|exact IH].
    + destruct (split_nl t) as [|h r]; [constructor; [|constructor]|].
      * unfold no_lf. cbn [str_all]. now rewrite Hc.
      * inversion IH as [|? ? Hh Hr]. constructor; [|exact Hr].
        unfold no_lf in *. cbn [str_all]. now rewrite Hc, Hh.
Qed.

(** [s.split('\n').join('\n')] is [s]. *)
Lemma join_split_nl (s : string) : join nl (split_nl s) = s.
Proof.
  induction s as [|c t IH]; cbn [split_nl]; [reflexivity|].
  destruct (Ascii.eqb_spec c LF) as [->|Hc].
  - unfold join in *. cbn [String.concat].
    destruct (split_nl t) as [|h r] eqn:Ht; [now apply split_nl_nonempty in Ht|].
    rewrite IH. reflexivity.
  - unfold join in *. destruct (split_nl t) as [|h r] eqn:Ht;
      [now apply split_nl_nonempty in Ht|].
    cbn [String.concat] in *. destruct r as [|h2 r].
    + now rewrite IH.
    + cbn [append]. now rewrite IH.
Qed.

Lemma split_nl_line (l : string) : no_lf l = true -> split_nl l = [l].
Proof.
  induction l as [|c l IH]; [reflexivity|]. unfold no_lf. cbn [str_all].
  intros H. apply andb_prop in H as [Hc Hl]. apply negb_true_iff in Hc.
  cbn [split_nl]. rewrite Hc. now rewrite (IH Hl).
Qed.

Lemma split_nl_app (l rest : string) :
  no_lf l = true -> split_nl (l ++ nl ++ rest) = l :: split_nl rest.
Proof.
  induction l as [|c l IH].
  - intros _. cbn [append nl split_nl]. now rewrite Ascii.eqb_refl.
  - unfold no_lf. cbn [str_all]. intros H. apply andb_prop in H as [Hc Hl].
    apply negb_true_iff in Hc. cbn [append split_nl]. rewrite Hc.
    now rewrite (IH Hl).
Qed.

Lemma join_cons (l l2 : string) (t : list string) :
  join nl (l :: l2 :: t) = (l ++ nl ++ join nl (l2 :: t))%string.
Proof. reflexivity. Qed.

(** Lines without a line feed, joined and split again, are the same lines. *)
Lemma split_join_nl (ls : list string) :
  ls <> [] -> Forall (fun l => no_lf l = true) ls ->
  split_nl (join nl ls) = ls.
Proof.
  induction ls as [|l t IH]; [congruence|]. intros _ Hall.
  inversion Hall as [|? ? Hl Ht]. subst.
  destruct t as [|l2 t].
  - now apply split_nl_line.
  - rewrite join_cons, split_nl_app by assumption.
    f_equal. apply IH; [discriminate|exact Ht].
Qed.

(** Splitting at [\r?\n] is splitting at [\n] once CRLF has become LF. *)
Lemma split_nl_crlf_to_lf (s : string) : split_nl (crlf_to_lf s) = split_lines s.
Proof.
  induction s as [|c t IH]; [reflexivity|].
  cbn [crlf_to_lf split_lines].
  destruct (Ascii.eqb_spec c LF) as [->|Hlf].
  - cbn [Ascii.eqb andb]. change (Ascii.eqb LF CR) with false. cbn [andb].
    cbn [split_nl]. rewrite Ascii.eqb_refl. now rewrite IH.
  - destruct (Ascii.eqb c CR && starts_with_lf t); [exact IH|].
    cbn [split_nl]. destruct (Ascii.eqb_spec c LF); [congruence|].
    now rewrite IH.
Qed.

Lemma join_split_lines (s : string) : join nl (split_lines s) = crlf_to_lf s.
Proof. rewrite <- split_nl_crlf_to_lf. apply join_split_nl. Qed.

(** ** Dedent, further *)

(** A line without its leading spaces and tabs. *)
Definition strip_blanks (l : string) : string := str_drop (leading_blanks l) l.

Lemma leading_blanks_drop (l : string) :
  forall n, n <= leading_blanks l ->
            leading_blanks (str_drop n l) = leading_blanks l - n.
Proof.
  induction l as [|c l IH]; intros [|n] H; cbn [str_drop]; try reflexivity.
  - now rewrite Nat.sub_0_r.
  - cbn [leading_blanks] in *. destruct (is_blank c); [|lia].
    rewrite IH by lia. reflexivity.
Qed.

Lemma blank_line_drop (l : string) :
  forall n, n <= leading_blanks l -> blank_line (str_drop n l) = blank_line l.
Proof.
  induction l as [|c l IH]; intros [|n] H; cbn [str_drop]; try reflexivity.
  cbn [leading_blanks blank_line] in *. destruct (is_blank c); [|lia].
  rewrite IH by lia. reflexivity.
Qed.

Lemma blank_line_drop_any (l : string) :
  forall n, blank_line l = true -> blank_line (str_drop n l) = true.
Proof.
  induction l as [|c l IH]; intros [|n] H; cbn [str_drop]; auto.
  cbn [blank_line] in H. apply andb_prop in H as [_ H]. now apply IH.
Qed.

Lemma strip_blanks_blank (l : string) :
  blank_line l = true -> strip_blanks l = EmptyString.
Proof.
  unfold strip_blanks. induction l as [|c l IH]; [reflexivity|].
  cbn [blank_line leading_blanks]. intros H. apply andb_prop in H as [Hc H].
  rewrite Hc. cbn [str_drop]. now apply IH.
Qed.

Lemma strip_blanks_drop (l : string) :
  forall n, n <= leading_blanks l -> strip_blanks (str_drop n l) = strip_blanks l.
Proof.
  unfold strip_blanks.
  induction l as [|c l IH]; intros [|n] H; cbn [str_drop]; try reflexivity.
  cbn [leading_blanks] in *. destruct (is_blank c) eqn:Hc; [|lia].
  cbn [str_drop]. apply IH. lia.
Qed.

Lemma no_lf_drop (l : string) :
  forall n, no_lf l = true -> no_lf (str_drop n l) = true.
Proof.
  unfold no_lf. induction l as [|c l IH]; intros [|n] H; cbn [str_drop]; auto.
  cbn [str_all] in H. apply andb_prop in H as [_ H]. now apply IH.
Qed.

Lemma str_drop_0_map (ls : list string) : map (str_drop 0) ls = ls.
Proof. induction ls as [|l t IH]; [reflexivity|]. cbn [map]. now rewrite IH. Qed.

(** The two cases of [dedent]. *)
Lemma dedent_cases (text : string) :
  (Forall (fun l => blank_line l = true) (split_nl text) /\ dedent text = text) \/
  (exists n,
     Exists (fun l => blank_line l = false /\ leading_blanks l = n) (split_nl text) /\
     Forall (fun l => blank_line l = false -> n <= leading_blanks l) (split_nl text) /\
     dedent text = join nl (map (str_drop n) (split_nl text))).
Proof.
  unfold dedent.
  destruct (fold_indent_inf (split_nl text)) as [[Hall Hf]|(n & Hf & Hall & Hex)].
  - left. rewrite Hf. split; [assumption|reflexivity].
  - right. exists n. rewrite Hf. split; [assumption|]. split; [assumption|].
    f_equal. apply map_ext. intros x. apply str_slice_from.
Qed.

Lemma split_nl_dedented (text : string) (n : nat) :
  split_nl (join nl (map (str_drop n) (split_nl text)))
  = map (str_drop n) (split_nl text).
Proof.
  apply split_join_nl.
  - pose proof (split_nl_nonempty text) as H.
    destruct (split_nl text); [congruence|discriminate].
  - pose proof (split_nl_no_lf text) as H. induction H as [|l t Hl Ht IH];
      cbn [map]; constructor; [now apply no_lf_drop|exact IH].
Qed.

(** X1: [dedent] is idempotent: a text that has been dedented is left as
    it is by a second pass. *)
Theorem dedent_idempotent (text : string) : dedent (dedent text) = dedent text.
Proof.
  destruct (dedent_cases text) as [[_ H]|(n & Hex & Hall & Hd)].
  - rewrite H. exact H.
  - rewrite Hd.
    destruct (dedent_cases (join nl (map (str_drop n) (split_nl text))))
      as [[Hb _]|(m & _ & Hm & Hd2)].
    + exfalso. rewrite split_nl_dedented in Hb.
      apply Exists_exists in Hex. destruct Hex as (l & Hin & Hnb & Hl).
      rewrite Forall_forall in Hb.
      specialize (Hb (str_drop n l) (in_map _ _ _ Hin)).
      rewrite blank_line_drop in Hb by lia. congruence.
    + rewrite Hd2, split_nl_dedented.
      assert (m = 0) as ->.
      { rewrite split_nl_dedented in Hm.
        apply Exists_exists in Hex. destruct Hex as (l & Hin & Hnb & Hl).
        rewrite Forall_forall in Hm.
        specialize (Hm (str_drop n l) (in_map _ _ _ Hin)).
        rewrite blank_line_drop, leading_blanks_drop in Hm by lia.
        specialize (Hm Hnb). lia. }
      now rewrite str_drop_0_map.
Qed.

(** X2: [dedent] only removes leading spaces and tabs: the result has
    the same number of lines, and every line keeps what follows its
    leading spaces and tabs. *)
Theorem dedent_keeps_line_text (text : string) :
  map strip_blanks (split_nl (dedent text)) = map strip_blanks (split_nl text).
Proof.
  destruct (dedent_cases text) as [[_ ->]|(n & _ & Hall & ->)]; [reflexivity|].
  rewrite split_nl_dedented, map_map. apply map_ext_in. intros l Hin.
  rewrite Forall_forall in Hall. specialize (Hall l Hin).
  destruct (blank_line l) eqn:Hb.
  - rewrite !strip_blanks_blank; auto. now apply blank_line_drop_any.
  - apply strip_blanks_drop. now apply Hall.
Qed.

(** ** The region locator, further *)

Lemma find_start_bound (ls : list string) (name : string) :
  forall k r s, find_start ls name k = Some (r, s) ->
                k < s <= k + List.length ls /\
                exists l, nth_error ls (s - 1 - k) = Some l /\ opens r name l = true.
Proof.
  induction ls as [|l t IH]; intros k r s H; cbn [find_start] in H; [discriminate|].
  destruct (find (fun r0 => captures (m_start r0) l name) markers) as [r0|] eqn:F.
  - injection H as <- <-. split; [cbn [List.length]; lia|].
    exists l. replace (k + 1 - 1 - k) with 0 by lia. split; [reflexivity|].
    apply find_some in F. exact (proj2 F).
  - apply IH in H. destruct H as (Hb & x & Hx & Ho).
    split; [cbn [List.length]; lia|]. exists x. split; [|exact Ho].
    replace (s - 1 - k) with (S (s - 1 - (k + 1))) by lia. exact Hx.
Qed.

Lemma find_end_closing (r : Marker) (name : string) (ls : list string) :
  forall k c e, find_end r name ls k c = Some e ->
                k <= e < k + List.length ls /\
                exists l, nth_error ls (e - k) = Some l /\
                          opens r name l = false /\ closes r name l = true.
Proof.
  induction ls as [|l t IH]; intros k c e H; cbn [find_end] in H; [discriminate|].
  assert (forall c', find_end r name t (k + 1) c' = Some e ->
            k <= e < k + List.length (l :: t) /\
            exists x, nth_error (l :: t) (e - k) = Some x /\
                      opens r name x = false /\ closes r name x = true) as Hrec.
  { intros c' Hc'. apply IH in Hc'. destruct Hc' as (Hb & x & Hx & Ho).
    split; [cbn [List.length]; lia|]. exists x. split; [|exact Ho].
    replace (e - k) with (S (e - (k + 1))) by lia. exact Hx. }
  destruct (captures (m_start r) l name) eqn:Hs; [now apply (Hrec (c + 1)%Z)|].
  destruct (captures (m_end r) l name || captures (m_end r) l "") eqn:He;
    [|now apply (Hrec c)].
  destruct (c - 1 =? 0)%Z; [|now apply (Hrec (c - 1)%Z)].
  injection H as <-. split; [cbn [List.length]; lia|].
  exists l. rewrite Nat.sub_diag. split; [reflexivity|]. split; assumption.
Qed.

(** X3: the span [findRegion] returns lies inside the file: the line
    before [start] is a start marker of the chosen dialect that names the
    region, the line at [end] is an end marker of that dialect (with the
    region's name or without a name) and is not such a start marker, and
    [1 <= start <= end < lines.length]. *)
Theorem findRegion_span (ls : list string) (name : string) (d : RegionData) :
  findRegion ls name = Some d ->
  1 <= start d <= end_ d /\ end_ d < List.length ls /\
  (exists l, nth_error ls (start d - 1) = Some l /\ opens (re d) name l = true) /\
  (exists l, nth_error ls (end_ d) = Some l /\
             opens (re d) name l = false /\ closes (re d) name l = true).
Proof.
  unfold findRegion.
  destruct (find_start ls name 0) as [[r s]|] eqn:Fs; [|discriminate].
  destruct (find_end r name (skipn s ls) s 1%Z) as [e|] eqn:Fe; [|discriminate].
  intros [= <-]. cbn [re start end_].
  apply find_start_bound in Fs. destruct Fs as (Hs & x & Hx & Hox).
  apply find_end_closing in Fe. destruct Fe as (He & y & Hy & Hoy).
  rewrite length_skipn in He. rewrite nth_error_skipn in Hy.
  split; [lia|]. split; [lia|]. split.
  - exists x. rewrite Nat.sub_0_r in Hx. now split.
  - exists y. replace (s + (e - s)) with e in Hy by lia. now split.
Qed.

Lemma findRegion_span_witness :
  1 <= 2 <= 5 /\ 5 < 7 /\
  (exists l, nth_error (split_lines region_file) (2 - 1) = Some l /\
             opens html_dialect "test" l = true) /\
  (exists l, nth_error (split_lines region_file) 5 = Some l /\
             opens html_dialect "test" l = false /\
             closes html_dialect "test" l = true).
Proof.
  apply (findRegion_span (split_lines region_file) "test"
           {| re := html_dialect; start := 2; end_ := 5 |}).
  vm_compute. reflexivity.
Defined.

Lemma find_start_app (ls extra : list string) (name : string) :
  forall k r s, find_start ls name k = Some (r, s) ->
                find_start (ls ++ extra) name k = Some (r, s).
Proof.
  induction ls as [|l t IH]; intros k r s H; cbn [find_start app] in *;
    [discriminate|].
  destruct (find (fun r0 => captures (m_start r0) l name) markers);
    [exact H|now apply IH].
Qed.

Lemma find_end_app (r : Marker) (name : string) (ls extra : list string) :
  forall k c e, find_end r name ls k c = Some e ->
                find_end r name (ls ++ extra) k c = Some e.
Proof.
  induction ls as [|l t IH]; intros k c e H; cbn [find_end app] in *;
    [discriminate|].
  destruct (captures (m_start r) l name); [now apply IH|].
  destruct (captures (m_end r) l name || captures (m_end r) l ""); [|now apply IH].
  destruct (c - 1 =? 0)%Z; [exact H|now apply IH].
Qed.

(** X4: what follows the closing marker does not matter: a region found
    in a file is found, with the same span, in every file that continues
    it. *)
Theorem findRegion_ignores_what_follows
        (ls extra : list string) (name : string) (d : RegionData) :
  findRegion ls name = Some d -> findRegion (ls ++ extra) name = Some d.
Proof.
  unfold findRegion.
  destruct (find_start ls name 0) as [[r s]|] eqn:Fs; [|discriminate].
  destruct (find_end r name (skipn s ls) s 1%Z) as [e|] eqn:Fe; [|discriminate].
  intros [= <-].
  rewrite (find_start_app ls extra name 0 r s Fs).
  apply find_start_bound in Fs. destruct Fs as (Hs & _).
  rewrite skipn_app. replace (s - List.length ls) with 0 by lia.
  cbn [skipn]. now rewrite (find_end_app r name _ extra s 1%Z e Fe).
Qed.

Lemma findRegion_ignores_what_follows_witness :
  findRegion (split_lines region_file ++ ["<!-- #endregion test -->"; "tail"]) "test"
  = Some {| re := html_dialect; start := 2; end_ := 5 |}.
Proof.
  apply (findRegion_ignores_what_follows (split_lines region_file)).
  vm_compute. reflexivity.
Defined.

(** ** Line ends and line ranges, further *)

(** X5: the two resolvers cut a file into the same lines: splitting at
    LF with an optional CR before it, as the include resolver does, gives
    the lines the snippet resolver gets by turning CR LF into LF and
    splitting at LF; so both look for a region in the same list. *)
Theorem include_and_snippet_lines_agree (raw : string) :
  split_lines raw = split_nl (crlf_to_lf raw) /\
  forall name,
    findRegion (split_lines raw) name = findRegion (split_nl (crlf_to_lf raw)) name.
Proof.
  split; [symmetry; apply split_nl_crlf_to_lf|].
  intros name. now rewrite split_nl_crlf_to_lf.
Qed.

Lemma split_lines_nonempty (s : string) : split_lines s <> [].
Proof. rewrite <- split_nl_crlf_to_lf. apply split_nl_nonempty. Qed.

Lemma skipn_last {A : Type} (l : list A) (d : A) :
  l <> [] -> skipn (List.length l - 1) l = [last l d].
Proof.
  intros H. rewrite (app_removelast_last d H) at 1 2.
  rewrite length_app. cbn [List.length]. rewrite Nat.add_sub.
  rewrite skipn_app, Nat.sub_diag, skipn_all. reflexivity.
Qed.

Section IncludeEdges.

Variable E : Env.
Variable srcDir : string.
Variable filePath : option string.
Variable stripFrontmatter : bool.
Variable self : string -> State -> option (string * State).

#[local] Abbreviation replacer :=
  (include_replacer E srcDir filePath stripFrontmatter self).

(** X6: a range with both bounds left out selects every line, and the
    lines are joined with LF: the directive is replaced by the expansion
    of the file with each CR LF turned into LF. *)
Theorem include_open_range_normalises_line_ends
        (m path includePath content : string) (st : State) :
  plain_path path ->
  target_file E srcDir filePath path includePath content ->
  replacer m [Some (path ++ "{,}")%string] st =
    self (crlf_to_lf content) (push includePath st).
Proof.
  intros Hp Hfile.
  change "{,}" with (range_text "" "").
  destruct (range_alone path "" "" Hp eq_refl eq_refl) as [Hrg Hrn].
  pose proof (include_target_range path "" "" Hp eq_refl eq_refl) as Ht.
  rewrite (include_replacer_payload E srcDir filePath stripFrontmatter self)
    by apply payload_not_empty.
  rewrite Ht, Hrg, Hrn.
  rewrite (load_include_meta E srcDir filePath stripFrontmatter
             path includePath content) by (auto; reflexivity).
  cbn [select_region fst snd select_range groups elem_or_empty nth].
  change (truthy "") with false. cbn iota.
  unfold arr_slice, slice_from, slice_to.
  rewrite Nat.sub_0_r. cbn [skipn]. rewrite firstn_all.
  now rewrite join_split_lines.
Qed.

(** X7: a range whose start is 0 does not begin at the first line: the
    start becomes the index -1, which counts from the end, so the
    directive selects the last line of the file when the end bound
    reaches it, and nothing otherwise. *)
Theorem include_range_from_zero
        (m path a b includePath content : string) (st : State) :
  plain_path path ->
  str_all is_digit a = true -> str_all is_digit b = true ->
  truthy a = true -> parseInt a = 0%Z ->
  target_file E srcDir filePath path includePath content ->
  replacer m [Some (path ++ range_text a b)%string] st =
    self (if List.length (split_lines content) <=? range_hi b (split_lines content)
          then last (split_lines content) EmptyString else EmptyString)
         (push includePath st).
Proof.
  intros Hp Ha Hb Ta Za Hfile.
  destruct (range_alone path a b Hp Ha Hb) as [Hrg Hrn].
  pose proof (include_target_range path a b Hp Ha Hb) as Ht.
  rewrite (include_replacer_payload E srcDir filePath stripFrontmatter self)
    by apply payload_not_empty.
  rewrite Ht, Hrg, Hrn.
  rewrite (load_include_meta E srcDir filePath stripFrontmatter
             path includePath content) by (auto; reflexivity).
  cbn [select_region fst snd select_range groups elem_or_empty nth].
  rewrite Ta, Za. f_equal.
  set (ls := split_lines content).
  assert (ls <> []) as Hne by apply split_lines_nonempty.
  assert (0 < List.length ls) as Hlen by (destruct ls; [congruence|cbn; lia]).
  unfold arr_slice, slice_from, slice_to, range_hi.
  assert (clamp_index (List.length ls) (0 - 1) = List.length ls - 1) as ->.
  { unfold clamp_index. cbn [Z.sub Z.add Z.opp Z.ltb Z.compare]. lia. }
  rewrite (skipn_last ls EmptyString Hne).
  destruct (truthy b).
  - destruct (Z_of_nat_complete (parseInt b) (parseInt_nonneg b)) as [B HB].
    rewrite HB, clamp_index_nat, Nat2Z.id.
    destruct (Nat.leb_spec (List.length ls) B).
    + rewrite Nat.min_r by lia.
      replace (List.length ls - (List.length ls - 1)) with 1 by lia. reflexivity.
    + rewrite Nat.min_l by lia.
      replace (B - (List.length ls - 1)) with 0 by lia. reflexivity.
  - rewrite Nat.leb_refl.
    replace (List.length ls - (List.length ls - 1)) with 1 by lia. reflexivity.
Qed.

End IncludeEdges.

Definition windows_env : Env :=
  example_env
    [("/docs/win.md", ("one" ++ String CR (String LF "two"))%string)].

Lemma include_open_range_normalises_line_ends_witness :
  include_replacer windows_env "/docs" (Some "/docs/main.md") false return_content
    "<!--@include: ./win.md{,}-->" [Some "./win.md{,}"] empty_state =
  Some ("one
two", push "/docs/win.md" empty_state).
Proof.
  apply (include_open_range_normalises_line_ends windows_env "/docs"
           (Some "/docs/main.md") false return_content
           "<!--@include: ./win.md{,}-->" "./win.md" "/docs/win.md"
           ("one" ++ String CR (String LF "two"))%string empty_state).
  - split; reflexivity.
  - repeat split; reflexivity.
Defined.

Lemma include_range_from_zero_witness :
  include_replacer docs_env "/docs" (Some "/docs/main.md") false return_content
    "<!--@include: ./test.md{0,}-->" [Some "./test.md{0,}"] empty_state =
  Some ("Line 5", push "/docs/test.md" empty_state) /\
  include_replacer docs_env "/docs" (Some "/docs/main.md") false return_content
    "<!--@include: ./test.md{0,3}-->" [Some "./test.md{0,3}"] empty_state =
  Some (EmptyString, push "/docs/test.md" empty_state).
Proof.
  split.
  - apply (include_range_from_zero docs_env "/docs" (Some "/docs/main.md") false
             return_content "<!--@include: ./test.md{0,}-->" "./test.md" "0" ""
             "/docs/test.md" five_lines empty_state).
    + split; reflexivity.
    + reflexivity.
    + reflexivity.
    + reflexivity.
    + reflexivity.
    + repeat split; reflexivity.
  - apply (include_range_from_zero docs_env "/docs" (Some "/docs/main.md") false
             return_content "<!--@include: ./test.md{0,3}-->" "./test.md" "0" "3"
             "/docs/test.md" five_lines empty_state).
    + split; reflexivity.
    + reflexivity.
    + reflexivity.
    + reflexivity.
    + reflexivity.
    + repeat split; reflexivity.
Defined.

(** ** The expansion as a whole *)

(** The state [st] with further paths and warnings appended. *)
Definition extend (st : State) (l : list string) (w : list LogEntry) : State :=
  {| includes := includes st ++ l; warnings := warnings st ++ w |}.



Lemma push_extend (p : string) (st : State) l w :
  push p (extend st l w) = extend st (l ++ [p]) w.
Proof. unfold push, extend. cbn. now rewrite app_assoc. Qed.



Section Expansion.

Variable E : Env.
Variable srcDir : string.
Variable filePath : option string.
Variable stripFrontmatter : bool.

#[local] Abbreviation loaded := (loaded_by E srcDir filePath stripFrontmatter).
#[local] Abbreviation process := (processIncludes E srcDir filePath stripFrontmatter).
#[local] Abbreviation includeReplacer :=
  (include_replacer E srcDir filePath stripFrontmatter).






(** Every path a run of the expansion appends to [includes] is the path
    of a file loaded by a directive of the text, or by a directive of a
    text loaded that way. *)
Lemma processIncludes_appends_contributors (fuel : nat) :
  forall content st out st',
    process fuel content st = Some (out, st') ->
    exists l, includes st' = includes st ++ l /\
              forall p, In p l ->
                        contributes E srcDir filePath stripFrontmatter content p.
Proof.
  induction fuel as [|fuel IH]; intros content st out st' H; [discriminate|].
  cbn [processIncludes] in H.
  assert (forall ps st out st',
             incl ps (pieces includesRE content) ->
             replace_pieces_opt (includeReplacer (process fuel)) ps st
             = Some (out, st') ->
             exists l, includes st' = includes st ++ l /\
                       forall p, In p l ->
                                 contributes E srcDir filePath stripFrontmatter
                                             content p) as Hps.
  { clear H st out st'.
    induction ps as [|[c|m g] t IHt]; intros st out st' Hin H;
      cbn [replace_pieces_opt] in H.
    - injection H as _ <-. exists []. split; [now rewrite app_nil_r|intros ? []].
    - destruct (replace_pieces_opt _ t st) as [[o s1]|] eqn:Ht; [|discriminate].
      injection H as _ <-. eapply IHt; [|exact Ht].
      intros x Hx. apply Hin. now right.
    - destruct (includeReplacer (process fuel) m g st) as [[r0 s0]|] eqn:H0;
        [|discriminate].
      destruct (replace_pieces_opt _ t s0) as [[o s1]|] eqn:Ht; [|discriminate].
      injection H as _ <-.
      destruct (IHt s0 o s1) as (l1 & Hl1 & Hc1);
        [intros x Hx; apply Hin; now right|exact Ht|].
      assert (exists l0, includes s0 = includes st ++ l0 /\
                         forall p, In p l0 ->
                                   contributes E srcDir filePath stripFrontmatter
                                               content p) as (l0 & Hl0 & Hc0).
      { destruct (string_dec (elem_or_empty g 0) EmptyString) as [He|He].
        - rewrite include_replacer_empty in H0 by assumption.
          injection H0 as _ <-. exists []. split; [now rewrite app_nil_r|intros ? []].
        - destruct (loaded (elem_or_empty g 0)) as [[ip c]|] eqn:Hld.
          + destruct (include_replacer_loaded E srcDir filePath stripFrontmatter
                        (process fuel) m g st ip c He Hld) as (sa & _ & Hsa & Heq).
            rewrite Heq in H0. destruct (IH _ _ _ _ H0) as (l & Hl & Hc).
            assert (includes_file E srcDir filePath stripFrontmatter content ip c)
              as Hfile.
            { exists m, g. split; [apply Hin; now left|]. now split. }
            exists (ip :: l). split.
            * rewrite Hl. cbn [push includes]. rewrite Hsa.
              now rewrite <- app_assoc.
            * intros p [<-|Hp].
              -- eapply contributes_direct. exact Hfile.
              -- eapply contributes_nested; [exact Hfile|now apply Hc].
          + rewrite include_replacer_failed in H0 by assumption.
            injection H0 as _ <-. exists [].
            split; [cbn; now rewrite app_nil_r|intros ? []]. }
      exists (l0 ++ l1). split.
      + now rewrite Hl1, Hl0, app_assoc.
      + intros p Hp. apply in_app_or in Hp. destruct Hp; auto. }
  apply (Hps _ st out st' (incl_refl _) H).
Qed.

(** X9: the fuel is no part of the result: when the include graph under
    a text is at most [d] levels deep, the expansion returns, and every
    run with fuel [d] or more returns the same text and state. *)
Theorem expansion_independent_of_fuel (d : nat) (content : string) (st : State) :
  bounded E srcDir filePath stripFrontmatter d content = true ->
  exists r, forall fuel, d <= fuel -> process fuel content st = Some r.
Proof.
  intros Hb.
  destruct (processIncludes_returns E srcDir filePath stripFrontmatter d content st Hb)
    as (out & st' & Hrun).
  exists (out, st'). intros fuel Hle. induction Hle as [|fuel Hle IHle].
  - exact Hrun.
  - now apply processIncludes_fuel_mono.
Qed.

(** X10: a text whose include directives all have an empty payload or
    fail to load is returned character for character: the expansion
    records no path, and the visitor leaves the [html] node in place. *)
Theorem unresolved_includes_leave_text (fuel : nat) (content : string) (st : State) :
  (forall m g, In (PMatch m g) (pieces includesRE content) ->
               elem_or_empty g 0 = EmptyString \/
               loaded (elem_or_empty g 0) = None) ->
  exists st',
    process (S fuel) content st = Some (content, st') /\
    includes st' = includes st /\
    visitor E srcDir filePath stripFrontmatter (S fuel) (html content) st
    = Some (None, st').
Proof.
  intros Hall.
  assert (forall ps st,
             incl ps (pieces includesRE content) ->
             exists st',
               replace_pieces_opt (includeReplacer (process fuel)) ps st
               = Some (pieces_text ps, st') /\ includes st' = includes st) as Hps.
  { induction ps as [|[c|m g] t IHt]; intros s Hin; cbn [replace_pieces_opt].
    - now exists s.
    - destruct (IHt s) as (s' & -> & Hs'); [intros x Hx; apply Hin; now right|].
      now exists s'.
    - assert (exists s0, includeReplacer (process fuel) m g s = Some (m, s0) /\
                         includes s0 = includes s) as (s0 & -> & Hs0).
      { destruct (string_dec (elem_or_empty g 0) EmptyString) as [He|He].
        - rewrite include_replacer_empty by assumption. now exists s.
        - destruct (Hall m g (Hin _ (or_introl eq_refl))) as [?|Hl]; [congruence|].
          rewrite include_replacer_failed by assumption.
          eexists. split; reflexivity. }
      destruct (IHt s0) as (s' & -> & Hs'); [intros x Hx; apply Hin; now right|].
      exists s'. split; [reflexivity|congruence]. }
  destruct (Hps _ st (incl_refl _)) as (st' & Hrun & Hinc).
  rewrite pieces_text_id in Hrun.
  exists st'. split; [exact Hrun|]. split; [exact Hinc|].
  cbn [visitor]. destruct (test includesRE content) eqn:T.
  - cbn [processIncludes]. rewrite Hrun. now rewrite String.eqb_refl.
  - cbn [processIncludes] in Hrun.
    rewrite replace_pieces_opt_plain in Hrun by now apply test_false_no_match.
    now injection Hrun as _ <-.
Qed.

(** X11: whatever goes wrong in the [try] block is handled as a missing
    file: when the document has no path to resolve against, when the
    file cannot be read, or when the front matter of an existing [.md]
    file cannot be parsed, the directive is replaced by itself, the one
    warning [Include file not found] is appended and no path is
    recorded. *)
Theorem include_errors_reported_as_not_found
        self (m : string) (g : list (option string)) (st : State) :
  elem_or_empty g 0 <> EmptyString ->
  includePath_of E srcDir filePath (include_target (elem_or_empty g 0)) = None \/
  (exists p,
      includePath_of E srcDir filePath (include_target (elem_or_empty g 0)) = Some p /\
      readFileSync E p = None) \/
  (exists p raw,
      includePath_of E srcDir filePath (include_target (elem_or_empty g 0)) = Some p /\
      existsSync E p = true /\ readFileSync E p = Some raw /\
      exec regionRE (elem_or_empty g 0) = None /\
      exec rangeRE (elem_or_empty g 0) = None /\
      path_extname E p = ".md" /\ stripFrontmatter = true /\
      matter_content E raw = None) ->
  includeReplacer self m g st =
  Some (m, warn (not_found_warning (include_target (elem_or_empty g 0))) st).
Proof.
  intros Hne H. apply include_replacer_failed; [assumption|].
  unfold loaded_by, load_include.
  destruct H as [->|[(p & -> & Hrd)|(p & raw & -> & Hex & Hrd & -> & -> & Hext & -> & Hm)]].
  - reflexivity.
  - rewrite Hrd. now destruct (negb (existsSync E p)).
  - rewrite Hex, Hrd, Hext. cbn [negb is_some orb andb select_region select_range].
    cbn. now rewrite Hm.
Qed.

(** X12: the file an include whose path starts with [@] names, and the
    text loaded from it, do not depend on the path of the including
    document, also when it has none: the path is resolved against the
    source directory alone.  This is true of the load only; the
    directives inside the loaded text are expanded by the recursive
    call, which resolves their relative paths against the including
    document. *)
Theorem at_include_ignores_document_path (fp : option string) (m1 : string) :
  char_is 0 (include_target m1) "@" = true ->
  includePath_of E srcDir fp (include_target m1) =
  Some (path_join E srcDir
          (str_drop (if char_is 1 (include_target m1) "/" then 2 else 1)
                    (include_target m1))) /\
  loaded_by E srcDir fp stripFrontmatter m1 = loaded m1.
Proof.
  intros H. split.
  - unfold includePath_of. rewrite H. do 2 f_equal.
    destruct (char_is 1 _ "/").
    + apply (str_slice_from _ 2).
    + apply (str_slice_from _ 1).
  - unfold loaded_by, load_include, includePath_of. now rewrite H.
Qed.

End Expansion.

Definition nested_doc : string := "<!--@include: ./a.md-->".



Lemma expansion_independent_of_fuel_witness :
  exists r, forall fuel,
      3 <= fuel ->
      processIncludes docs_env "/docs" (Some "/docs/main.md") false fuel nested_doc
                      empty_state = Some r.
Proof.
  apply (expansion_independent_of_fuel docs_env "/docs" (Some "/docs/main.md") false
           3 nested_doc empty_state).
  vm_compute. reflexivity.
Defined.

Lemma unresolved_includes_leave_text_witness :
  exists st',
    processIncludes docs_env "/docs" (Some "/docs/main.md") false 1
                    missing_include_doc empty_state
    = Some (missing_include_doc, st') /\
    includes st' = includes empty_state /\
    visitor docs_env "/docs" (Some "/docs/main.md") false 1
            (html missing_include_doc) empty_state
    = Some (None, st').
Proof.
  apply (unresolved_includes_leave_text docs_env "/docs" (Some "/docs/main.md") false
           0 missing_include_doc empty_state).
  intros m g Hin. vm_compute in Hin.
  repeat (destruct Hin as [Hin|Hin]; [try discriminate Hin|]).
  - injection Hin as <- <-. right. vm_compute. reflexivity.
  - destruct Hin.
Defined.

(** A world where every path exists and none can be read, as when the
    paths are directories. *)
Definition unreadable_env : Env :=
  {| path_join := fun a b => (a ++ "/" ++ strip_dot_slash b)%string;
     path_resolve := fun a b => (a ++ "/" ++ strip_dot_slash b)%string;
     path_dirname := dirname_simple;
     path_extname := extname_simple;
     existsSync := fun _ => true;
     readFileSync := fun _ => None;
     matter_content := Some;
     fromMarkdown := fun s => [html s] |}.

Lemma include_errors_reported_as_not_found_witness :
  include_replacer unreadable_env "/docs" (Some "/docs/main.md") true return_content
    "<!--@include: ./dir-->" [Some "./dir"] empty_state =
  Some ("<!--@include: ./dir-->", warn (not_found_warning "./dir") empty_state).
Proof.
  apply (include_errors_reported_as_not_found unreadable_env "/docs"
           (Some "/docs/main.md") true return_content
           "<!--@include: ./dir-->" [Some "./dir"] empty_state).
  - discriminate.
  - right. left. exists "/docs/dir". split; reflexivity.
Defined.

Lemma at_include_ignores_document_path_witness :
  includePath_of docs_env "/docs" None "@/test.md" = Some "/docs/test.md" /\
  loaded_by docs_env "/docs" None false "@/test.md" =
  loaded_by docs_env "/docs" (Some "/elsewhere/main.md") false "@/test.md".
Proof.
  apply (at_include_ignores_document_path docs_env "/docs"
           (Some "/elsewhere/main.md") false None "@/test.md").
  reflexivity.
Defined.

(** What the load does not decide: a file included through [@] that
    itself includes [./b.md] is expanded with the [b.md] beside the
    including document. *)
Definition two_documents_env : Env :=
  example_env
    [("/src/a.md", "<!--@include: ./b.md-->");
     ("/x/b.md", "X")].

Example nested_relative_include_follows_document :
  processIncludes two_documents_env "/src" (Some "/x/main.md") false 3
                  "<!--@include: @/a.md-->" empty_state =
  Some ("X", {| includes := ["/src/a.md"; "/x/b.md"]; warnings := [] |}) /\
  processIncludes two_documents_env "/src" (Some "/y/main.md") false 3
                  "<!--@include: @/a.md-->" empty_state =
  Some ("<!--@include: ./b.md-->",
        {| includes := ["/src/a.md"];
           warnings := [not_found_warning "./b.md"] |}).
Proof. split; vm_compute; reflexivity. Qed.

(** ** What the plugin lists as dependencies *)

Section PluginDependencies.

Variable E : Env.
Variable srcDir : string.
Variable filePath : option string.
Variable stripFrontmatter : bool.

#[local] Abbreviation snippetReplacer := (snippet_replacer E srcDir filePath).
#[local] Abbreviation snippets := (processSnippets E srcDir filePath).

(** A snippet directive of [value] whose file [p] exists and is read. *)
Definition snippet_file (value p : string) : Prop :=
  exists m g,
    In (PMatch m g) (pieces snippetRE value) /\
    elem_or_empty g 0 <> EmptyString /\
    snippetPath_of E srcDir filePath (snippet_atPresent (elem_or_empty g 0))
                   (snippet_token (elem_or_empty g 0)) = Some p /\
    existsSync E p = true /\
    readFileSync E p <> None.

Lemma snippet_replacer_appends (m : string) (g : list (option string)) (st : State) :
  includes (snd (snippetReplacer m g st)) = includes st \/
  exists p,
    includes (snd (snippetReplacer m g st)) = includes st ++ [p] /\
    elem_or_empty g 0 <> EmptyString /\
    snippetPath_of E srcDir filePath (snippet_atPresent (elem_or_empty g 0))
                   (snippet_token (elem_or_empty g 0)) = Some p /\
    existsSync E p = true /\
    readFileSync E p <> None.
Proof.
  unfold snippet_replacer.
  destruct (elem_or_empty g 0) as [|c r] eqn:Hr; [now left|].
  cbn [String.length Nat.eqb]. unfold load_snippet.
  destruct (snippetPath_of _ _ _ _ _) as [p|] eqn:Hp; [|now left].
  destruct (existsSync E p) eqn:Hex; cbn [negb]; [|now left].
  destruct (readFileSync E p) as [raw|] eqn:Hrd; [|now left].
  right. exists p. cbn [snd push includes].
  split; [reflexivity|]. split; [discriminate|].
  split; [reflexivity|]. split; [exact Hex|]. rewrite Hrd. discriminate.
Qed.

Lemma processSnippets_appends_files (value : string) (st : State) :
  exists l, includes (snd (snippets value st)) = includes st ++ l /\
            forall p, In p l -> snippet_file value p.
Proof.
  unfold processSnippets.
  assert (forall ps st,
             incl ps (pieces snippetRE value) ->
             exists l,
               includes (snd (replace_pieces snippetReplacer ps st))
               = includes st ++ l /\
               forall p, In p l -> snippet_file value p) as Hps.
  { induction ps as [|[c|m g] t IHt]; intros s Hin; cbn [replace_pieces].
    - exists []. split; [cbn; now rewrite app_nil_r|intros ? []].
    - destruct (IHt s) as (l & Hl & Hc); [intros x Hx; apply Hin; now right|].
      destruct (replace_pieces snippetReplacer t s) as [o s1]. now exists l.
    - pose proof (snippet_replacer_appends m g s) as H0.
      destruct (snippetReplacer m g s) as [r0 s0]. cbn [snd] in H0.
      destruct (IHt s0) as (l & Hl & Hc); [intros x Hx; apply Hin; now right|].
      destruct (replace_pieces snippetReplacer t s0) as [o s1]. cbn [snd] in *.
      destruct H0 as [H0|(p & H0 & Hne & Hp & Hex & Hrd)].
      + exists l. split; [now rewrite Hl, H0|exact Hc].
      + exists (p :: l). split.
        * rewrite Hl, H0. now rewrite <- app_assoc.
        * intros q [<-|Hq]; [|now apply Hc].
          exists m, g. split; [apply Hin; now left|]. now repeat split. }
  apply Hps. apply incl_refl.
Qed.

(** X13: the list the plugin attaches holds only files that were read:
    every path in it is the path of a file that contributes to the
    expansion of an include directive of a visited [html] node, or the
    path of an existing file read for a snippet directive of a visited
    [text] node. *)
Theorem dependencies_are_loaded_files
        (fuel : nat) (visited : list Node) (deps : list string) :
  remarkInclude E srcDir filePath stripFrontmatter fuel visited = Some deps ->
  forall p,
    In p deps ->
    (exists value, In (html value) visited /\
                   contributes E srcDir filePath stripFrontmatter value p) \/
    (exists value, In (text value) visited /\ snippet_file value p).
Proof.
  unfold remarkInclude.
  assert (forall vs st st',
             incl vs visited ->
             visit_all E srcDir filePath stripFrontmatter fuel vs st = Some st' ->
             exists l,
               includes st' = includes st ++ l /\
               forall p, In p l ->
                 (exists value, In (html value) visited /\
                                contributes E srcDir filePath stripFrontmatter
                                            value p) \/
                 (exists value, In (text value) visited /\ snippet_file value p))
    as Hall.
  { induction vs as [|n t IH]; intros st st' Hin H; cbn [visit_all] in H.
    - injection H as <-. exists []. split; [now rewrite app_nil_r|intros ? []].
    - destruct (visitor E srcDir filePath stripFrontmatter fuel n st)
        as [[r s1]|] eqn:Hv; [|discriminate].
      destruct (IH s1 st') as (l1 & Hl1 & Hc1);
        [intros x Hx; apply Hin; now right|exact H|].
      assert (exists l0,
                 includes s1 = includes st ++ l0 /\
                 forall p, In p l0 ->
                   (exists value, In (html value) visited /\
                                  contributes E srcDir filePath stripFrontmatter
                                              value p) \/
                   (exists value, In (text value) visited /\ snippet_file value p))
        as (l0 & Hl0 & Hc0).
      { assert (In n visited) as Hn by (apply Hin; now left).
        destruct n as [value|value|]; cbn [visitor] in Hv.
        - destruct (test includesRE value).
          + destruct (processIncludes E srcDir filePath stripFrontmatter fuel value st)
              as [[o s2]|] eqn:Hp; [|discriminate].
            injection Hv as _ <-.
            destruct (processIncludes_appends_contributors
                        E srcDir filePath stripFrontmatter fuel _ _ _ _ Hp)
              as (l & Hl & Hc).
            exists l. split; [exact Hl|]. intros p Hp'. left. exists value.
            split; [exact Hn|now apply Hc].
          + injection Hv as _ <-. exists [].
            split; [now rewrite app_nil_r|intros ? []].
        - destruct (test snippetRE value).
          + destruct (processSnippets_appends_files value st) as (l & Hl & Hc).
            destruct (snippets value st) as [o s2]. cbn [snd] in Hl.
            injection Hv as _ <-.
            exists l. split; [exact Hl|]. intros p Hp'. right. exists value.
            split; [exact Hn|now apply Hc].
          + injection Hv as _ <-. exists [].
            split; [now rewrite app_nil_r|intros ? []].
        - injection Hv as _ <-. exists [].
          split; [now rewrite app_nil_r|intros ? []]. }
      exists (l0 ++ l1). split; [now rewrite Hl1, Hl0, app_assoc|].
      intros p Hp. apply in_app_or in Hp. destruct Hp; auto. }
  destruct (visit_all E srcDir filePath stripFrontmatter fuel visited
                      {| includes := []; warnings := [] |}) as [st'|] eqn:Hrun;
    [|discriminate].
  intros [= <-] p Hp.
  destruct (Hall visited _ st' (incl_refl _) Hrun) as (l & Hl & Hc).
  cbn [includes app] in Hl. rewrite Hl in Hp. now apply Hc.
Qed.

(** X14: whatever goes wrong in the [try] block of the snippet replacer
    is handled as a missing file: when the document has no path to
    resolve against or the file cannot be read, the directive is replaced
    by itself, the one warning [Snippet file not found] with the raw
    path is appended and no path is recorded. *)
Theorem snippet_errors_reported_as_not_found
        (m : string) (g : list (option string)) (st : State) :
  elem_or_empty g 0 <> EmptyString ->
  snippetPath_of E srcDir filePath (snippet_atPresent (elem_or_empty g 0))
                 (snippet_token (elem_or_empty g 0)) = None \/
  (exists p,
      snippetPath_of E srcDir filePath (snippet_atPresent (elem_or_empty g 0))
                     (snippet_token (elem_or_empty g 0)) = Some p /\
      readFileSync E p = None) ->
  snippetReplacer m g st = (m, warn (snippet_warning (elem_or_empty g 0)) st).
Proof.
  intros Hne H. apply snippet_replacer_failed; [assumption|].
  unfold load_snippet. destruct H as [->|(p & -> & Hrd)]; [reflexivity|].
  rewrite Hrd. now destruct (negb (existsSync E p)).
Qed.

Lemma load_snippet_none_state (a : bool) (tok : Token) (st st0 : State) :
  load_snippet E srcDir filePath a tok st = None ->
  load_snippet E srcDir filePath a tok st0 = None.
Proof.
  unfold load_snippet.
  destruct (snippetPath_of _ _ _ _ _) as [p|]; [|reflexivity].
  destruct (negb (existsSync E p)); [reflexivity|].
  destruct (readFileSync E p); [discriminate|reflexivity].
Qed.

(** X15: a text whose snippet directives all have an empty path or fail
    to load is returned character for character: no path is recorded
    and the visitor leaves the [text] node in place. *)
Theorem unresolved_snippets_leave_text (fuel : nat) (content : string) (st : State) :
  (forall m g, In (PMatch m g) (pieces snippetRE content) ->
               elem_or_empty g 0 = EmptyString \/
               load_snippet E srcDir filePath
                            (snippet_atPresent (elem_or_empty g 0))
                            (snippet_token (elem_or_empty g 0)) empty_state = None) ->
  fst (snippets content st) = content /\
  includes (snd (snippets content st)) = includes st /\
  visitor E srcDir filePath stripFrontmatter fuel (text content) st
  = Some (None, snd (snippets content st)).
Proof.
  intros Hall.
  assert (forall ps st,
             incl ps (pieces snippetRE content) ->
             fst (replace_pieces snippetReplacer ps st) = pieces_text ps /\
             includes (snd (replace_pieces snippetReplacer ps st)) = includes st)
    as Hps.
  { induction ps as [|[c|m g] t IHt]; intros s Hin; cbn [replace_pieces].
    - now split.
    - destruct (IHt s) as (H1 & H2); [intros x Hx; apply Hin; now right|].
      destruct (replace_pieces snippetReplacer t s) as [o s1]. cbn [fst snd] in *.
      split; [|exact H2]. cbn [pieces_text fold_right piece_text] in *.
      now rewrite H1.
    - assert (exists s0, snippetReplacer m g s = (m, s0) /\
                         includes s0 = includes s) as (s0 & -> & Hs0).
      { destruct (string_dec (elem_or_empty g 0) EmptyString) as [He|He].
        - unfold snippet_replacer. rewrite He. now exists s.
        - destruct (Hall m g (Hin _ (or_introl eq_refl))) as [?|Hl]; [congruence|].
          rewrite snippet_replacer_failed;
            [|assumption|now apply (load_snippet_none_state _ _ empty_state)].
          eexists. split; reflexivity. }
      destruct (IHt s0) as (H1 & H2); [intros x Hx; apply Hin; now right|].
      destruct (replace_pieces snippetReplacer t s0) as [o s1]. cbn [fst snd] in *.
      split; [|congruence]. cbn [pieces_text fold_right piece_text] in *.
      now rewrite H1. }
  destruct (Hps _ st (incl_refl _)) as (Htext & Hinc).
  rewrite pieces_text_id in Htext.
  split; [exact Htext|]. split; [exact Hinc|].
  cbn [visitor]. destruct (test snippetRE content) eqn:T.
  - unfold processSnippets in *.
    destruct (replace_pieces snippetReplacer (pieces snippetRE content) st)
      as [o s1]. cbn [fst snd] in *. subst o. now rewrite String.eqb_refl.
  - unfold processSnippets.
    rewrite replace_pieces_plain by now apply test_false_no_match.
    reflexivity.
Qed.

End PluginDependencies.

Lemma dependencies_are_loaded_files_witness :
  (exists value, In (html value) visited_example /\
                 contributes docs_env "/src" (Some "/docs/main.md") false
                             value "/docs/b.md") \/
  (exists value, In (text value) visited_example /\
                 snippet_file docs_env "/src" (Some "/docs/main.md") value
                              "/docs/b.md").
Proof.
  apply (dependencies_are_loaded_files docs_env "/src" (Some "/docs/main.md") false
           3 visited_example ["/docs/a.md"; "/docs/b.md"; "/src/example.js"]).
  - vm_compute. reflexivity.
  - right. now left.
Defined.

Lemma snippet_errors_reported_as_not_found_witness :
  snippet_replacer unreadable_env "/src" (Some "/docs/main.md")
    "<<< @/dir" [Some "@/dir"] empty_state =
  ("<<< @/dir", warn (snippet_warning "@/dir") empty_state).
Proof.
  apply (snippet_errors_reported_as_not_found unreadable_env "/src"
           (Some "/docs/main.md") "<<< @/dir" [Some "@/dir"] empty_state).
  - discriminate.
  - right. exists "/src/dir". split; vm_compute; reflexivity.
Defined.

Lemma unresolved_snippets_leave_text_witness :
  fst (processSnippets docs_env "/src" (Some "/docs/main.md")
                       missing_snippet_doc empty_state) = missing_snippet_doc /\
  includes (snd (processSnippets docs_env "/src" (Some "/docs/main.md")
                                 missing_snippet_doc empty_state))
  = includes empty_state /\
  visitor docs_env "/src" (Some "/docs/main.md") false 1
          (text missing_snippet_doc) empty_state
  = Some (None, snd (processSnippets docs_env "/src" (Some "/docs/main.md")
                                     missing_snippet_doc empty_state)).
Proof.
  apply (unresolved_snippets_leave_text docs_env "/src" (Some "/docs/main.md") false
           1 missing_snippet_doc empty_state).
  intros m g Hin. vm_compute in Hin.
  repeat (destruct Hin as [Hin|Hin]; [try discriminate Hin|]).
  - injection Hin as <- <-. right. vm_compute. reflexivity.
  - destruct Hin.
Defined.

(** ** The region locator and the lines before the region *)

(** A span moved down by [n] lines. *)
Definition shift (n : nat) (d : RegionData) : RegionData :=
  {| re := re d; start := n + start d; end_ := n + end_ d |}.

Lemma find_start_shift (ls : list string) (name : string) (n : nat) :
  forall k,
    find_start ls name (n + k) =
    option_map (fun x => (fst x, n + snd x)) (find_start ls name k).
Proof.
  induction ls as [|l t IH]; intros k; cbn [find_start option_map]; [reflexivity|].
  destruct (find (fun r => captures (m_start r) l name) markers).
  - cbn [option_map fst snd]. now rewrite Nat.add_assoc.
  - rewrite <- IH. now rewrite Nat.add_assoc.
Qed.

Lemma find_end_shift (r : Marker) (name : string) (ls : list string) (n : nat) :
  forall k c,
    find_end r name ls (n + k) c =
    option_map (fun e => n + e) (find_end r name ls k c).
Proof.
  induction ls as [|l t IH]; intros k c; cbn [find_end option_map]; [reflexivity|].
  destruct (captures (m_start r) l name);
    [rewrite <- IH; now rewrite Nat.add_assoc|].
  destruct (captures (m_end r) l name || captures (m_end r) l "");
    [|rewrite <- IH; now rewrite Nat.add_assoc].
  destruct (c - 1 =? 0)%Z; [reflexivity|].
  rewrite <- IH. now rewrite Nat.add_assoc.
Qed.

Lemma find_start_skip (pre ls : list string) (name : string) :
  (forall l r, In l pre -> In r markers -> opens r name l = false) ->
  forall k, find_start (pre ++ ls) name k = find_start ls name (List.length pre + k).
Proof.
  induction pre as [|l t IH]; intros Hpre k; [reflexivity|].
  cbn [app find_start List.length].
  destruct (find (fun r => captures (m_start r) l name) markers) as [r|] eqn:F.
  - apply find_some in F. destruct F as [Hin Hr].
    pose proof (Hpre l r (or_introl eq_refl) Hin) as Ho. unfold opens in Ho.
    congruence.
  - rewrite IH by (intros l' r' Hl' Hr'; apply Hpre; [now right|exact Hr']).
    f_equal. lia.
Qed.

(** X16: lines before the region that are no start marker naming it, in
    any dialect, only move the span: in a file that begins with such
    lines the region is found if and only if it is found in the rest,
    with the same dialect and with start and end moved by their
    number. *)
Theorem findRegion_after_unmarked_lines (pre ls : list string) (name : string) :
  (forall l r, In l pre -> In r markers -> opens r name l = false) ->
  findRegion (pre ++ ls) name =
  option_map (shift (List.length pre)) (findRegion ls name).
Proof.
  intros Hpre. unfold findRegion.
  rewrite (find_start_skip pre ls name Hpre 0).
  rewrite (find_start_shift ls name (List.length pre) 0).
  destruct (find_start ls name 0) as [[r s]|]; cbn [option_map fst snd];
    [|reflexivity].
  rewrite skipn_app.
  rewrite (skipn_all2 pre) by lia.
  replace (List.length pre + s - List.length pre) with s by lia.
  cbn [app]. rewrite (find_end_shift r name (skipn s ls) (List.length pre) s).
  now destruct (find_end r name (skipn s ls) s 1%Z).
Qed.

Lemma findRegion_after_unmarked_lines_witness :
  findRegion (["# Title"; "// #region other"] ++ split_lines region_file) "test" =
  option_map (shift 2) (findRegion (split_lines region_file) "test").
Proof.
  apply (findRegion_after_unmarked_lines ["# Title"; "// #region other"]
           (split_lines region_file) "test").
  intros l r Hl Hr.
  destruct Hl as [<-|[<-|[]]];
    repeat (destruct Hr as [<-|Hr]; [vm_compute; reflexivity|]); destruct Hr.
Defined.

(** ** The alphabet of a path token *)

(** The code units each group of [rawPathRegexp] can hold. *)
Definition token_class (i : nat) : ascii -> bool :=
  match i with
  | 0 | 6 => is_dot
  | 1 => is_lower_alnum
  | 2 => fun c => Ascii.eqb c "#" || is_word_or_dash c
  | 3 => fun c => is_digit c || is_comma_or_dash c
  | 4 | 5 => is_nonspace
  | _ => fun _ => true
  end.

Lemma token_groups_ok : groups_ok token_class (pattern rawPathRegexp).
Proof.
  cbn [rawPathRegexp pattern Seqs Plus groups_ok].
  repeat split; intros c; cbn [chars_of Nat.sub token_class];
    try (intros _; reflexivity);
    destruct c as [[] [] [] [] [] [] [] []]; vm_compute; auto.
Qed.

(** X17: what the fields of a token can hold, for every raw path: the
    file path and the title have no line break, the extension is made of
    lower-case letters and digits, the region of [#], word characters and
    dashes, the line spec of digits, commas and dashes, and the language
    and the attributes have no white space. *)
Theorem rawPathToToken_alphabets (rawPath : string) :
  str_all is_dot (filepath (rawPathToToken rawPath)) = true /\
  str_all is_lower_alnum (extension (rawPathToToken rawPath)) = true /\
  str_all (fun c => Ascii.eqb c "#" || is_word_or_dash c)
          (region (rawPathToToken rawPath)) = true /\
  str_all (fun c => is_digit c || is_comma_or_dash c)
          (lines (rawPathToToken rawPath)) = true /\
  str_all is_nonspace (lang (rawPathToToken rawPath)) = true /\
  str_all is_nonspace (attrs (rawPathToToken rawPath)) = true /\
  str_all is_dot (title (rawPathToToken rawPath)) = true.
Proof.
  unfold rawPathToToken.
  destruct (exec rawPathRegexp rawPath) as [m|] eqn:Hm;
    cbn [filepath extension region lines lang attrs title];
    [|repeat split; reflexivity].
  pose proof (exec_groups_ok token_class rawPathRegexp rawPath m
                token_groups_ok Hm) as Hg.
  split; [apply (elem_or_empty_ok token_class (groups m) 0 Hg)|].
  split; [apply (elem_or_empty_ok token_class (groups m) 1 Hg)|].
  split; [apply (elem_or_empty_ok token_class (groups m) 2 Hg)|].
  split; [apply (elem_or_empty_ok token_class (groups m) 3 Hg)|].
  split; [apply (elem_or_empty_ok token_class (groups m) 4 Hg)|].
  split; [apply (elem_or_empty_ok token_class (groups m) 5 Hg)|].
  apply (elem_or_empty_ok token_class (groups m) 6 Hg).
Qed.

(** ** Front matter of an included file *)

Section FrontMatter.

Variable E : Env.
Variable srcDir : string.
Variable filePath : option string.
Variable stripFrontmatter : bool.
Variable self : string -> State -> option (string * State).

(** X18: front matter is stripped from a file included whole, and only
    then: a directive with a plain path over a readable file is replaced
    by the expansion of the file without its front matter when the file
    is a [.md] file and [stripFrontmatter] is set, and by the expansion
    of the file as it is otherwise. *)
Theorem include_plain_strips_front_matter
        (m path includePath content : string) (st : State) :
  path <> EmptyString -> plain_path path ->
  target_file E srcDir filePath path includePath content ->
  include_replacer E srcDir filePath stripFrontmatter self m [Some path] st =
  if String.eqb (path_extname E includePath) ".md" && stripFrontmatter
  then match matter_content E content with
       | Some body => self body (push includePath st)
       | None => Some (m, warn (not_found_warning path) st)
       end
  else self content (push includePath st).
Proof.
  intros Hne Hp (Hip & Hex & Hrd).
  rewrite (include_replacer_payload E srcDir filePath stripFrontmatter self)
    by assumption.
  rewrite (include_target_plain path Hp).
  destruct (no_meta path Hp) as [-> ->].
  unfold load_include. rewrite Hip, Hex, Hrd.
  cbn [negb is_some orb andb select_region select_range].
  destruct (String.eqb (path_extname E includePath) ".md" && stripFrontmatter);
    [|reflexivity].
  now destruct (matter_content E content).
Qed.

End FrontMatter.

(** A world whose front matter parser cuts a leading block between two
    lines of three dashes. *)
Definition strip_front_matter (s : string) : option string :=
  if prefix "---" s then
    match split_nl s with
    | _ :: t =>
        (fix go (l : list string) : option string :=
           match l with
           | [] => None
           | x :: r => if String.eqb x "---" then Some (join nl r) else go r
           end) t
    | [] => None
    end
  else Some s.

Definition page_with_front_matter : string :=
  "---
title: Page
---
Body".

Definition front_matter_env : Env :=
  {| path_join := fun a b => (a ++ "/" ++ strip_dot_slash b)%string;
     path_resolve := fun a b => (a ++ "/" ++ strip_dot_slash b)%string;
     path_dirname := dirname_simple;
     path_extname := extname_simple;
     existsSync := fun p => String.eqb p "/docs/page.md";
     readFileSync := fun p => if String.eqb p "/docs/page.md"
                              then Some page_with_front_matter else None;
     matter_content := strip_front_matter;
     fromMarkdown := fun s => [html s] |}.

Lemma include_plain_strips_front_matter_witness :
  include_replacer front_matter_env "/docs" (Some "/docs/main.md") true
    return_content "<!--@include: ./page.md-->" [Some "./page.md"] empty_state =
  Some ("Body", push "/docs/page.md" empty_state).
Proof.
  apply (include_plain_strips_front_matter front_matter_env "/docs"
           (Some "/docs/main.md") true return_content
           "<!--@include: ./page.md-->" "./page.md" "/docs/page.md"
           page_with_front_matter empty_state).
  - discriminate.
  - split; reflexivity.
  - repeat split; reflexivity.
Defined.

(** * The image URL plugin *)

(** The Markdown tree as the plugin sees it: image nodes with their URL,
    alternative text and title, the other leaves, and the nodes with
    children. *)
#[warnings="-register-all"] Inductive MdNode : Type :=
| image (url alt : string) (title : option string)
| leaf (kind value : string)
| parent (kind : string) (children : list MdNode).

Section MdNodeInduction.

Variable P : MdNode -> Prop.
Hypothesis Himage : forall url alt title, P (image url alt title).
Hypothesis Hleaf : forall kind value, P (leaf kind value).
Hypothesis Hparent : forall kind children, Forall P children -> P (parent kind children).

Fixpoint MdNode_induction (t : MdNode) : P t :=
  match t with
  | image url alt title => Himage url alt title
  | leaf kind value => Hleaf kind value
  | parent kind children =>
      Hparent kind children
        ((fix go (l : list MdNode) : Forall P l :=
            match l with
            | [] => Forall_nil P
            | x :: r => Forall_cons x (MdNode_induction x) (go r)
            end) children)
  end.

End MdNodeInduction.

(** The URLs of the images of a tree, in the order [visit] reaches them. *)
Fixpoint image_urls (t : MdNode) : list string :=
  match t with
  | image url _ _ => [url]
  | leaf _ _ => []
  | parent _ children => flat_map image_urls children
  end.

Section ImageUrls.

(** [path.posix.basename] and the [get] of the map from original file
    names to hashed paths. *)
Variable basename : string -> string.
Variable map_get : string -> option string.

(** The visitor on the URL of one image (lines 193-197 of the plugin). *)
Definition hashed_url (url : string) : string :=
  let original := basename url in
  match map_get original with
  | Some hashed => if truthy hashed then ("/" ++ hashed)%string else url
  | None => url
  end.

(** [remarkReplaceImageUrls(map)()(tree)]: [visit] calls the visitor on
    every image node of the tree. *)
Fixpoint remarkReplaceImageUrls (tree : MdNode) : MdNode :=
  match tree with
  | image url alt title => image (hashed_url url) alt title
  | leaf kind value => leaf kind value
  | parent kind children => parent kind (map remarkReplaceImageUrls children)
  end.

Lemma map_id_Forall {A : Type} (f : A -> A) (l : list A) :
  Forall (fun x => f x = x) l -> map f l = l.
Proof.
  induction 1 as [|x t Hx _ IH]; cbn [map]; [reflexivity|]. now rewrite Hx, IH.
Qed.

(** X19: a tree none of whose images is known to the map is left as it
    is: an image keeps its URL when the map has no entry for its file
    name, and also when the entry is the empty string. *)
Theorem unknown_images_keep_their_url (tree : MdNode) :
  (forall url, In url (image_urls tree) ->
               map_get (basename url) = None \/
               map_get (basename url) = Some EmptyString) ->
  remarkReplaceImageUrls tree = tree.
Proof.
  induction tree as [url alt title|kind value|kind children IH]
    using MdNode_induction; intros H; cbn [remarkReplaceImageUrls].
  - f_equal. unfold hashed_url.
    destruct (H url (or_introl eq_refl)) as [->| ->]; reflexivity.
  - reflexivity.
  - f_equal. apply map_id_Forall.
    cbn [image_urls] in H. induction IH as [|x t Hx _ IHt]; constructor.
    + apply Hx. intros url Hin. apply H. cbn [flat_map]. apply in_or_app. now left.
    + apply IHt. intros url Hin. apply H. cbn [flat_map]. apply in_or_app. now right.
Qed.

(** X20: when no hashed path has the file name of an original, the
    plugin is idempotent: a second run over the tree changes nothing. *)
Theorem remarkReplaceImageUrls_idempotent (tree : MdNode) :
  (forall name hashed,
      map_get name = Some hashed -> truthy hashed = true ->
      map_get (basename ("/" ++ hashed)) = None) ->
  remarkReplaceImageUrls (remarkReplaceImageUrls tree) = remarkReplaceImageUrls tree.
Proof.
  intros H.
  induction tree as [url alt title|kind value|kind children IH]
    using MdNode_induction; cbn [remarkReplaceImageUrls].
  - f_equal.
    assert (hashed_url url = url \/
            exists name hashed,
              map_get name = Some hashed /\ truthy hashed = true /\
              hashed_url url = ("/" ++ hashed)%string) as [Hc|(name & hashed & Hg & Ht & Hc)].
    { unfold hashed_url.
      destruct (map_get (basename url)) as [hashed|] eqn:Hg; [|now left].
      destruct (truthy hashed) eqn:Ht; [|now left].
      right. now exists (basename url), hashed. }
    + now rewrite Hc.
    + rewrite Hc. unfold hashed_url. now rewrite (H name hashed Hg Ht).
  - reflexivity.
  - f_equal. rewrite map_map. apply map_ext_Forall. exact IH.
Qed.

End ImageUrls.

(** The file name of a plain path: the text after its last slash. *)
Fixpoint basename_simple (p : string) : string :=
  match p with
  | EmptyString => EmptyString
  | String c t =>
      match String.index 0 "/" p with
      | Some _ => basename_simple t
      | None => p
      end
  end.

Definition hashed_images (name : string) : option string :=
  if String.eqb name "vs_code_proxy.png" then Some "assets/vs_code_proxy.hash.png"
  else None.

Definition image_doc (url : string) : MdNode :=
  parent "root" [parent "paragraph" [image url "alt" None]].

(** The scenario of the plugin's test. *)
Example replaces_image_links_with_hashed_paths :
  remarkReplaceImageUrls basename_simple hashed_images
    (image_doc "@/../assets/vs_code_proxy.png")
  = image_doc "/assets/vs_code_proxy.hash.png".
Proof. vm_compute. reflexivity. Qed.

Lemma unknown_images_keep_their_url_witness :
  remarkReplaceImageUrls basename_simple hashed_images (image_doc "./img/logo.svg")
  = image_doc "./img/logo.svg".
Proof.
  apply (unknown_images_keep_their_url basename_simple hashed_images
           (image_doc "./img/logo.svg")).
  intros url [<-|[]]. left. vm_compute. reflexivity.
Defined.

Lemma remarkReplaceImageUrls_idempotent_witness :
  remarkReplaceImageUrls basename_simple hashed_images
    (remarkReplaceImageUrls basename_simple hashed_images
       (image_doc "@/../assets/vs_code_proxy.png"))
  = remarkReplaceImageUrls basename_simple hashed_images
      (image_doc "@/../assets/vs_code_proxy.png").
Proof.
  apply (remarkReplaceImageUrls_idempotent basename_simple hashed_images
           (image_doc "@/../assets/vs_code_proxy.png")).
  intros name hashed Hg _. unfold hashed_images in Hg.
  destruct (String.eqb name "vs_code_proxy.png"); [|discriminate].
  injection Hg as <-. vm_compute. reflexivity.
Defined.

(** * Which raw paths the token parser accepts *)

(** A run of the matcher consumes at least [n] code units and keeps the
    invariant [I] of the captures. *)
Definition run_step (I : list (option string) -> Prop) (n : nat)
           (step : (mstate -> option mstate) -> mstate -> option mstate) : Prop :=
  forall k s res,
    step k s = Some res -> I (caps s) ->
    exists s',
      String.length (rest s') + n <= String.length (rest s) /\
      I (caps s') /\ k s' = Some res.

(** Setting a group of [r] keeps [I]. *)
Fixpoint groups_keep (I : list (option string) -> Prop) (r : regex) : Prop :=
  match r with
  | Seq a b | Alt a b => groups_keep I a /\ groups_keep I b
  | Star _ a | Opt _ a => groups_keep I a
  | Grp n a => (forall v cs, I cs -> I (set_cap (n - 1) v cs)) /\ groups_keep I a
  | _ => True
  end.

Lemma run_here (I : list (option string) -> Prop)
      (k : mstate -> option mstate) (s res : mstate) :
  k s = Some res -> I (caps s) ->
  exists s',
    String.length (rest s') + 0 <= String.length (rest s) /\
    I (caps s') /\ k s' = Some res.
Proof. intros Hk Hc. exists s. split; [lia|]. now split. Qed.

Lemma star_loop_keeps (I : list (option string) -> Prop) (nb : nat) body (g : bool) :
  run_step I nb body ->
  forall n, run_step I 0 (fun k => star_loop body g k n).
Proof.
  intros Hbody n. induction n as [|n IH]; intros k s res H Hc.
  - now apply run_here.
  - cbn [star_loop] in H.
    assert (forall r0,
               body (fun s' => if progressed s s' then star_loop body g k n s'
                               else None) s = Some r0 ->
               exists s',
                 String.length (rest s') + 0 <= String.length (rest s) /\
                 I (caps s') /\ k s' = Some r0) as Hiter.
    { intros r0 Hb.
      destruct (Hbody _ _ _ Hb Hc) as (s1 & Hl1 & Hc1 & Hk1).
      destruct (progressed s s1); [|discriminate].
      destruct (IH _ _ _ Hk1 Hc1) as (s2 & Hl2 & Hc2 & Hk2).
      exists s2. split; [lia|]. now split. }
    destruct g.
    + destruct (body _ s) as [r0|] eqn:Hb.
      * injection H as <-. now apply Hiter.
      * now apply run_here.
    + destruct (k s) as [r0|] eqn:Hk.
      * injection H as <-. now apply run_here.
      * now apply Hiter.
Qed.

Lemma rmatch_keeps (I : list (option string) -> Prop) (ml : bool) (r : regex) :
  groups_keep I r -> run_step I (min_len r) (rmatch ml r).
Proof.
  induction r as [|c|p|a IHa b IHb|a IHa b IHb|g a IHa|g a IHa|n a IHa| | |];
    intros Hg k s res H Hc; cbn [min_len].
  - change (k s = Some res) in H. now apply run_here.
  - destruct s as [pr [|d t] cs]; [discriminate H|].
    rewrite rmatch_Chr in H.
    destruct (Ascii.eqb c d); [|discriminate].
    exists {| prev := Some d; rest := t; caps := cs |}.
    cbn [rest caps String.length]. split; [lia|]. now split.
  - destruct s as [pr [|d t] cs]; [discriminate H|].
    rewrite rmatch_Cls in H.
    destruct (p d); [|discriminate].
    exists {| prev := Some d; rest := t; caps := cs |}.
    cbn [rest caps String.length]. split; [lia|]. now split.
  - rewrite rmatch_Seq in H. destruct Hg as [Hga Hgb].
    destruct (IHa Hga _ _ _ H Hc) as (s1 & Hl1 & Hc1 & Hk1).
    destruct (IHb Hgb _ _ _ Hk1 Hc1) as (s2 & Hl2 & Hc2 & Hk2).
    exists s2. split; [lia|]. now split.
  - change (match rmatch ml a k s with
            | Some x => Some x
            | None => rmatch ml b k s
            end = Some res) in H.
    destruct Hg as [Hga Hgb].
    destruct (rmatch ml a k s) as [r0|] eqn:Ha.
    + injection H as <-.
      destruct (IHa Hga _ _ _ Ha Hc) as (s1 & Hl1 & Hc1 & Hk1).
      exists s1. split; [lia|]. now split.
    + destruct (IHb Hgb _ _ _ H Hc) as (s1 & Hl1 & Hc1 & Hk1).
      exists s1. split; [lia|]. now split.
  - change (star_loop (rmatch ml a) g k (S (String.length (rest s))) s = Some res)
      in H.
    exact (star_loop_keeps I (min_len a) (rmatch ml a) g (IHa Hg) _ _ _ _ H Hc).
  - assert (forall r0,
               rmatch ml a (fun s' => if progressed s s' then k s' else None) s
               = Some r0 ->
               exists s',
                 String.length (rest s') + 0 <= String.length (rest s) /\
                 I (caps s') /\ k s' = Some r0) as Hiter.
    { intros r0 Hb.
      destruct (IHa Hg _ _ _ Hb Hc) as (s1 & Hl1 & Hc1 & Hk1).
      destruct (progressed s s1); [|discriminate].
      exists s1. split; [lia|]. now split. }
    destruct g.
    + change (match rmatch ml a (fun s' => if progressed s s' then k s' else None) s
              with
              | Some x => Some x
              | None => k s
              end = Some res) in H.
      destruct (rmatch ml a _ s) as [r0|] eqn:Hb.
      * injection H as <-. now apply Hiter.
      * now apply run_here.
    + change (match k s with
              | Some x => Some x
              | None =>
                  rmatch ml a (fun s' => if progressed s s' then k s' else None) s
              end = Some res) in H.
      destruct (k s) as [r0|] eqn:Hk.
      * injection H as <-. now apply run_here.
      * now apply Hiter.
  - rewrite rmatch_Grp in H. destruct Hg as [Hn Hga].
    destruct (IHa Hga _ _ _ H Hc) as (s1 & Hl1 & Hc1 & Hk1).
    exists {| prev := prev s1; rest := rest s1;
              caps := set_cap (n - 1)
                        (str_take (String.length (rest s) - String.length (rest s1))
                                  (rest s))
                        (caps s1) |}.
    cbn [rest caps]. split; [exact Hl1|]. split; [|exact Hk1].
    now apply Hn.
  - change ((if at_bol ml s then k s else None) = Some res) in H.
    destruct (at_bol ml s); [|discriminate]. now apply run_here.
  - change ((if at_eol ml s then k s else None) = Some res) in H.
    destruct (at_eol ml s); [|discriminate]. now apply run_here.
  - change ((if at_wb s then k s else None) = Some res) in H.
    destruct (at_wb s); [|discriminate]. now apply run_here.
Qed.

Lemma set_cap_length (n : nat) (v : string) (cs : list (option string)) :
  List.length (set_cap n v cs) = List.length cs.
Proof.
  revert n. induction cs as [|x t IH]; intros [|n]; cbn [set_cap List.length];
    auto.
Qed.

Lemma set_cap_first (v : string) (cs : list (option string)) :
  0 < List.length cs -> nth_error (set_cap 0 v cs) 0 = Some (Some v).
Proof. destruct cs; cbn; [lia|reflexivity]. Qed.

Lemma set_cap_later (n : nat) (v : string) (cs : list (option string)) :
  nth_error (set_cap (S n) v cs) 0 = nth_error cs 0.
Proof. now destruct cs. Qed.

(** The parts of [rawPathRegexp]: group 1 and what follows it. *)
Definition path_part : regex :=
  match pattern rawPathRegexp with
  | Seq _ (Seq (Grp _ a) _) => a
  | _ => Eps
  end.

Definition token_rest : regex :=
  match pattern rawPathRegexp with
  | Seq _ (Seq _ r) => r
  | _ => Eps
  end.

Definition extension_part : regex :=
  match path_part with
  | Seq _ r => r
  | _ => Eps
  end.

Lemma rawPathRegexp_parts :
  pattern rawPathRegexp = Seq Bol (Seq (Grp 1 path_part) token_rest) /\
  path_part = Seq (Plus false (Cls is_dot)) extension_part.
Proof. split; reflexivity. Qed.

(** The pattern is anchored: it matches at the start of the string only. *)
Lemma rawPath_anchored (c : ascii) (t : string) :
  match_at rawPathRegexp (Some c) t = None.
Proof. reflexivity. Qed.

Lemma rawPath_search_later (t : string) :
  forall c i, search rawPathRegexp (Some c) t i = None.
Proof.
  induction t as [|d t IH]; intros c i; cbn [search];
    rewrite rawPath_anchored; [reflexivity|apply IH].
Qed.

Lemma rawPath_exec (s : string) :
  exec rawPathRegexp s =
  match match_at rawPathRegexp None s with
  | Some (l, g) => Some {| index := 0; matched := str_take l s; groups := g |}
  | None => None
  end.
Proof.
  unfold exec. destruct s as [|c t]; cbn [search];
    destruct (match_at rawPathRegexp None _) as [[l g]|]; try reflexivity.
  apply rawPath_search_later.
Qed.

Definition start_state (s : string) : mstate :=
  {| prev := None; rest := s; caps := repeat None (ngroups rawPathRegexp) |}.

(** The continuations of the matcher after group 1 and inside it. *)
Definition after_path (s : string) (s' : mstate) : option mstate :=
  rmatch false token_rest Some
    {| prev := prev s'; rest := rest s';
       caps := set_cap (1 - 1)
                 (str_take (String.length s - String.length (rest s')) s)
                 (caps s') |}.

Lemma rawPath_run (s : string) :
  rmatch false (pattern rawPathRegexp) Some (start_state s) =
  rmatch false path_part (after_path s) (start_state s).
Proof. reflexivity. Qed.

(** A sequence without its last part. *)
Fixpoint drop_last_part (r : regex) : regex :=
  match r with
  | Seq a b =>
      match b with
      | Seq _ _ => Seq a (drop_last_part b)
      | _ => a
      end
  | _ => r
  end.

Lemma rawPath_run_to_end (st : mstate) :
  rmatch false (pattern rawPathRegexp) Some st =
  rmatch false (drop_last_part (pattern rawPathRegexp)) (rmatch false Eol Some) st.
Proof. reflexivity. Qed.

Lemma chars_are_dots (c : ascii) :
  chars_of (drop_last_part (pattern rawPathRegexp)) c = true -> is_dot c = true.
Proof.
  destruct c as [[] [] [] [] [] [] [] []]; vm_compute; auto.
Qed.

Lemma path_part_keeps_length :
  groups_keep (fun cs => List.length cs = ngroups rawPathRegexp) path_part.
Proof.
  unfold path_part. cbn [pattern rawPathRegexp Seqs Plus groups_keep].
  repeat split. intros v cs H. now rewrite set_cap_length.
Qed.

Lemma token_rest_keeps_path (w : string) :
  groups_keep (fun cs => nth_error cs 0 = Some (Some w)) token_rest.
Proof.
  unfold token_rest. cbn [pattern rawPathRegexp Seqs Plus groups_keep Nat.sub].
  repeat split; intros v cs H; now rewrite set_cap_later.
Qed.

(** What a match tells: the raw path is not empty and has no line break,
    and group 1 holds a prefix of it that is not empty. *)
Lemma rawPath_match_anatomy (s : string) (res : mstate) :
  rmatch false (pattern rawPathRegexp) Some (start_state s) = Some res ->
  s <> EmptyString /\ str_all is_dot s = true /\
  exists w, w <> EmptyString /\ nth_error (caps res) 0 = Some (Some w) /\
            exists tail, s = (w ++ tail)%string.
Proof.
  intros H.
  assert (s <> EmptyString) as Hne.
  { intros ->. vm_compute in H. discriminate. }
  split; [exact Hne|]. split.
  - rewrite rawPath_run_to_end in H.
    destruct (rmatch_sound (fun _ _ => true) false _ (groups_ok_top _) _ _ _ H
                           (caps_ok_repeat _ _))
      as (s1 & w & Hr & Hw & _ & _ & Hk).
    change ((if at_eol false s1 then Some s1 else None) = Some res) in Hk.
    unfold at_eol in Hk.
    destruct (rest s1) as [|d r] eqn:Hrest; [|discriminate Hk].
    cbn [start_state rest] in Hr. rewrite str_app_empty_r in Hr. subst w.
    apply (str_all_weaken _ _ s chars_are_dots Hw).
  - rewrite rawPath_run in H.
    destruct (rmatch_keeps _ false path_part path_part_keeps_length _ _ _ H)
      as (s1 & Hl & Hc & Hk); [apply repeat_length|].
    change (min_len path_part) with 1 in Hl. cbn [start_state rest] in Hl.
    unfold after_path in Hk.
    set (w := str_take (String.length s - String.length (rest s1)) s) in Hk.
    destruct (rmatch_keeps _ false token_rest (token_rest_keeps_path w) _ _ _ Hk)
      as (s2 & _ & Hc2 & [= <-]).
    { cbn [caps]. apply set_cap_first. rewrite Hc. cbn. lia. }
    exists w. split; [|split; [exact Hc2|]].
    + unfold w, str_take.
      destruct (String.length s - String.length (rest s1)) as [|n] eqn:Hn; [lia|].
      destruct s; [congruence|discriminate].
    + exists (str_drop (String.length s - String.length (rest s1)) s).
      symmetry. apply str_take_drop.
Qed.

(** A lazy run of dots reaches the end of a text without line break when
    the continuation accepts there. *)
Lemma lazy_dots_reach_end (k : mstate -> option mstate) :
  (forall pr cs, k {| prev := pr; rest := EmptyString; caps := cs |} <> None) ->
  forall (t : string) (n : nat) (pr : option ascii) (cs : list (option string)),
    str_all is_dot t = true -> String.length t < n ->
    star_loop (rmatch false (Cls is_dot)) false k n
              {| prev := pr; rest := t; caps := cs |} <> None.
Proof.
  intros Hend t. induction t as [|c t IH]; intros n pr cs Hall Hn;
    (destruct n as [|n]; [cbn in Hn; lia|]); cbn [star_loop].
  - destruct (k _) eqn:Hk; [discriminate|]. now apply Hend in Hk.
  - destruct (k _) eqn:Hk; [discriminate|].
    cbn [str_all] in Hall. apply andb_prop in Hall as [Hc Hall].
    rewrite rmatch_Cls, Hc.
    unfold progressed. cbn [rest String.length].
    destruct (Nat.ltb_spec (String.length t) (S (String.length t))); [|lia].
    apply IH; [exact Hall|cbn in Hn; lia].
Qed.

Lemma rawPath_run_first (c : ascii) (t : string) :
  rmatch false (pattern rawPathRegexp) Some (start_state (String c t)) =
  if is_dot c
  then star_loop (rmatch false (Cls is_dot)) false
                 (rmatch false extension_part (after_path (String c t)))
                 (S (String.length t))
                 {| prev := Some c; rest := t;
                    caps := repeat None (ngroups rawPathRegexp) |}
  else None.
Proof. reflexivity. Qed.

Lemma rawPath_accepts_at_end (s : string) (pr : option ascii)
      (cs : list (option string)) :
  rmatch false extension_part (after_path s)
         {| prev := pr; rest := EmptyString; caps := cs |} <> None.
Proof.
  assert (rmatch false extension_part (after_path s)
                 {| prev := pr; rest := EmptyString; caps := cs |}
          = Some {| prev := pr; rest := EmptyString;
                    caps := set_cap 0 (str_take (String.length s - 0) s) cs |})
    as -> by reflexivity.
  discriminate.
Qed.

(** Every text without line break that is not empty is matched. *)
Lemma rawPath_match_total (s : string) :
  s <> EmptyString -> str_all is_dot s = true ->
  rmatch false (pattern rawPathRegexp) Some (start_state s) <> None.
Proof.
  intros Hne Hall. destruct s as [|c t]; [congruence|].
  cbn [str_all] in Hall. apply andb_prop in Hall as [Hc Hall].
  rewrite rawPath_run_first, Hc.
  apply lazy_dots_reach_end; [intros pr cs; apply rawPath_accepts_at_end| |lia].
  exact Hall.
Qed.

Lemma rawPathToToken_run (rawPath : string) :
  filepath (rawPathToToken rawPath) =
  match rmatch false (pattern rawPathRegexp) Some (start_state rawPath) with
  | Some res => elem_or_empty (caps res) 0
  | None => EmptyString
  end.
Proof.
  unfold rawPathToToken. rewrite rawPath_exec. unfold match_at.
  change {| prev := None; rest := rawPath;
            caps := repeat None (ngroups rawPathRegexp) |}
    with (start_state rawPath).
  change (multiline rawPathRegexp) with false.
  now destruct (rmatch false (pattern rawPathRegexp) Some (start_state rawPath)).
Qed.

Lemma first_group (cs : list (option string)) (w : string) :
  nth_error cs 0 = Some (Some w) -> elem_or_empty cs 0 = w.
Proof.
  unfold elem_or_empty. destruct cs as [|x cs]; [discriminate|].
  cbn. now intros [= ->].
Qed.

(** X21: the token parser accepts exactly the raw paths that are not
    empty and have no line break: for these, and only for these, the
    file path of the token is not empty; and the file path is always a
    prefix of the raw path. *)
Theorem rawPathToToken_accepts_one_line_paths (rawPath : string) :
  (filepath (rawPathToToken rawPath) <> EmptyString <->
   rawPath <> EmptyString /\ str_all is_dot rawPath = true) /\
  exists tail, rawPath = (filepath (rawPathToToken rawPath) ++ tail)%string.
Proof.
  rewrite rawPathToToken_run.
  destruct (rmatch false (pattern rawPathRegexp) Some (start_state rawPath))
    as [res|] eqn:Hrun.
  - destruct (rawPath_match_anatomy rawPath res Hrun)
      as (Hne & Hall & w & Hw & Hcap & tail & Htail).
    rewrite (first_group _ w Hcap).
    split; [|now exists tail]. split; [now intros _|now intros _].
  - split; [|now exists rawPath].
    split; [congruence|]. intros [Hne Hall].
    now apply rawPath_match_total in Hrun.
Qed.

(** ** The paths of the snippet directives *)

Lemma scan_groups_ok (P : nat -> ascii -> bool) (R : RegExp) :
  groups_ok P (pattern R) ->
  forall (s : string) (p : option ascii) (skip : nat) m g,
    In (PMatch m g) (scan R p s skip) -> caps_ok P g.
Proof.
  intros Hg s. induction s as [|c t IH]; intros p skip m g Hin.
  - destruct skip as [|k]; cbn [scan] in Hin; [|destruct Hin].
    destruct (match_at R p EmptyString) as [[l g0]|] eqn:Hm; [|destruct Hin].
    destruct Hin as [[= <- <-]|[]].
    exact (proj1 (match_at_sound P R p _ l g0 Hg Hm)).
  - destruct skip as [|k]; cbn [scan] in Hin; [|now apply (IH _ _ _ _ Hin)].
    destruct (match_at R p (String c t)) as [[l g0]|] eqn:Hm.
    + destruct Hin as [[= <- <-]|Hin];
        [exact (proj1 (match_at_sound P R p _ l g0 Hg Hm))|].
      destruct l as [|l]; [|now apply (IH _ _ _ _ Hin)].
      destruct Hin as [Hin|Hin]; [discriminate|now apply (IH _ _ _ _ Hin)].
    + destruct Hin as [Hin|Hin]; [discriminate|now apply (IH _ _ _ _ Hin)].
Qed.

Lemma str_all_trim_start (p : ascii -> bool) (s : string) :
  str_all p s = true -> str_all p (trim_start s) = true.
Proof.
  induction s as [|c t IH]; cbn [trim_start str_all]; [auto|].
  intros H. destruct (is_space c); [|exact H].
  apply andb_prop in H as [_ H]. now apply IH.
Qed.

Lemma str_all_trim_end (p : ascii -> bool) (s : string) :
  str_all p s = true -> str_all p (trim_end s) = true.
Proof.
  induction s as [|c t IH]; cbn [trim_end str_all]; [auto|].
  intros H. apply andb_prop in H as [Hc H]. specialize (IH H).
  destruct (trim_end t) as [|d r].
  - destruct (is_space c); [reflexivity|]. cbn [str_all]. now rewrite Hc.
  - cbn [str_all] in *. now rewrite Hc, IH.
Qed.

Lemma str_all_drop (p : ascii -> bool) (n : nat) :
  forall s, str_all p s = true -> str_all p (str_drop n s) = true.
Proof.
  induction n as [|n IH]; intros [|c t] H; cbn [str_drop]; auto.
  cbn [str_all] in H. apply andb_prop in H as [_ H]. now apply IH.
Qed.

Lemma snippetRE_groups_ok :
  groups_ok (fun _ => is_dot) (pattern snippetRE).
Proof.
  cbn [snippetRE pattern Seqs lazy_any groups_ok]. repeat split.
  intros c H. exact H.
Qed.

(** The text handed to the token parser (lines 239-241). *)
Definition pathToParse (rawPath : string) : string :=
  if snippet_atPresent rawPath then str_slice (trim rawPath) (Some 1%Z) None
  else trim rawPath.

(** X22: the path of a snippet directive always parses: the text the
    pattern captures has no line break, so the token of a directive has
    an empty file path only when the path, trimmed, is empty or is the
    [@] alone. *)
Theorem snippet_paths_always_parse
        (content m : string) (g : list (option string)) :
  In (PMatch m g) (pieces snippetRE content) ->
  filepath (snippet_token (elem_or_empty g 0)) = EmptyString <->
  trim (elem_or_empty g 0) = EmptyString \/ trim (elem_or_empty g 0) = "@".
Proof.
  intros Hin.
  change (snippet_token (elem_or_empty g 0))
    with (rawPathToToken (pathToParse (elem_or_empty g 0))).
  set (rawPath := elem_or_empty g 0).
  assert (str_all is_dot rawPath = true) as Hraw.
  { apply (elem_or_empty_ok (fun _ => is_dot) g 0).
    exact (scan_groups_ok _ snippetRE snippetRE_groups_ok _ _ _ _ _ Hin). }
  assert (str_all is_dot (trim rawPath) = true) as Hclean.
  { unfold trim. now apply str_all_trim_end, str_all_trim_start. }
  assert (str_all is_dot (pathToParse rawPath) = true) as Hdots.
  { unfold pathToParse. destruct (snippet_atPresent rawPath); [|exact Hclean].
    change (Some 1%Z) with (Some (Z.of_nat 1)). rewrite str_slice_from.
    now apply str_all_drop. }
  assert (filepath (rawPathToToken (pathToParse rawPath)) = EmptyString <->
          pathToParse rawPath = EmptyString) as ->.
  { rewrite rawPathToToken_run.
    destruct (rmatch false (pattern rawPathRegexp) Some
                     (start_state (pathToParse rawPath))) as [res|] eqn:Hrun.
    - destruct (rawPath_match_anatomy _ res Hrun)
        as (Hne & _ & w & Hw & Hcap & _).
      rewrite (first_group _ w Hcap). split; congruence.
    - split; [|reflexivity]. intros _.
      destruct (string_dec (pathToParse rawPath) EmptyString) as [He|He];
        [exact He|].
      now apply rawPath_match_total in Hrun. }
  unfold pathToParse, snippet_atPresent.
  destruct (trim rawPath) as [|a t]; [cbn; tauto|].
  cbn [prefix]. destruct (ascii_dec "@" a) as [<-|Ha].
  - change (Some 1%Z) with (Some (Z.of_nat 1)).
    destruct (prefix EmptyString t) eqn:Hp.
    + rewrite str_slice_from. cbn [str_drop]. split.
      * intros ->. now right.
      * intros [H|H]; [discriminate|]. now injection H.
    + destruct t; discriminate.
  - split; [discriminate|]. intros [H|H]; [discriminate|]. injection H. congruence.
Qed.

Lemma snippet_paths_always_parse_witness :
  filepath (snippet_token "@/missing.js") = EmptyString <->
  trim "@/missing.js" = EmptyString \/ trim "@/missing.js" = "@".
Proof.
  apply (snippet_paths_always_parse missing_snippet_doc "<<< @/missing.js"
           [Some "@/missing.js"]).
  vm_compute. do 10 right. now left.
Defined.

(** ** The body of a snippet region *)

Lemma in_firstn {A : Type} (n : nat) (l : list A) (x : A) :
  In x (firstn n l) -> In x l.
Proof.
  intros H. rewrite <- (firstn_skipn n l). apply in_or_app. now left.
Qed.

Lemma in_skipn {A : Type} (n : nat) (l : list A) (x : A) :
  In x (skipn n l) -> In x l.
Proof.
  intros H. rewrite <- (firstn_skipn n l). apply in_or_app. now right.
Qed.

(** X23: the code block of a snippet with a region that is found holds
    the lines between the two markers that are not themselves marker
    lines of the dialect, in their order, each with some of its leading
    spaces and tabs removed and nothing else changed. *)
Theorem snippet_region_keeps_inner_lines
        (tok : Token) (content : string) (d : RegionData) :
  truthy (region tok) = true ->
  findRegion (split_nl content) (str_drop 1 (region tok)) = Some d ->
  let inner := firstn (end_ d - start d) (skipn (start d) (split_nl content)) in
  let kept := filter (fun l => negb (test (m_start (re d)) l
                                     || test (m_end (re d)) l)) inner in
  snippet_region tok content = dedent (join nl kept) /\
  (kept <> [] ->
   map strip_blanks (split_nl (snippet_region tok content))
   = map strip_blanks kept).
Proof.
  intros Hreg Hd inner kept.
  assert (snippet_region tok content = dedent (join nl kept)) as Heq.
  { unfold snippet_region. rewrite Hreg.
    change (Some 1%Z) with (Some (Z.of_nat 1)).
    rewrite (str_slice_from (region tok) 1), Hd.
    apply findRegion_bounds in Hd.
    unfold arr_slice, slice_from, slice_to. rewrite !clamp_index_nat.
    rewrite !Nat.min_l by lia. reflexivity. }
  split; [exact Heq|]. intros Hne. rewrite Heq.
  assert (split_nl (join nl kept) = kept) as Hlines.
  { apply split_join_nl; [exact Hne|].
    apply Forall_forall. intros l Hl.
    apply filter_In in Hl. destruct Hl as [Hl _].
    apply in_firstn, in_skipn in Hl.
    pose proof (split_nl_no_lf content) as Hall.
    rewrite Forall_forall in Hall. now apply Hall. }
  destruct (dedent_cases (join nl kept)) as [[_ ->]|(n & _ & Hall & ->)];
    [now rewrite Hlines|].
  rewrite split_nl_dedented, Hlines, map_map. apply map_ext_in. intros l Hin.
  rewrite Hlines, Forall_forall in Hall. specialize (Hall l Hin).
  destruct (blank_line l) eqn:Hb.
  - rewrite !strip_blanks_blank; auto. now apply blank_line_drop_any.
  - apply strip_blanks_drop. now apply Hall.
Qed.

Lemma snippet_region_keeps_inner_lines_witness :
  snippet_region (snippet_token "@/math.js#utils") math_js =
  dedent (join nl (firstn 7 (skipn 1 (split_nl math_js)))) /\
  map strip_blanks (split_nl (snippet_region (snippet_token "@/math.js#utils") math_js))
  = map strip_blanks (firstn 7 (skipn 1 (split_nl math_js))).
Proof.
  destruct (snippet_region_keeps_inner_lines
              (snippet_token "@/math.js#utils") math_js
              {| re := nth 0 markers (mkMarker regionRE regionRE);
                 start := 1; end_ := 8 |}) as [H1 H2].
  - vm_compute. reflexivity.
  - vm_compute. reflexivity.
  - split; [exact H1|]. apply H2. vm_compute. discriminate.
Defined.

(** ** The body of an included region *)

Section IncludeRegion.

Variable E : Env.
Variable srcDir : string.
Variable filePath : option string.
Variable stripFrontmatter : bool.
Variable self : string -> State -> option (string * State).

(** X24: an include directive [path#name] whose region is found is
    replaced by the expansion of the lines between the two markers,
    joined with LF: unlike a snippet, the lines keep their indentation
    and inner marker lines stay; no warning is printed and front matter
    is not looked for. *)
Theorem include_region_selects_inner_lines
        (m path name includePath content : string) (d : RegionData) (st : State) :
  plain_path path -> region_token name ->
  target_file E srcDir filePath path includePath content ->
  findRegion (split_lines content) name = Some d ->
  include_replacer E srcDir filePath stripFrontmatter self m
                   [Some (path ++ "#" ++ name)%string] st =
  self (join nl (firstn (end_ d - start d) (skipn (start d) (split_lines content))))
       (push includePath st).
Proof.
  intros Hp Hn Hfile Hd.
  destruct (region_alone path name Hp Hn) as [Hrg Hrn].
  pose proof (include_target_region path name Hp Hn) as Ht.
  rewrite (include_replacer_payload E srcDir filePath stripFrontmatter self)
    by apply payload_not_empty.
  rewrite Ht, Hrg, Hrn.
  rewrite (load_include_meta E srcDir filePath stripFrontmatter
             path includePath content) by (auto; reflexivity).
  unfold select_region. cbn [matched].
  change ("#" ++ name)%string with (String "#" name).
  change (Some 1%Z) with (Some (Z.of_nat 1)).
  rewrite (str_slice_from (String "#" name) 1). cbn [str_drop].
  rewrite Hd. cbn [fst snd select_range].
  apply findRegion_bounds in Hd.
  unfold arr_slice, slice_from, slice_to. rewrite !clamp_index_nat.
  rewrite !Nat.min_l by lia. reflexivity.
Qed.

End IncludeRegion.

Lemma include_region_selects_inner_lines_witness :
  include_replacer docs_env "/docs" (Some "/docs/main.md") true return_content
    "<!--@include: ./r.md#test-->" [Some "./r.md#test"] empty_state =
  Some ("Inside 1
Inside 2
Inside 3", push "/docs/r.md" empty_state).
Proof.
  apply (include_region_selects_inner_lines docs_env "/docs" (Some "/docs/main.md")
           true return_content "<!--@include: ./r.md#test-->" "./r.md" "test"
           "/docs/r.md" region_file
           {| re := html_dialect; start := 2; end_ := 5 |} empty_state).
  - split; reflexivity.
  - split; [discriminate|reflexivity].
  - repeat split; reflexivity.
  - vm_compute. reflexivity.
Defined.

(** * The directives in a document *)

(** ** An include directive among the pieces of a text *)

Section DocumentDirectives.

Variable E : Env.
Variable srcDir : string.
Variable filePath : option string.
Variable stripFrontmatter : bool.

#[local] Abbreviation process := (processIncludes E srcDir filePath stripFrontmatter).
#[local] Abbreviation includeReplacer :=
  (include_replacer E srcDir filePath stripFrontmatter).

(** The run over a text with a directive among its pieces: the output
    holds what the replacer returns for the directive. *)
Lemma processIncludes_at_directive (fuel : nat) (doc : string) (st : State)
      (before after : list piece) (m : string) (g : list (option string)) :
  bounded E srcDir filePath stripFrontmatter (S fuel) doc = true ->
  pieces includesRE doc = before ++ PMatch m g :: after ->
  exists out1 st1 r st2 out2 st',
    process (S fuel) doc st = Some ((out1 ++ r ++ out2)%string, st') /\
    includeReplacer (process fuel) m g st1 = Some (r, st2) /\
    grows st st1 /\ grows st2 st'.
Proof.
  intros Hb Hps.
  destruct (processIncludes_returns E srcDir filePath stripFrontmatter
              (S fuel) doc st Hb) as (out & st' & Hrun).
  pose proof Hrun as Hrun'. cbn [processIncludes] in Hrun'. rewrite Hps in Hrun'.
  apply replace_pieces_opt_split in Hrun'.
  destruct Hrun' as (out1 & st1 & r & st2 & out2 & Hbefore & Hcb & Hafter & ->).
  exists out1, st1, r, st2, out2, st'.
  split; [exact Hrun|]. split; [exact Hcb|].
  assert (forall m g st r st',
             includeReplacer (process fuel) m g st = Some (r, st') -> grows st st')
    as Hgrow.
  { apply include_replacer_grows. apply processIncludes_grows. }
  split; eapply replace_pieces_opt_grows; eauto.
Qed.

(** A directive that loads the text [c] of the file [ip], after the
    state has gone through [wf]: the output holds the expansion of [c],
    and the path is recorded. *)
Lemma document_directive_expands (fuel : nat) (doc : string) (st : State)
      (before after : list piece) (m : string) (g : list (option string))
      (ip c : string) (wf : State -> State) :
  bounded E srcDir filePath stripFrontmatter (S fuel) doc = true ->
  pieces includesRE doc = before ++ PMatch m g :: after ->
  (forall self s, includeReplacer self m g s = self c (push ip (wf s))) ->
  (forall s, grows s (wf s)) ->
  exists out st' out1 expansion out2 sa sb,
    process (S fuel) doc st = Some (out, st') /\
    out = (out1 ++ expansion ++ out2)%string /\
    process fuel c (push ip (wf sa)) = Some (expansion, sb) /\
    (test includesRE c = false -> expansion = c) /\
    In ip (includes st') /\
    grows (wf sa) st'.
Proof.
  intros Hb Hps Hstep Hwf.
  destruct (processIncludes_at_directive fuel doc st before after m g Hb Hps)
    as (out1 & st1 & r & st2 & out2 & st' & Hrun & Hcb & Hg1 & Hg2).
  rewrite Hstep in Hcb.
  exists (out1 ++ r ++ out2)%string, st', out1, r, out2, st1, st2.
  split; [exact Hrun|]. split; [reflexivity|]. split; [exact Hcb|].
  pose proof (processIncludes_grows E srcDir filePath stripFrontmatter
                fuel _ _ _ _ Hcb) as Hg.
  split; [|split].
  - intros Hplain. destruct fuel as [|fuel]; [discriminate|].
    cbn [processIncludes] in Hcb.
    rewrite replace_pieces_opt_plain in Hcb by now apply test_false_no_match.
    rewrite pieces_text_id in Hcb. now injection Hcb as <- _.
  - eapply grows_includes; [exact Hg2|]. eapply grows_includes; [exact Hg|].
    cbn [push includes]. apply in_or_app. right. now left.
  - eapply grows_trans; [apply grows_push|].
    eapply grows_trans; [exact Hg|exact Hg2].
Qed.

End DocumentDirectives.

(** ** Line ranges of an include *)

(** The lines whose number, counted from [n] for the first, lies between
    [lo] and [hi]. *)
Fixpoint numbered_slice (n lo hi : nat) (ls : list string) : list string :=
  match ls with
  | [] => []
  | l :: t =>
      if (lo <=? n) && (n <=? hi) then l :: numbered_slice (S n) lo hi t
      else numbered_slice (S n) lo hi t
  end.

(** The 1-indexed inclusive slice: the lines [lo], ..., [hi], counted
    from 1. *)
Definition one_indexed_slice (lo hi : nat) (ls : list string) : list string :=
  numbered_slice 1 lo hi ls.

(** The reading of the range as a 1-indexed inclusive slice with each
    bound optional, for every start. *)
Definition claimed_range_lines (a b : string) (ls : list string) : list string :=
  one_indexed_slice (range_lo a) (range_hi b ls) ls.

(** What the range selects: the 1-indexed inclusive slice for a start
    that is left out or at least 1; for a start of 0, which becomes the
    index -1, the last line when the end reaches it and nothing
    otherwise. *)
Definition range_lines (a b : string) (ls : list string) : list string :=
  if truthy a && (parseInt a =? 0)%Z then
    if List.length ls <=? range_hi b ls then [last ls EmptyString] else []
  else one_indexed_slice (range_lo a) (range_hi b ls) ls.

Lemma numbered_slice_firstn (lo hi : nat) (ls : list string) :
  forall n,
    numbered_slice n lo hi ls =
    firstn (S hi - Nat.max lo n) (skipn (lo - n) ls).
Proof.
  induction ls as [|l t IH]; intros n; cbn [numbered_slice].
  - now rewrite skipn_nil, firstn_nil.
  - rewrite IH.
    destruct (Nat.leb_spec lo n) as [Hlo|Hlo]; cbn [andb].
    + replace (lo - n) with 0 by lia. replace (lo - S n) with 0 by lia.
      cbn [skipn]. rewrite !Nat.max_r by lia.
      destruct (Nat.leb_spec n hi) as [Hhi|Hhi].
      * replace (S hi - n) with (S (S hi - S n)) by lia. reflexivity.
      * replace (S hi - n) with 0 by lia. replace (S hi - S n) with 0 by lia.
        reflexivity.
    + replace (lo - n) with (S (lo - S n)) by lia. cbn [skipn].
      rewrite !Nat.max_l by lia. reflexivity.
Qed.

Lemma arr_one_indexed (ls : list string) (f hi : nat) :
  firstn (Nat.min hi (List.length ls) - Nat.min f (List.length ls))
         (skipn (Nat.min f (List.length ls)) ls)
  = one_indexed_slice (f + 1) hi ls.
Proof.
  unfold one_indexed_slice. rewrite numbered_slice_firstn.
  rewrite Nat.max_l by lia.
  replace (f + 1 - 1) with f by lia. replace (S hi - (f + 1)) with (hi - f) by lia.
  destruct (Nat.le_gt_cases (List.length ls) f) as [Hf|Hf].
  - rewrite (Nat.min_r f) by lia. rewrite !skipn_all2 by lia.
    now rewrite !firstn_nil.
  - rewrite (Nat.min_l f) by lia.
    destruct (Nat.le_gt_cases hi (List.length ls)) as [Hh|Hh].
    + now rewrite Nat.min_l by lia.
    + rewrite Nat.min_r by lia.
      rewrite !firstn_all2; [reflexivity| |]; rewrite length_skipn; lia.
Qed.

(** The range selection of the source in terms of line numbers. *)
Lemma select_range_spec (r : MatchResult) (a b content : string) :
  groups r = [Some a; Some b] ->
  select_range (Some r) content = join nl (range_lines a b (split_lines content)).
Proof.
  intros Hg. unfold select_range. rewrite Hg. cbn [elem_or_empty nth].
  set (ls := split_lines content). f_equal.
  assert (ls <> []) as Hne by apply split_lines_nonempty.
  assert (0 < List.length ls) as Hlen by (destruct ls; [congruence|cbn; lia]).
  unfold range_lines, arr_slice, slice_from, slice_to, range_lo, range_hi.
  destruct (Z_of_nat_complete (parseInt b) (parseInt_nonneg b)) as [B HB].
  pose proof (parseInt_nonneg a) as Hpa.
  assert (clamp_index (List.length ls) (0 - 1) = List.length ls - 1) as Hlast.
  { unfold clamp_index. cbn [Z.sub Z.add Z.opp Z.ltb Z.compare]. lia. }
  destruct (truthy a) eqn:Ta; destruct (truthy b) eqn:Tb; cbn [andb].
  - rewrite HB, Nat2Z.id, clamp_index_nat.
    destruct (Z.eqb_spec (parseInt a) 0) as [Za|Za].
    + rewrite Za, Hlast, (skipn_last ls EmptyString Hne).
      destruct (Nat.leb_spec (List.length ls) B).
      * rewrite Nat.min_r by lia.
        replace (List.length ls - (List.length ls - 1)) with 1 by lia.
        reflexivity.
      * rewrite Nat.min_l by lia.
        replace (B - (List.length ls - 1)) with 0 by lia. reflexivity.
    + destruct (Z_of_nat_complete (parseInt a - 1)) as [f Hf]; [lia|].
      rewrite Hf, clamp_index_nat.
      replace (Z.to_nat (parseInt a)) with (f + 1) by lia.
      apply arr_one_indexed.
  - destruct (Z.eqb_spec (parseInt a) 0) as [Za|Za].
    + rewrite Za, Hlast, (skipn_last ls EmptyString Hne), Nat.leb_refl.
      replace (List.length ls - (List.length ls - 1)) with 1 by lia.
      reflexivity.
    + destruct (Z_of_nat_complete (parseInt a - 1)) as [f Hf]; [lia|].
      rewrite Hf, clamp_index_nat.
      replace (Z.to_nat (parseInt a)) with (f + 1) by lia.
      rewrite <- (Nat.min_id (List.length ls)) at 1. apply arr_one_indexed.
  - rewrite HB, Nat2Z.id, clamp_index_nat.
    pose proof (arr_one_indexed ls 0 B) as H. cbn [Nat.min skipn] in H.
    cbn [skipn]. exact H.
  - pose proof (arr_one_indexed ls 0 (List.length ls)) as H.
    cbn [Nat.min skipn] in H. rewrite Nat.min_id in H. cbn [skipn]. exact H.
Qed.

(** C6, counterexample: a start of 0.  Read as a 1-indexed inclusive
    slice, [{0,3}] names the lines 1 to 3; the source turns the start
    into the index -1, which counts from the end, and selects nothing. *)
Lemma include_range_zero_start_counterexample :
  processIncludes docs_env "/docs" (Some "/docs/main.md") false 2
                  "<!--@include: ./test.md{0,3}-->" empty_state =
    Some (EmptyString, push "/docs/test.md" empty_state) /\
  join nl (claimed_range_lines "0" "3" (split_lines five_lines)) = "Line 1
Line 2
Line 3" /\
  join nl (range_lines "0" "3" (split_lines five_lines)) = EmptyString /\
  join nl (range_lines "0" "3" (split_lines five_lines)) <>
  join nl (claimed_range_lines "0" "3" (split_lines five_lines)).
Proof.
  split; [vm_compute; reflexivity|]. split; [vm_compute; reflexivity|].
  split; [vm_compute; reflexivity|]. vm_compute. discriminate.
Qed.

(** C6, amended: an include directive [path{a,b}] of a text, over an
    existing file, is replaced by the expansion of the lines the range
    selects, joined with LF, and the file is recorded.  For a start that
    is left out or at least 1 these are the lines [a] to [b] of the
    file, counted from 1 and both included, a bound left out standing for
    the first, respectively the last, line; for a start of 0 they are
    the last line when the end is left out or reaches it, and no line
    otherwise.  On the five-line file [{2,4}] gives the lines 2 to 4,
    [{2,}] the lines 2 to 5 and [{,2}] the lines 1 and 2. *)
Theorem include_range_selects_lines :
  (forall E srcDir filePath stripFrontmatter fuel doc st before after m
          path a b includePath content,
      plain_path path ->
      str_all is_digit a = true -> str_all is_digit b = true ->
      target_file E srcDir filePath path includePath content ->
      bounded E srcDir filePath stripFrontmatter (S fuel) doc = true ->
      pieces includesRE doc =
        before ++ PMatch m [Some (path ++ range_text a b)%string] :: after ->
      let ls := split_lines content in
      let selected := join nl (range_lines a b ls) in
      (truthy a = false \/ (1 <= parseInt a)%Z ->
       range_lines a b ls = one_indexed_slice (range_lo a) (range_hi b ls) ls) /\
      (truthy a = true -> parseInt a = 0%Z ->
       selected = if List.length ls <=? range_hi b ls
                  then last ls EmptyString else EmptyString) /\
      exists out st' out1 expansion out2 sa sb,
        processIncludes E srcDir filePath stripFrontmatter (S fuel) doc st
        = Some (out, st') /\
        out = (out1 ++ expansion ++ out2)%string /\
        processIncludes E srcDir filePath stripFrontmatter fuel selected
                        (push includePath sa) = Some (expansion, sb) /\
        (test includesRE selected = false -> expansion = selected) /\
        In includePath (includes st'))
  /\
  processIncludes docs_env "/docs" (Some "/docs/main.md") false 2
                  "<!--@include: ./test.md{2,4}-->" empty_state =
    Some ("Line 2
Line 3
Line 4", push "/docs/test.md" empty_state)
  /\
  processIncludes docs_env "/docs" (Some "/docs/main.md") false 2
                  "<!--@include: ./test.md{2,}-->" empty_state =
    Some ("Line 2
Line 3
Line 4
Line 5", push "/docs/test.md" empty_state)
  /\
  processIncludes docs_env "/docs" (Some "/docs/main.md") false 2
                  "<!--@include: ./test.md{,2}-->" empty_state =
    Some ("Line 1
Line 2", push "/docs/test.md" empty_state)
  /\
  processIncludes docs_env "/docs" (Some "/docs/main.md") false 2
                  "Intro
<!--@include: ./test.md{2,4}-->
End" empty_state =
    Some ("Intro
Line 2
Line 3
Line 4
End", push "/docs/test.md" empty_state).
Proof.
  split; [|split; [|split; [|split]]; vm_compute; reflexivity].
  intros E srcDir filePath stripFrontmatter fuel doc st before after m
         path a b includePath content Hp Ha Hb Hfile Hbound Hps ls selected.
  split; [|split].
  - intros Hlo. unfold range_lines.
    destruct (truthy a); cbn [andb]; [|reflexivity].
    destruct Hlo as [Hlo|Hlo]; [discriminate|].
    destruct (Z.eqb_spec (parseInt a) 0); [lia|reflexivity].
  - intros Ta Za. unfold selected, range_lines. rewrite Ta, Za. cbn [andb Z.eqb].
    now destruct (List.length ls <=? range_hi b ls).
  - destruct (range_alone path a b Hp Ha Hb) as [Hrg Hrn].
    pose proof (include_target_range path a b Hp Ha Hb) as Ht.
    destruct (document_directive_expands E srcDir filePath stripFrontmatter
                fuel doc st before after m
                [Some (path ++ range_text a b)%string] includePath selected
                (fun s => s) Hbound Hps)
      as (out & st' & out1 & expansion & out2 & sa & sb & H1 & H2 & H3 & H4 & H5 & _).
    + intros self s.
      rewrite (include_replacer_payload E srcDir filePath stripFrontmatter self)
        by apply payload_not_empty.
      rewrite Ht, Hrg, Hrn.
      rewrite (load_include_meta E srcDir filePath stripFrontmatter
                 path includePath content) by (auto; reflexivity).
      cbn [select_region fst snd].
      now rewrite (select_range_spec
                     {| index := String.length path; matched := range_text a b;
                        groups := [Some a; Some b] |} a b content eq_refl).
    + intros s. apply grows_refl.
    + exists out, st', out1, expansion, out2, sa, sb. now repeat split.
Qed.

Lemma include_range_selects_lines_witness :
  range_lines "2" "4" (split_lines five_lines) = ["Line 2"; "Line 3"; "Line 4"] /\
  exists out st',
    processIncludes docs_env "/docs" (Some "/docs/main.md") false 2
                    "<!--@include: ./test.md{2,4}-->" empty_state
    = Some (out, st') /\
    In "/docs/test.md" (includes st').
Proof.
  destruct (proj1 include_range_selects_lines docs_env "/docs"
              (Some "/docs/main.md") false 1 "<!--@include: ./test.md{2,4}-->"
              empty_state [] [] "<!--@include: ./test.md{2,4}-->"
              "./test.md" "2" "4" "/docs/test.md" five_lines)
    as (_ & _ & out & st' & out1 & expansion & out2 & sa & sb & H1 & _ & _ & _ & H5).
  - split; reflexivity.
  - reflexivity.
  - reflexivity.
  - repeat split; reflexivity.
  - vm_compute. reflexivity.
  - vm_compute. reflexivity.
  - split; [vm_compute; reflexivity|]. exists out, st'. now split.
Defined.

(** ** A snippet directive among the pieces of a text *)

Lemma processSnippets_at_directive (E : Env) (srcDir : string)
      (filePath : option string) (doc : string) (st : State)
      (before after : list piece) (m : string) (g : list (option string))
      (r p : string) :
  pieces snippetRE doc = before ++ PMatch m g :: after ->
  (forall s, snippet_replacer E srcDir filePath m g s = (r, push p s)) ->
  (exists out1 out2,
      fst (processSnippets E srcDir filePath doc st) = (out1 ++ r ++ out2)%string) /\
  In p (includes (snd (processSnippets E srcDir filePath doc st))).
Proof.
  intros Hps Hstep. unfold processSnippets. rewrite Hps, replace_pieces_split.
  destruct (replace_pieces _ before st) as [out1 st1]. rewrite Hstep.
  pose proof (replace_pieces_grows (snippet_replacer E srcDir filePath)
                (snippet_replacer_grows E srcDir filePath) after (push p st1)) as Hg.
  destruct (replace_pieces _ after _) as [out2 st3]. cbn [fst snd] in *.
  split; [now exists out1, out2|].
  eapply grows_includes; [exact Hg|].
  cbn [push includes]. apply in_or_app. right. now left.
Qed.

(** ** Regions that are not found, in a document *)

(** C10, counterexample: a region that is not found and a range.  The
    directive is not replaced by the full file: the range is applied to
    it. *)
Lemma region_not_found_with_range_counterexample :
  readFileSync docs_env "/docs/r.md" = Some region_file /\
  findRegion (split_lines region_file) "nope" = None /\
  processIncludes docs_env "/docs" (Some "/docs/main.md") false 2
                  "<!--@include: ./r.md#nope{2,3}-->" empty_state =
    Some ("<!-- #region test -->
Inside 1",
          push "/docs/r.md" (warn (region_warning "nope" "/docs/r.md") empty_state)) /\
  "<!-- #region test -->
Inside 1" <> region_file.
Proof.
  split; [reflexivity|]. split; [vm_compute; reflexivity|].
  split; [vm_compute; reflexivity|]. discriminate.
Qed.

(** C10, amended: when the file exists and the named region is not
    found, the region selection is skipped.  An include directive of a
    text is then replaced by the expansion of the whole file when it
    has no range, and by the expansion of the lines its range selects in
    the whole file when it has one; a warning is printed and the path is
    recorded.  A snippet directive yields a code block with the whole
    file, CR LF turned into LF, records the path and prints nothing. *)
Theorem region_not_found_skips_region_selection :
  (forall E srcDir filePath stripFrontmatter fuel doc st before after m
          path name includePath content,
      plain_path path -> region_token name ->
      target_file E srcDir filePath path includePath content ->
      findRegion (split_lines content) name = None ->
      bounded E srcDir filePath stripFrontmatter (S fuel) doc = true ->
      pieces includesRE doc =
        before ++ PMatch m [Some (path ++ "#" ++ name)%string] :: after ->
      exists out st' out1 expansion out2 sa sb,
        processIncludes E srcDir filePath stripFrontmatter (S fuel) doc st
        = Some (out, st') /\
        out = (out1 ++ expansion ++ out2)%string /\
        processIncludes E srcDir filePath stripFrontmatter fuel content
          (push includePath (warn (region_warning name includePath) sa))
        = Some (expansion, sb) /\
        (test includesRE content = false -> expansion = content) /\
        In includePath (includes st') /\
        In (region_warning name includePath) (warnings st'))
  /\
  (forall E srcDir filePath stripFrontmatter fuel doc st before after m
          path name a b includePath content,
      plain_path path -> region_token name ->
      str_all is_digit a = true -> str_all is_digit b = true ->
      target_file E srcDir filePath path includePath content ->
      findRegion (split_lines content) name = None ->
      bounded E srcDir filePath stripFrontmatter (S fuel) doc = true ->
      pieces includesRE doc =
        before ++ PMatch m [Some (path ++ "#" ++ name ++ range_text a b)%string]
               :: after ->
      let selected := join nl (range_lines a b (split_lines content)) in
      exists out st' out1 expansion out2 sa sb,
        processIncludes E srcDir filePath stripFrontmatter (S fuel) doc st
        = Some (out, st') /\
        out = (out1 ++ expansion ++ out2)%string /\
        processIncludes E srcDir filePath stripFrontmatter fuel selected
          (push includePath (warn (region_warning name includePath) sa))
        = Some (expansion, sb) /\
        (test includesRE selected = false -> expansion = selected) /\
        In includePath (includes st') /\
        In (region_warning name includePath) (warnings st'))
  /\
  (forall E srcDir filePath doc st before after m g p raw,
      let rawPath := elem_or_empty g 0 in
      let tok := snippet_token rawPath in
      let block := ("```" ++ snippet_info tok ++ nl ++ crlf_to_lf raw ++ nl
                    ++ "```")%string in
      pieces snippetRE doc = before ++ PMatch m g :: after ->
      rawPath <> EmptyString ->
      truthy (region tok) = true ->
      snippetPath_of E srcDir filePath (snippet_atPresent rawPath) tok = Some p ->
      existsSync E p = true ->
      readFileSync E p = Some raw ->
      findRegion (split_nl (crlf_to_lf raw)) (str_drop 1 (region tok)) = None ->
      (forall st1,
          snippet_replacer E srcDir filePath m g st1 = (block, push p st1)) /\
      (exists out1 out2,
          fst (processSnippets E srcDir filePath doc st)
          = (out1 ++ block ++ out2)%string) /\
      In p (includes (snd (processSnippets E srcDir filePath doc st))))
  /\
  processIncludes docs_env "/docs" (Some "/docs/main.md") false 2
                  "<!--@include: ./r.md#nope-->" empty_state =
    Some ("Before region
<!-- #region test -->
Inside 1
Inside 2
Inside 3
<!-- #endregion test -->
After region",
          push "/docs/r.md" (warn (region_warning "nope" "/docs/r.md") empty_state))
  /\
  processIncludes docs_env "/docs" (Some "/docs/main.md") false 2
                  "<!--@include: ./r.md#nope{2,3}-->" empty_state =
    Some ("<!-- #region test -->
Inside 1",
          push "/docs/r.md" (warn (region_warning "nope" "/docs/r.md") empty_state))
  /\
  processSnippets docs_env "/src" (Some "/docs/main.md")
                  "<<< @/math.js#nope" empty_state =
    ("```js
// #region utils
  function add(a, b) {
    return a + b;
  }

  function multiply(a, b) {
    return a * b;
  }
// #endregion utils
```", push "/src/math.js" empty_state).
Proof.
  split; [|split; [|split; [|split; [|split]; vm_compute; reflexivity]]].
  - intros E srcDir filePath stripFrontmatter fuel doc st before after m
           path name includePath content Hp Hn Hfile Hnone Hbound Hps.
    destruct (region_alone path name Hp Hn) as [Hrg Hrn].
    pose proof (include_target_region path name Hp Hn) as Ht.
    destruct (document_directive_expands E srcDir filePath stripFrontmatter
                fuel doc st before after m
                [Some (path ++ "#" ++ name)%string] includePath content
                (warn (region_warning name includePath)) Hbound Hps)
      as (out & st' & out1 & expansion & out2 & sa & sb
          & H1 & H2 & H3 & H4 & H5 & H6).
    + intros self s.
      rewrite (include_replacer_payload E srcDir filePath stripFrontmatter self)
        by apply payload_not_empty.
      rewrite Ht, Hrg, Hrn.
      rewrite (load_include_meta E srcDir filePath stripFrontmatter
                 path includePath content) by (auto; reflexivity).
      unfold select_region. cbn [matched].
      change ("#" ++ name)%string with (String "#" name).
      change (Some 1%Z) with (Some (Z.of_nat 1)).
      rewrite (str_slice_from (String "#" name) 1). cbn [str_drop].
      rewrite Hnone. reflexivity.
    + intros s. apply grows_warn.
    + exists out, st', out1, expansion, out2, sa, sb.
      repeat (split; [assumption|]).
      eapply grows_warnings; [exact H6|].
      cbn [warn warnings]. apply in_or_app. right. now left.
  - intros E srcDir filePath stripFrontmatter fuel doc st before after m
           path name a b includePath content Hp Hn Ha Hb Hfile Hnone Hbound Hps
           selected.
    destruct (region_before_range path name a b Hp Hn Ha Hb) as [Hrg Hrn].
    pose proof (include_target_region_range path name a b Hp Hn Ha Hb) as Ht.
    destruct (document_directive_expands E srcDir filePath stripFrontmatter
                fuel doc st before after m
                [Some (path ++ "#" ++ name ++ range_text a b)%string]
                includePath selected
                (warn (region_warning name includePath)) Hbound Hps)
      as (out & st' & out1 & expansion & out2 & sa & sb
          & H1 & H2 & H3 & H4 & H5 & H6).
    + intros self s.
      rewrite (include_replacer_payload E srcDir filePath stripFrontmatter self)
        by apply payload_not_empty.
      rewrite Ht, Hrg, Hrn.
      rewrite (load_include_meta E srcDir filePath stripFrontmatter
                 path includePath content) by (auto; reflexivity).
      unfold select_region. cbn [matched].
      change ("#" ++ name)%string with (String "#" name).
      change (Some 1%Z) with (Some (Z.of_nat 1)).
      rewrite (str_slice_from (String "#" name) 1). cbn [str_drop].
      rewrite Hnone. cbn [fst snd].
      now rewrite (select_range_spec
                     {| index := String.length (path ++ String "#" name);
                        matched := range_text a b;
                        groups := [Some a; Some b] |} a b content eq_refl).
    + intros s. apply grows_warn.
    + exists out, st', out1, expansion, out2, sa, sb.
      repeat (split; [assumption|]).
      eapply grows_warnings; [exact H6|].
      cbn [warn warnings]. apply in_or_app. right. now left.
  - intros E srcDir filePath doc st before after m g p raw rawPath tok block
           Hps Hne Hreg Hp Hex Hrd Hnone.
    assert (forall st1,
               snippet_replacer E srcDir filePath m g st1 = (block, push p st1))
      as Hstep.
    { intros st1. unfold snippet_replacer. fold rawPath.
      destruct rawPath as [|c r] eqn:Hr; [congruence|].
      cbn [String.length Nat.eqb]. fold tok.
      unfold load_snippet. rewrite Hp, Hex, Hrd. cbn [negb].
      unfold snippet_region. rewrite Hreg.
      change (Some 1%Z) with (Some (Z.of_nat 1)).
      rewrite (str_slice_from (region tok) 1), Hnone. reflexivity. }
    split; [exact Hstep|].
    exact (processSnippets_at_directive E srcDir filePath doc st before after
             m g block p Hps Hstep).
Qed.

Lemma region_not_found_skips_region_selection_witness :
  (exists out st',
      processIncludes docs_env "/docs" (Some "/docs/main.md") false 2
                      "<!--@include: ./r.md#nope{2,3}-->" empty_state
      = Some (out, st') /\
      In "/docs/r.md" (includes st') /\
      In (region_warning "nope" "/docs/r.md") (warnings st'))
  /\
  snippet_replacer docs_env "/src" (Some "/docs/main.md")
    "<<< @/math.js#nope" [Some "@/math.js#nope"] empty_state =
  (("```" ++ "js" ++ nl ++ math_js ++ nl ++ "```")%string,
   push "/src/math.js" empty_state).
Proof.
  split.
  - destruct (proj1 (proj2 region_not_found_skips_region_selection) docs_env "/docs"
                (Some "/docs/main.md") false 1 "<!--@include: ./r.md#nope{2,3}-->"
                empty_state [] [] "<!--@include: ./r.md#nope{2,3}-->"
                "./r.md" "nope" "2" "3" "/docs/r.md" region_file)
      as (out & st' & out1 & expansion & out2 & sa & sb & H1 & _ & _ & _ & H5 & H6).
    + split; reflexivity.
    + split; [discriminate|reflexivity].
    + reflexivity.
    + reflexivity.
    + repeat split; reflexivity.
    + vm_compute. reflexivity.
    + vm_compute. reflexivity.
    + vm_compute. reflexivity.
    + exists out, st'. now repeat split.
  - apply (proj1 (proj1 (proj2 (proj2 region_not_found_skips_region_selection))
                    docs_env "/src" (Some "/docs/main.md") "<<< @/math.js#nope"
                    empty_state [] [] "<<< @/math.js#nope" [Some "@/math.js#nope"]
                    "/src/math.js" math_js
                    ltac:(vm_compute; reflexivity) ltac:(discriminate)
                    ltac:(vm_compute; reflexivity) ltac:(vm_compute; reflexivity)
                    ltac:(vm_compute; reflexivity) ltac:(vm_compute; reflexivity)
                    ltac:(vm_compute; reflexivity))).
Defined.

(** ** The code block of a snippet, line by line *)

Lemma split_nl_concat (s t : string) :
  split_nl (s ++ nl ++ t) = split_nl s ++ split_nl t.
Proof.
  induction s as [|c s IH].
  - cbn [append nl split_nl app]. now rewrite Ascii.eqb_refl.
  - cbn [append split_nl]. rewrite IH.
    destruct (Ascii.eqb c LF); [reflexivity|].
    destruct (split_nl s) as [|h r] eqn:Hs; [now apply split_nl_nonempty in Hs|].
    reflexivity.
Qed.

Lemma token_class_no_lf (c : ascii) :
  (token_class 1 c = true -> negb (Ascii.eqb c LF) = true) /\
  (token_class 3 c = true -> negb (Ascii.eqb c LF) = true) /\
  (token_class 4 c = true -> negb (Ascii.eqb c LF) = true) /\
  (token_class 6 c = true -> negb (Ascii.eqb c LF) = true).
Proof.
  destruct c as [[] [] [] [] [] [] [] []]; vm_compute; auto.
Qed.

Lemma token_field_ok (rawPath : string) (i : nat) :
  str_all (token_class i)
          (elem_or_empty (match exec rawPathRegexp rawPath with
                          | Some m => groups m
                          | None => []
                          end) i) = true.
Proof.
  destruct (exec rawPathRegexp rawPath) as [m|] eqn:Hm.
  - apply elem_or_empty_ok.
    exact (exec_groups_ok token_class rawPathRegexp rawPath m token_groups_ok Hm).
  - unfold elem_or_empty. now destruct i.
Qed.

(** The info string of a parsed path has no line feed. *)
Lemma snippet_info_no_lf (rawPath : string) :
  no_lf (snippet_info (rawPathToToken rawPath)) = true.
Proof.
  unfold snippet_info, rawPathToToken, trim, no_lf.
  cbn [lang extension lines title attrs].
  set (g := match exec rawPathRegexp rawPath with
            | Some m => groups m
            | None => []
            end).
  assert (forall i, (i = 1 \/ i = 3 \/ i = 4 \/ i = 5 \/ i = 6) ->
                    str_all (fun c => negb (Ascii.eqb c LF)) (elem_or_empty g i) = true)
    as Hf.
  { intros i Hi. apply (str_all_weaken (token_class i)); [|apply token_field_ok].
    intros c. destruct (token_class_no_lf c) as (H1 & H3 & H4 & H6).
    destruct Hi as [->|[->|[->|[->| ->]]]]; assumption. }
  apply str_all_trim_end, str_all_trim_start.
  rewrite !str_all_app.
  assert (str_all (fun c => negb (Ascii.eqb c LF))
                  (js_or (elem_or_empty g 4) (elem_or_empty g 1)) = true) as ->.
  { unfold js_or. destruct (truthy _); apply Hf; auto. }
  assert (str_all (fun c => negb (Ascii.eqb c LF))
                  (js_and (elem_or_empty g 3) ("{" ++ elem_or_empty g 3 ++ "}"))
          = true) as ->.
  { unfold js_and. destruct (truthy _); [|apply Hf; auto].
    rewrite !str_all_app, Hf by auto. reflexivity. }
  assert (str_all (fun c => negb (Ascii.eqb c LF))
                  (js_and (elem_or_empty g 6) ("[" ++ elem_or_empty g 6 ++ "]"))
          = true) as ->.
  { unfold js_and. destruct (truthy _); [|apply Hf; auto 6].
    rewrite !str_all_app, Hf by auto 6. reflexivity. }
  assert (str_all (fun c => negb (Ascii.eqb c LF))
                  (js_and (elem_or_empty g 5) (" " ++ elem_or_empty g 5))
          = true) as ->.
  { unfold js_and. destruct (truthy _); [|apply Hf; auto 6].
    rewrite !str_all_app, Hf by auto 6. reflexivity. }
  reflexivity.
Qed.

(** The lines of a code block: the fence with the info string, the lines
    of the body, the closing fence. *)
Lemma block_lines (info body : string) :
  no_lf info = true ->
  split_nl ("```" ++ info ++ nl ++ body ++ nl ++ "```")
  = ("```" ++ info)%string :: split_nl body ++ ["```"].
Proof.
  intros Hi.
  change ("```" ++ info ++ nl ++ body ++ nl ++ "```")%string
    with (("```" ++ info) ++ nl ++ (body ++ nl ++ "```"))%string.
  rewrite split_nl_app.
  - now rewrite split_nl_concat.
  - unfold no_lf in *. rewrite str_all_app, Hi. reflexivity.
Qed.

(** The lines a snippet keeps of a region that is found. *)
Lemma snippet_region_found_lines (tok : Token) (content : string) (d : RegionData) :
  truthy (region tok) = true ->
  findRegion (split_nl content) (str_drop 1 (region tok)) = Some d ->
  let kept := filter (fun l => negb (test (m_start (re d)) l
                                     || test (m_end (re d)) l))
                     (firstn (end_ d - start d)
                             (skipn (start d) (split_nl content))) in
  kept <> [] ->
  map strip_blanks (split_nl (snippet_region tok content)) = map strip_blanks kept.
Proof.
  intros Hreg Hd kept Hne.
  assert (snippet_region tok content = dedent (join nl kept)) as ->.
  { unfold snippet_region. rewrite Hreg.
    change (Some 1%Z) with (Some (Z.of_nat 1)).
    rewrite (str_slice_from (region tok) 1), Hd.
    apply findRegion_bounds in Hd.
    unfold arr_slice, slice_from, slice_to. rewrite !clamp_index_nat.
    rewrite !Nat.min_l by lia. reflexivity. }
  assert (split_nl (join nl kept) = kept) as Hlines.
  { apply split_join_nl; [exact Hne|].
    apply Forall_forall. intros l Hl.
    apply filter_In in Hl. destruct Hl as [Hl _].
    apply in_firstn, in_skipn in Hl.
    pose proof (split_nl_no_lf content) as Hall.
    rewrite Forall_forall in Hall. now apply Hall. }
  destruct (dedent_cases (join nl kept)) as [[_ ->]|(n & _ & Hall & ->)];
    [now rewrite Hlines|].
  rewrite split_nl_dedented, Hlines, map_map. apply map_ext_in. intros l Hin.
  rewrite Hlines, Forall_forall in Hall. specialize (Hall l Hin).
  destruct (blank_line l) eqn:Hb.
  - rewrite !strip_blanks_blank; auto. now apply blank_line_drop_any.
  - apply strip_blanks_drop. now apply Hall.
Qed.

(** C2: the line spec of a snippet is metadata.  For a snippet directive
    of a text whose file exists, the code block put in its place has
    these lines: the fence with the info string, the lines of the body,
    the closing fence; and the lines of the body are all the lines of
    the file when no region is named or the region is not found, and the
    lines of the region that are kept, up to their indentation, when it
    is found.  The line spec shows in the info string only: on the
    five-line file [{2-4}] and [{2,4}] give a block with the five lines,
    where the range of an include cuts the lines 2 to 4 out. *)
Theorem snippet_line_spec_is_metadata :
  (forall E srcDir filePath doc st before after m g p raw,
      let rawPath := elem_or_empty g 0 in
      let tok := snippet_token rawPath in
      let body := snippet_region tok (crlf_to_lf raw) in
      let block := ("```" ++ snippet_info tok ++ nl ++ body ++ nl ++ "```")%string in
      pieces snippetRE doc = before ++ PMatch m g :: after ->
      rawPath <> EmptyString ->
      snippetPath_of E srcDir filePath (snippet_atPresent rawPath) tok = Some p ->
      existsSync E p = true ->
      readFileSync E p = Some raw ->
      (forall st1,
          snippet_replacer E srcDir filePath m g st1 = (block, push p st1)) /\
      (exists out1 out2,
          fst (processSnippets E srcDir filePath doc st)
          = (out1 ++ block ++ out2)%string) /\
      In p (includes (snd (processSnippets E srcDir filePath doc st))) /\
      split_nl block
      = ("```" ++ snippet_info tok)%string :: split_nl body ++ ["```"] /\
      (truthy (region tok) = false -> split_nl body = split_lines raw) /\
      (findRegion (split_nl (crlf_to_lf raw)) (str_drop 1 (region tok)) = None ->
       split_nl body = split_lines raw) /\
      (forall d,
          truthy (region tok) = true ->
          findRegion (split_nl (crlf_to_lf raw)) (str_drop 1 (region tok)) = Some d ->
          let kept := filter (fun l => negb (test (m_start (re d)) l
                                             || test (m_end (re d)) l))
                             (firstn (end_ d - start d)
                                     (skipn (start d)
                                            (split_nl (crlf_to_lf raw)))) in
          kept <> [] ->
          map strip_blanks (split_nl body) = map strip_blanks kept))
  /\
  processSnippets docs_env "/src" (Some "/docs/main.md")
                  "<<< @/example.js{2-4}" empty_state =
    ("```js{2-4}
Line 1
Line 2
Line 3
Line 4
Line 5
```", push "/src/example.js" empty_state)
  /\
  processSnippets docs_env "/src" (Some "/docs/main.md")
                  "<<< @/example.js{2,4}" empty_state =
    ("```js{2,4}
Line 1
Line 2
Line 3
Line 4
Line 5
```", push "/src/example.js" empty_state)
  /\
  processSnippets docs_env "/src" (Some "/docs/main.md")
                  "<<< @/math.js#utils{1,2}" empty_state =
    ("```js{1,2}
function add(a, b) {
  return a + b;
}

function multiply(a, b) {
  return a * b;
}
```", push "/src/math.js" empty_state)
  /\
  processIncludes docs_env "/src" (Some "/docs/main.md") false 2
                  "<!--@include: @/example.js{2,4}-->" empty_state =
    Some ("Line 2
Line 3
Line 4", push "/src/example.js" empty_state).
Proof.
  split; [|split; [|split; [|split]]; vm_compute; reflexivity].
  intros E srcDir filePath doc st before after m g p raw rawPath tok body block
         Hps Hne Hp Hex Hrd.
  assert (forall st1,
             snippet_replacer E srcDir filePath m g st1 = (block, push p st1))
    as Hstep.
  { intros st1. fold rawPath in Hne.
    rewrite (snippet_replacer_existing E srcDir filePath m g st1 p raw Hne Hp Hex Hrd).
    reflexivity. }
  split; [exact Hstep|].
  destruct (processSnippets_at_directive E srcDir filePath doc st before after
              m g block p Hps Hstep) as [Hout Hin].
  split; [exact Hout|]. split; [exact Hin|].
  split; [|split; [|split]].
  - apply block_lines. apply snippet_info_no_lf.
  - intros Hreg. unfold body.
    rewrite (snippet_region_without_region tok _ Hreg).
    apply split_nl_crlf_to_lf.
  - intros Hnone. unfold body, snippet_region.
    destruct (truthy (region tok)); [|apply split_nl_crlf_to_lf].
    change (Some 1%Z) with (Some (Z.of_nat 1)).
    rewrite (str_slice_from (region tok) 1), Hnone.
    apply split_nl_crlf_to_lf.
  - intros d Hreg Hd kept Hkept.
    exact (snippet_region_found_lines tok (crlf_to_lf raw) d Hreg Hd Hkept).
Qed.

Lemma snippet_line_spec_is_metadata_witness :
  split_nl ("```" ++ snippet_info (snippet_token "@/example.js{2-4}") ++ nl
            ++ snippet_region (snippet_token "@/example.js{2-4}")
                              (crlf_to_lf five_lines) ++ nl ++ "```")
  = ["```js{2-4}"; "Line 1"; "Line 2"; "Line 3"; "Line 4"; "Line 5"; "```"] /\
  In "/src/example.js"
     (includes (snd (processSnippets docs_env "/src" (Some "/docs/main.md")
                                     "<<< @/example.js{2-4}" empty_state))).
Proof.
  destruct (proj1 snippet_line_spec_is_metadata docs_env "/src"
              (Some "/docs/main.md") "<<< @/example.js{2-4}" empty_state [] []
              "<<< @/example.js{2-4}" [Some "@/example.js{2-4}"]
              "/src/example.js" five_lines)
    as (_ & _ & Hin & Hlines & Hbody & _).
  - vm_compute. reflexivity.
  - discriminate.
  - vm_compute. reflexivity.
  - vm_compute. reflexivity.
  - vm_compute. reflexivity.
  - split; [|exact Hin]. etransitivity; [exact Hlines|].
    rewrite Hbody by (vm_compute; reflexivity). vm_compute. reflexivity.
Defined.

(** ** What the list of dependencies covers *)

Section DependenciesCovered.

Variable E : Env.
Variable srcDir : string.
Variable filePath : option string.
Variable stripFrontmatter : bool.

(** The file of a snippet directive that is read is in [includes] after
    the run over the text. *)
Lemma processSnippets_records (value p : string) (st : State) :
  snippet_file E srcDir filePath value p ->
  In p (includes (snd (processSnippets E srcDir filePath value st))).
Proof.
  intros (m & g & Hin & Hne & Hp & Hex & Hrd).
  destruct (readFileSync E p) as [raw|] eqn:Hraw; [|congruence].
  apply in_split in Hin. destruct Hin as (before & after & Hps).
  apply (processSnippets_at_directive E srcDir filePath value st before after m g
           (fenced (snippet_info (snippet_token (elem_or_empty g 0)))
                   (snippet_region (snippet_token (elem_or_empty g 0))
                                   (crlf_to_lf raw))) p Hps).
  intros s. now apply snippet_replacer_existing.
Qed.

Lemma snippet_file_has_match (value p : string) :
  snippet_file E srcDir filePath value p -> test snippetRE value = true.
Proof.
  intros (m & g & Hin & _). destruct (test snippetRE value) eqn:T; [reflexivity|].
  apply test_false_no_match in T. rewrite forallb_forall in T.
  apply T in Hin. discriminate.
Qed.

End DependenciesCovered.

(** C3: when the plugin has run over a document, the list it attaches
    holds the path of every file whose text went into the result: every
    file that contributes to the expansion of an include directive of a
    visited [html] node, the files included by included files as well,
    and every file read for a snippet directive of a visited [text]
    node.  The run returns when the fuel covers the depth of the include
    graph. *)
Theorem dependencies_cover_nested_includes
        (E : Env) (srcDir : string) (filePath : option string)
        (stripFrontmatter : bool) (fuel : nat) (visited : list Node) :
  (forall value, In (html value) visited ->
                 bounded E srcDir filePath stripFrontmatter fuel value = true) ->
  exists deps,
    remarkInclude E srcDir filePath stripFrontmatter fuel visited = Some deps /\
    (forall value p,
        In (html value) visited ->
        contributes E srcDir filePath stripFrontmatter value p -> In p deps) /\
    (forall value p,
        In (text value) visited ->
        snippet_file E srcDir filePath value p -> In p deps).
Proof.
  intros Hb. unfold remarkInclude.
  assert (forall st,
             exists st',
               visit_all E srcDir filePath stripFrontmatter fuel visited st
               = Some st' /\
               grows st st' /\
               (forall value p,
                   In (html value) visited ->
                   contributes E srcDir filePath stripFrontmatter value p ->
                   In p (includes st')) /\
               (forall value p,
                   In (text value) visited ->
                   snippet_file E srcDir filePath value p ->
                   In p (includes st')))
    as H.
  { induction visited as [|n t IH]; intros st.
    - exists st. split; [reflexivity|]. split; [apply grows_refl|].
      split; intros ? ? [].
    - assert (exists r s1,
                 visitor E srcDir filePath stripFrontmatter fuel n st
                 = Some (r, s1) /\
                 (forall value p,
                     n = html value ->
                     contributes E srcDir filePath stripFrontmatter value p ->
                     In p (includes s1)) /\
                 (forall value p,
                     n = text value ->
                     snippet_file E srcDir filePath value p ->
                     In p (includes s1)))
        as (r & s1 & Hv & Hinc & Hsnip).
      { destruct n as [value|value|]; cbn [visitor].
        - destruct (test includesRE value) eqn:T.
          + destruct (processIncludes_returns E srcDir filePath stripFrontmatter
                        fuel value st) as (o & s1 & Hp).
            { apply Hb. now left. }
            rewrite Hp. eexists _, s1. split; [reflexivity|].
            split; [|discriminate].
            intros v p [= <-] Hc. eapply processIncludes_records; eauto.
          + eexists _, st. split; [reflexivity|]. split; [|discriminate].
            intros v p [= <-] Hc. apply contributes_has_match in Hc. congruence.
        - destruct (test snippetRE value) eqn:T.
          + pose proof (fun p => processSnippets_records E srcDir filePath
                                   value p st) as Hrec.
            destruct (processSnippets E srcDir filePath value st) as [o s1].
            eexists _, s1. split; [reflexivity|]. split; [discriminate|].
            intros v p [= <-] Hf. now apply Hrec.
          + eexists _, st. split; [reflexivity|]. split; [discriminate|].
            intros v p [= <-] Hf. apply snippet_file_has_match in Hf. congruence.
        - eexists _, st. split; [reflexivity|]. split; discriminate. }
      cbn [visit_all]. rewrite Hv.
      destruct (IH (fun v Hin => Hb v (or_intror Hin)) s1)
        as (st' & Hrun & Hg & Ht1 & Ht2).
      exists st'. split; [exact Hrun|]. split; [|split].
      + eapply grows_trans; [eapply visitor_grows; exact Hv|exact Hg].
      + intros value p [->|Hin] Hc.
        * eapply grows_includes; [exact Hg|]. now apply (Hinc value p).
        * now apply (Ht1 value p).
      + intros value p [->|Hin] Hc.
        * eapply grows_includes; [exact Hg|]. now apply (Hsnip value p).
        * now apply (Ht2 value p). }
  destruct (H {| includes := []; warnings := [] |}) as (st' & -> & _ & H1 & H2).
  exists (includes st'). split; [reflexivity|]. split; [exact H1|exact H2].
Qed.

Example snippet_file_of_example :
  snippet_file docs_env "/src" (Some "/docs/main.md")
               "<<< @/example.js" "/src/example.js".
Proof.
  exists "<<< @/example.js", [Some "@/example.js"].
  split; [vm_compute; now left|]. split; [discriminate|].
  split; [vm_compute; reflexivity|]. split; [vm_compute; reflexivity|].
  vm_compute. discriminate.
Qed.

Lemma dependencies_cover_nested_includes_witness :
  exists deps,
    remarkInclude docs_env "/src" (Some "/docs/main.md") false 3 visited_example
    = Some deps /\
    In "/docs/a.md" deps /\ In "/docs/b.md" deps /\ In "/src/example.js" deps.
Proof.
  destruct (dependencies_cover_nested_includes docs_env "/src"
              (Some "/docs/main.md") false 3 visited_example)
    as (deps & Hrun & Hinc & Hsnip).
  - intros value [H|[H|[H|[]]]]; try discriminate.
    injection H as <-. vm_compute. reflexivity.
  - exists deps. split; [exact Hrun|]. split; [|split].
    + apply (Hinc "<!--@include: ./a.md-->"); [right; now left|].
      apply nested_include_contributes.
    + apply (Hinc "<!--@include: ./a.md-->"); [right; now left|].
      apply nested_include_contributes.
    + apply (Hsnip "<<< @/example.js"); [right; right; now left|].
      apply snippet_file_of_example.
Defined.
